(** * Label propagation (sknetwork/topology/labProp.pyx)

    A shallow embedding of the Cython module: the Fisher-Yates [shuffle], the
    propagation loop [fit_core] and the [LabelPropagation] class with its
    [fit] and [fit_transform] methods, followed by the properties of the
    specification that were checked against them.

    Modelling conventions.
    - A C [int] is a [Z].  Every integer the code computes is an index, a
      node id, a label or a count of neighbours; on a graph whose arrays
      hold fewer than 2^30 entries none of them leaves the range of [int].
    - A memoryview ([int[:]]) or a typed ndarray buffer is a [list Z].
      [fit_core] is compiled with Cython's default directives, so an index is
      wrapped around when negative and bounds-checked ([buf_get], [buf_set]);
      [shuffle] carries [boundscheck(False)] and [wraparound(False)], so its
      accesses are raw ([raw_get], [raw_set]).
    - A [vector[int]] on which only [reserve] was called is its reserved
      storage, a list of cells that are uninitialised ([None]) until written;
      [operator[]] is unchecked ([vec_get], [vec_set]).
    - The C library generator is a state with the two operations [rand] and
      [srand].
    - The [while] loop has no iteration bound, so [fit_core] takes a number
      of passes it may run ([fuel]) and answers [None] when that is not
      enough.
    - [fit] is called with what its annotations say: an object whose
      [seed] is [None] or an integer, and a matrix with an integer
      [shape[0]] and two index arrays.  The conversions of these to the C
      types of [srand] and [fit_core] are part of the model.
    - Memory does not run out: an array or a vector of a non-negative
      size is there when it is asked for. *)

From stdpp Require Import base numbers list relations sorting gmap.
From Stdlib Require Import ZArith Lia.

Local Open Scope Z_scope.
Set Warnings "-clear-no-such-hyp".

(** ** Failures *)

(** What a call can end in other than a value: the Python exceptions the
    module can raise, [LengthError] for the [std::length_error] that
    [reserve] throws (a [RuntimeError] where the build lets Cython
    translate the C++ exception, the end of the process where it does
    not), and [Undefined] for an access that C++ leaves undefined (outside
    the storage, or a read of an uninitialised cell). *)
Inductive exn : Set :=
  | IndexError
  | OverflowError
  | ValueError
  | LengthError
  | AttributeError
  | Undefined.

Inductive res (A : Type) : Type :=
  | Ok (a : A)
  | Err (e : exn).
Arguments Ok {A} a.
Arguments Err {A} e.

#[global] Instance exn_eq_dec : EqDecision exn.
Proof. solve_decision. Defined.

#[global] Instance res_eq_dec {A} `{EqDecision A} : EqDecision (res A).
Proof. solve_decision. Defined.

#[global] Instance res_ret : MRet res := λ A a, Ok a.
#[global] Instance res_bind : MBind res := λ A B f m,
  match m with
  | Ok a => f a
  | Err e => Err e
  end.

(** ** Arrays *)

(** Index of a checked access: a negative index counts from the end. *)
Definition wrap_index (len j : Z) : Z := if j <? 0 then j + len else j.

(** [a[j]] on a memoryview or ndarray buffer, [boundscheck=True],
    [wraparound=True]. *)
Definition buf_get (a : list Z) (j : Z) : res Z :=
  let k := wrap_index (Z.of_nat (length a)) j in
  if k <? 0 then Err IndexError
  else match a !! Z.to_nat k with
       | Some x => Ok x
       | None => Err IndexError
       end.

(** [a[j] = x], same directives. *)
Definition buf_set (a : list Z) (j x : Z) : res (list Z) :=
  let k := wrap_index (Z.of_nat (length a)) j in
  if (k <? 0) || (Z.of_nat (length a) <=? k) then Err IndexError
  else Ok (<[Z.to_nat k := x]> a).

(** [a[j]] with [boundscheck(False)] and [wraparound(False)]. *)
Definition raw_get (a : list Z) (j : Z) : res Z :=
  if j <? 0 then Err Undefined
  else match a !! Z.to_nat j with
       | Some x => Ok x
       | None => Err Undefined
       end.

Definition raw_set (a : list Z) (j x : Z) : res (list Z) :=
  if (j <? 0) || (Z.of_nat (length a) <=? j) then Err Undefined
  else Ok (<[Z.to_nat j := x]> a).

(** Storage of a [vector[int]]: one cell per reserved element. *)
Abbreviation vec := (list (option Z)).

(** [v.reserve(n)]: a negative [int] converts to a [size_type] beyond
    [max_size()], and [reserve] throws. *)
Definition reserve (n : Z) : res vec :=
  if n <? 0 then Err LengthError else Ok (replicate (Z.to_nat n) None).

Definition vec_get (v : vec) (j : Z) : res Z :=
  if j <? 0 then Err Undefined
  else match v !! Z.to_nat j with
       | Some (Some x) => Ok x
       | _ => Err Undefined
       end.

Definition vec_set (v : vec) (j x : Z) : res vec :=
  if (j <? 0) || (Z.of_nat (length v) <=? j) then Err Undefined
  else Ok (<[Z.to_nat j := Some x]> v).

(** [np.arange(n, dtype=np.int32)] *)
Definition arange (n : Z) : list Z := seqZ 0 n.

(** ** Loops *)

(** [range(lo, hi)] and [range(start, stop, -1)] *)
Definition range (lo hi : Z) : list Z := seqZ lo (hi - lo).
Definition range_down (start stop : Z) : list Z :=
  reverse (seqZ (stop + 1) (start - stop)).

(** [for x in xs: body], threading the state and stopping at a failure. *)
Fixpoint forM {S : Type} (body : Z → S → res S) (xs : list Z) (s : S) : res S :=
  match xs with
  | [] => Ok s
  | x :: xs' =>
      match body x s with
      | Ok s' => forM body xs' s'
      | Err e => Err e
      end
  end.

(** The states a loop passes through: [inner x s] lists the states inside
    the iteration on [x] started in [s]. *)
Fixpoint forM_trace {S : Type} (body : Z → S → res S)
    (inner : Z → S → list S) (xs : list Z) (s : S) : list S :=
  match xs with
  | [] => []
  | x :: xs' =>
      inner x s ++
      match body x s with
      | Ok s' => forM_trace body inner xs' s'
      | Err _ => []
      end
  end.

(** The state an iteration ends in, when it ends. *)
Definition after {S : Type} (body : Z → S → res S) (x : Z) (s : S) : list S :=
  match body x s with
  | Ok s' => [s']
  | Err _ => []
  end.

(** ** A generator to run the code with

    The sample implementation of [rand] and [srand] of ISO C (7.22.2),
    with a 64-bit [unsigned long]. *)
Definition iso_rand (next : Z) : Z * Z :=
  let next' := (next * 1103515245 + 12345) mod 2 ^ 64 in
  ((next' / 65536) mod 32768, next').

Definition iso_srand (seed : Z) : Z := seed.

(** A generator that reads its numbers off a tape. *)
Definition tape_rand (t : list nat) : Z * list nat :=
  match t with
  | [] => (0, [])
  | r :: t' => (Z.of_nat r, t')
  end.

Section LabelPropagation.

(** The C library's generator: its state, [rand()] and the state that
    [srand(seed)] installs. *)
Context {rng_state : Type}.
Variable rand : rng_state → Z * rng_state.
Variable srand : Z → rng_state.

(** ** shuffle *)

(** [rand() % (i+1)]: the module sets no [cdivision], so [%] on C ints
    is Python's, with the sign of the divisor. *)
Definition pick (r i : Z) : Z := r mod (i + 1).

(** Lines 33-36. *)
Definition shuffle_step (i : Z) (ag : list Z * rng_state)
    : res (list Z * rng_state) :=
  let '(arr, g) := ag in
  let '(r, g') := rand g in
  let j := pick r i in
  temp ← raw_get arr i;
  aj ← raw_get arr j;
  arr1 ← raw_set arr i aj;
  arr2 ← raw_set arr1 j temp;
  Ok (arr2, g').

Definition shuffle (arr : list Z) (n : Z) (g : rng_state)
    : res (list Z * rng_state) :=
  forM shuffle_step (range_down (n - 1) 0) (arr, g).

(** Modelled on section 4.1 of the specification, to compare [shuffle]
    with: for [i] from [n-1] down to [1], draw [j] in [[0, i]] and swap the
    elements at [i] and [j]. *)
Definition swap (arr : list Z) (i j : nat) : list Z :=
  match arr !! i, arr !! j with
  | Some x, Some y => <[j := x]> (<[i := y]> arr)
  | _, _ => arr
  end.

Fixpoint fisher_yates (i : nat) (arr : list Z) (g : rng_state)
    : list Z * rng_state :=
  match i with
  | O => (arr, g)
  | S i' =>
      let '(r, g') := rand g in
      fisher_yates i' (swap arr i (Z.to_nat (r mod (Z.of_nat i + 1)))) g'
  end.

(** The generator after [k] calls of [rand]. *)
Definition draws (k : nat) (g : rng_state) : rng_state :=
  Nat.iter k (λ g', (rand g').2) g.

(** ** fit_core *)

(** The variables of [fit_core] that outlive a loop iteration, and the
    generator.  [list_size] and [nb_lab_max] are assigned before each use. *)
Record state : Type := State {
  labels : list Z;
  order : list Z;
  nb_labels : vec;
  lst : vec;
  list_size : Z;
  nb_lab_max : Z;
  changed : bool;
  gen : rng_state
}.

Definition set_labels (x : list Z) (st : state) : state :=
  State x (order st) (nb_labels st) (lst st) (list_size st) (nb_lab_max st)
    (changed st) (gen st).
Definition set_order (x : list Z) (st : state) : state :=
  State (labels st) x (nb_labels st) (lst st) (list_size st) (nb_lab_max st)
    (changed st) (gen st).
Definition set_nb_labels (x : vec) (st : state) : state :=
  State (labels st) (order st) x (lst st) (list_size st) (nb_lab_max st)
    (changed st) (gen st).
Definition set_lst (x : vec) (st : state) : state :=
  State (labels st) (order st) (nb_labels st) x (list_size st) (nb_lab_max st)
    (changed st) (gen st).
Definition set_list_size (x : Z) (st : state) : state :=
  State (labels st) (order st) (nb_labels st) (lst st) x (nb_lab_max st)
    (changed st) (gen st).
Definition set_nb_lab_max (x : Z) (st : state) : state :=
  State (labels st) (order st) (nb_labels st) (lst st) (list_size st) x
    (changed st) (gen st).
Definition set_changed (x : bool) (st : state) : state :=
  State (labels st) (order st) (nb_labels st) (lst st) (list_size st)
    (nb_lab_max st) x (gen st).
Definition set_gen (x : rng_state) (st : state) : state :=
  State (labels st) (order st) (nb_labels st) (lst st) (list_size st)
    (nb_lab_max st) (changed st) x.

Section Graph.

Variable n_nodes : Z.
Variable indices : list Z.
Variable indptr : list Z.

(** Line 84: [labels[indices[j]]]. *)
Definition neighbor_label (j : Z) (st : state) : res Z :=
  v ← buf_get indices j;
  buf_get (labels st) v.

(** Lines 84-89: one neighbour occurrence is tallied. *)
Definition tally_step (j : Z) (st : state) : res state :=
  label ← neighbor_label j st;
  c ← vec_get (nb_labels st) label;
  st1 ← (if c =? 0
         then lst' ← vec_set (lst st) (list_size st) label;
              Ok (set_list_size (list_size st + 1) (set_lst lst' st))
         else Ok st);
  nb ← vec_set (nb_labels st1) label (c + 1);
  Ok (set_nb_labels nb st1).

(** Lines 93-98: one recorded label is compared with the best so far, then
    its tally is reset. *)
Definition select_step (i j : Z) (st : state) : res state :=
  label ← vec_get (lst st) j;
  c ← vec_get (nb_labels st) label;
  st1 ← (if nb_lab_max st <? c
         then labels' ← buf_set (labels st) i label;
              Ok (set_changed true (set_labels labels' (set_nb_lab_max c st)))
         else Ok st);
  nb ← vec_set (nb_labels st1) label 0;
  Ok (set_nb_labels nb st1).

(** The bounds of [range(indptr[i], indptr[i+1])]. *)
Definition row_bounds (i : Z) : res (Z * Z) :=
  lo ← buf_get indptr i;
  hi ← buf_get indptr (i + 1);
  Ok (lo, hi).

(** Lines 80-89: the neighbours of node [i] are tallied. *)
Definition count_neighbors (i : Z) (st : state) : res state :=
  '(lo, hi) ← row_bounds i;
  forM tally_step (range lo hi) (set_list_size 0 st).

(** Line 91: [nb_lab_max = nb_labels[labels[i]]]. *)
Definition select_init (i : Z) (st : state) : res state :=
  own ← buf_get (labels st) i;
  m ← vec_get (nb_labels st) own;
  Ok (set_nb_lab_max m st).

(** Lines 79-91: node [order[k]] up to the start of its selection loop. *)
Definition node_enter (k : Z) (st : state) : res (Z * state) :=
  i ← buf_get (order st) k;
  st1 ← count_neighbors i st;
  st2 ← select_init i st1;
  Ok (i, st2).

(** Lines 79-98: the body of [for k in range(n_nodes)]. *)
Definition node_step (k : Z) (st : state) : res state :=
  '(i, st2) ← node_enter k st;
  forM (select_step i) (range 0 (list_size st2)) st2.

(** Lines 76-77: a new order is drawn and [changed] lowered. *)
Definition pass_enter (st : state) : res state :=
  '(order', g') ← shuffle (order st) n_nodes (gen st);
  Ok (set_changed false (set_gen g' (set_order order' st))).

(** Lines 76-98: the body of [while changed]. *)
Definition pass (st : state) : res state :=
  st0 ← pass_enter st;
  forM node_step (range 0 n_nodes) st0.

(** [while changed: ...], for at most [fuel] passes. *)
Fixpoint while_changed (fuel : nat) (st : state) : option (res state) :=
  if changed st then
    match fuel with
    | O => None
    | S fuel' =>
        match pass st with
        | Ok st' => while_changed fuel' st'
        | Err e => Some (Err e)
        end
    end
  else Some (Ok st).

(** Lines 65-73: the state in which the [while] loop is entered. *)
Definition init_state (g : rng_state) : res state :=
  nb ← reserve n_nodes;
  scratch ← reserve n_nodes;
  nb0 ← forM (λ i v, vec_set v i 0) (range 0 n_nodes) nb;
  Ok (State (arange n_nodes) (arange n_nodes) nb0 scratch 0 0 true g).

Definition run (fuel : nat) (g : rng_state) : option (res state) :=
  match init_state g with
  | Ok st => while_changed fuel st
  | Err e => Some (Err e)
  end.

(** The labels [fit_core] returns, with the generator it leaves behind. *)
Definition fit_core (fuel : nat) (g : rng_state)
    : option (res (list Z * rng_state)) :=
  match run fuel g with
  | None => None
  | Some (Ok st) => Some (Ok (labels st, gen st))
  | Some (Err e) => Some (Err e)
  end.

(** *** The states of a run

    [labels] is written by [select_step] only, and [nb_labels] and [lst] by
    [tally_step] and [select_step] only; the traces below list the state at
    the start of every node and after each of these steps. *)

Definition count_trace (i : Z) (st : state) : list state :=
  match row_bounds i with
  | Ok (lo, hi) =>
      forM_trace tally_step (after tally_step) (range lo hi)
        (set_list_size 0 st)
  | Err _ => []
  end.

Definition node_trace (k : Z) (st : state) : list state :=
  st ::
  match buf_get (order st) k with
  | Ok i =>
      count_trace i st ++
      match node_enter k st with
      | Ok (_, st2) =>
          forM_trace (select_step i) (after (select_step i))
            (range 0 (list_size st2)) st2
      | Err _ => []
      end
  | Err _ => []
  end.

(** The states in which the nodes of a pass are entered. *)
Definition node_start (k : Z) (st : state) : list state := [st].

Definition pass_trace (inner : Z → state → list state) (st : state)
    : list state :=
  match pass_enter st with
  | Ok st0 => forM_trace node_step inner (range 0 n_nodes) st0
  | Err _ => []
  end.

Fixpoint while_trace (inner : Z → state → list state) (fuel : nat)
    (st : state) : list state :=
  if changed st then
    match fuel with
    | O => []
    | S fuel' =>
        pass_trace inner st ++
        match pass st with
        | Ok st' => st' :: while_trace inner fuel' st'
        | Err _ => []
        end
    end
  else [].

Definition run_trace (inner : Z → state → list state) (fuel : nat)
    (g : rng_state) : list state :=
  match init_state g with
  | Ok st => st :: while_trace inner fuel st
  | Err _ => []
  end.

(** The states at the end of each pass. *)
Definition no_inner (k : Z) (st : state) : list state := [].

End Graph.

(** ** The class LabelPropagation *)

(** References to Python objects. *)
Definition loc : Type := nat.

(** An instance: [labels_] is [None] or an array, [seed] is [None] or an
    integer. *)
Record LabelPropagation : Type := Object {
  labels_ : option loc;
  seed : option Z
}.

(** The instances and the arrays that are alive. *)
Record heap : Type := Heap {
  objects : gmap loc LabelPropagation;
  arrays : gmap loc (list Z)
}.

(** The element types scipy gives the index arrays of a sparse matrix. *)
Inductive dtype : Set :=
  | int32
  | int64.

(** What the coercion of an array to a memoryview looks at: the type of
    its elements, and whether it may be written. *)
Record buffer : Type := Buffer {
  dtype_of : dtype;
  writeable : bool
}.

(** What [fit] reads of a [scipy.sparse.csr_matrix]: [shape[0]], and the
    arrays [indices] and [indptr], each with its contents and its
    buffer. *)
Record csr_matrix : Type := Csr {
  shape0 : Z;
  csr_indices : list Z;
  csr_indptr : list Z;
  indices_buffer : buffer;
  indptr_buffer : buffer
}.

(** A call returns a value and leaves a heap and a generator, or raises;
    the generator a failed call leaves is not tracked. *)
Inductive outcome (A : Type) : Type :=
  | Returns (a : A) (h : heap) (g : rng_state)
  | Raises (e : exn) (h : heap).
Arguments Returns {A} a h g.
Arguments Raises {A} e h.

(** Lines 130-132. *)
Definition __init__ (self : loc) (seed0 : option Z) (h : heap) : heap :=
  Heap (<[self := Object None seed0]> (objects h)) (arrays h).

(** The argument of [srand] is an [unsigned int]. *)
Definition as_unsigned_int (k : Z) : res Z :=
  if (0 <=? k) && (k <? 2 ^ 32) then Ok k else Err OverflowError.

(** Lines 147-148. *)
Definition seed_generator (s : option Z) (g : rng_state) : res rng_state :=
  match s with
  | Some k =>
      match as_unsigned_int k with
      | Ok u => Ok (srand u)
      | Err e => Err e
      end
  | None => Ok g
  end.

(** A Python integer passed for a C [int] parameter. *)
Definition as_int (k : Z) : res Z :=
  if (- 2 ^ 31 <=? k) && (k <? 2 ^ 31) then Ok k else Err OverflowError.

(** An array passed for an [int[:]] parameter: its buffer must hold C
    [int]s and be writable. *)
Definition as_int_memoryview (b : buffer) (a : list Z) : res (list Z) :=
  match dtype_of b, writeable b with
  | int32, true => Ok a
  | _, _ => Err ValueError
  end.

(** A buffer that the coercion to [int[:]] accepts. *)
Definition c_int_buffer (b : buffer) : Prop :=
  dtype_of b = int32 ∧ writeable b = true.

(** Line 150, with the signature of line 38: the arguments of [fit_core],
    each converted to the C type of its parameter, in the order in which
    they are passed. *)
Definition fit_core_args (adjacency : csr_matrix)
    : res (Z * list Z * list Z) :=
  n ← as_int (shape0 adjacency);
  indices ← as_int_memoryview (indices_buffer adjacency)
              (csr_indices adjacency);
  indptr ← as_int_memoryview (indptr_buffer adjacency) (csr_indptr adjacency);
  Ok (n, indices, indptr).

(** Lines 135-151. *)
Definition fit (fuel : nat) (self : loc) (adjacency : csr_matrix) (h : heap)
    (g : rng_state) : option (outcome loc) :=
  match objects h !! self with
  | None => Some (Raises AttributeError h)
  | Some obj =>
      match seed_generator (seed obj) g with
      | Err e => Some (Raises e h)
      | Ok g1 =>
          match fit_core_args adjacency with
          | Err e => Some (Raises e h)
          | Ok (n, indices, indptr) =>
              match fit_core n indices indptr fuel g1 with
              | None => None
              | Some (Err e) => Some (Raises e h)
              | Some (Ok (result, g2)) =>
                  let a := fresh (dom (arrays h)) in
                  Some (Returns self
                          (Heap (<[self := Object (Some a) (seed obj)]>
                                   (objects h))
                                (<[a := result]> (arrays h)))
                          g2)
              end
          end
      end
  end.

(** Lines 154-163. *)
Definition fit_transform (fuel : nat) (self : loc) (adjacency : csr_matrix)
    (h : heap) (g : rng_state) : option (outcome (option loc)) :=
  match fit fuel self adjacency h g with
  | None => None
  | Some (Raises e h') => Some (Raises e h')
  | Some (Returns _ h' g') =>
      match objects h' !! self with
      | Some obj => Some (Returns (labels_ obj) h' g')
      | None => Some (Raises AttributeError h')
      end
  end.

(** The array [self.labels_] refers to. *)
Definition fitted_labels (h : heap) (self : loc) : option (list Z) :=
  obj ← objects h !! self;
  a ← labels_ obj;
  arrays h !! a.

(** The labels array of a call of [fit] when the loop is entered and after
    each of its passes. *)
Definition fit_passes (fuel : nat) (self : loc) (adjacency : csr_matrix)
    (h : heap) (g : rng_state) : list (list Z) :=
  match objects h !! self with
  | None => []
  | Some obj =>
      match seed_generator (seed obj) g with
      | Err _ => []
      | Ok g1 =>
          match fit_core_args adjacency with
          | Err _ => []
          | Ok (n, indices, indptr) =>
              labels <$> run_trace n indices indptr no_inner fuel g1
          end
      end
  end.

End LabelPropagation.

Arguments state : clear implicits.
Arguments outcome : clear implicits.
Arguments Returns {rng_state A} a h g.
Arguments Raises {rng_state A} e h.

(** ** Inputs to run the code on *)

(** The graph of two nodes that are each other's only neighbour, and a
    state in which its first node can be entered. *)
Definition pair_indices : list Z := [1; 0].
Definition pair_indptr : list Z := [0; 1; 2].
Definition pair_start : state Z :=
  State [0; 1] [0; 1] [Some 0; Some 0] [None; None] 0 0 false 1.

(** The buffer of an array of C [int]s that may be written, and the
    matrix of the graph above. *)
Definition int32_buffer : buffer := Buffer int32 true.
Definition pair_matrix : csr_matrix :=
  Csr 2 pair_indices pair_indptr int32_buffer int32_buffer.

(** A matrix with an entry of [indices] that is no node. *)
Definition stray_matrix : csr_matrix :=
  Csr 2 [1; 5] [0; 1; 2] int32_buffer int32_buffer.

(** Two objects seeded alike, in different heaps. *)
Definition seeded_heap : heap := __init__ 0%nat (Some 42) (Heap ∅ ∅).
Definition seeded_heap' : heap :=
  __init__ 1%nat (Some 42) (Heap ∅ {[ 0%nat := [7] ]}).

(** ** The distribution of shuffle

    With a generator whose outputs are independent and uniform on
    [[0, rand_max]], every sequence of [k] outputs is equally likely; the
    probability of an ordering is the share of the sequences that produce
    it. *)

(** All the sequences of [k] outputs. *)
Fixpoint tapes (rand_max : Z) (k : nat) : list (list nat) :=
  match k with
  | O => [[]]
  | S k' =>
      r ← seq 0 (Z.to_nat (rand_max + 1));
      (λ t, r :: t) <$> tapes rand_max k'
  end.

(** The ordering [shuffle] produces from the outputs [t]. *)
Definition shuffled (arr : list Z) (t : list nat) : option (list Z) :=
  match shuffle tape_rand arr (Z.of_nat (length arr)) t with
  | Ok (out, _) => Some out
  | Err _ => None
  end.

(** The number of output sequences that produce the ordering [out]. *)
Definition ways (rand_max : Z) (arr out : list Z) : nat :=
  length (filter (λ t, shuffled arr t = Some out)
            (tapes rand_max (length arr - 1))).

(** Every ordering of [arr] is equally likely. *)
Definition uniform_shuffle (rand_max : Z) (arr : list Z) : Prop :=
  ∀ out1 out2, out1 ≡ₚ arr → out2 ≡ₚ arr →
    ways rand_max arr out1 = ways rand_max arr out2.

(** ** Notions of the specification *)

(** A valid CSR graph (section 3 of the specification): [n_nodes + 1]
    offsets into [indices], non-decreasing, the last one the length of
    [indices], and every entry of [indices] a node. *)
Definition valid_csr (n : Z) (indices indptr : list Z) : Prop :=
  0 ≤ n ∧
  length indptr = Z.to_nat (n + 1) ∧
  Sorted Z.le indptr ∧
  Forall (λ o, 0 ≤ o) indptr ∧
  indptr !! Z.to_nat n = Some (Z.of_nat (length indices)) ∧
  Forall (λ v, 0 ≤ v < n) indices.

#[global] Instance valid_csr_dec n indices indptr :
  Decision (valid_csr n indices indptr).
Proof. unfold valid_csr. apply _. Defined.

(** [l[lo .. hi)] *)
Definition slice (lo hi : Z) (l : list Z) : list Z :=
  take (Z.to_nat (hi - lo)) (drop (Z.to_nat lo) l).

(** The neighbours of node [i], in the order of its row, and the edges. *)
Definition neighbors (indices indptr : list Z) (i : Z) : list Z :=
  slice (indptr !!! Z.to_nat i) (indptr !!! Z.to_nat (i + 1)) indices.

Definition edge (indices indptr : list Z) (i v : Z) : Prop :=
  v ∈ neighbors indices indptr i.

(** The labels of the neighbours of node [i] under the assignment [l]. *)
Definition neighbor_labels (indices indptr l : list Z) (i : Z) : list Z :=
  (λ v, l !!! Z.to_nat v) <$> neighbors indices indptr i.

(** How often [x] occurs in [l]: the tally of a label. *)
Definition occurrences (x : Z) (l : list Z) : Z :=
  Z.of_nat (length (filter (λ y, y = x) l)).

(** The distinct elements of [l] in the order in which they are first
    met. *)
Definition see (acc : list Z) (x : Z) : list Z :=
  if decide (x ∈ acc) then acc else acc ++ [x].
Definition first_seen (l : list Z) : list Z := foldl see [] l.

(** The tally table of a node whose neighbours carry the labels [l]. *)
Definition tallies (n : Z) (l : list Z) : vec :=
  (λ x, Some (occurrences x l)) <$> seqZ 0 n.

(** Step 3b of section 4.2: a label replaces the best one when its tally
    is strictly greater. *)
Definition challenge (l : list Z) (best : Z * Z) (lab : Z) : Z * Z :=
  if best.1 <? occurrences lab l then (occurrences lab l, lab) else best.
Definition winner (l : list Z) (own : Z) (touched : list Z) : Z * Z :=
  foldl (challenge l) (occurrences own l, own) touched.

(** Every entry of a labels array of [n] nodes is a node. *)
Definition labels_ok (n : Z) (l : list Z) : Prop :=
  length l = Z.to_nat n ∧ Forall (λ x, 0 ≤ x < n) l.

(** The recorded part of the scratch list. *)
Definition scratch {rng_state : Type} (st : state rng_state) : vec :=
  take (Z.to_nat (list_size st)) (lst st).

(** The tally table after the entries of the labels [ls] were reset. *)
Definition zero_out (v : vec) (ls : list Z) : vec :=
  foldl (λ v' x, <[Z.to_nat x := Some 0]> v') v ls.

(** The state in which a node is entered: the labels and the order hold
    nodes, the tally table is all zero, the scratch list has its [n]
    reserved cells. *)
Definition ready {rng_state : Type} (n : Z) (st : state rng_state) : Prop :=
  0 ≤ n ∧
  labels_ok n (labels st) ∧
  labels_ok n (order st) ∧
  nb_labels st = tallies n [] ∧
  length (lst st) = Z.to_nat n.

(** The state of the tally loop of a node entered in [st0], after the
    labels [seen] were read. *)
Definition tallied {rng_state : Type} (n : Z) (st0 : state rng_state)
    (seen : list Z) (st : state rng_state) : Prop :=
  st = State (labels st0) (order st0) (tallies n seen) (lst st)
         (Z.of_nat (length (first_seen seen))) (nb_lab_max st0) (changed st0)
         (gen st0) ∧
  length (lst st) = Z.to_nat n ∧
  scratch st = Some <$> first_seen seen.

(** The state of the selection loop of node [i], entered in [st1] with the
    tallies of [labs], after the recorded labels [tried]. *)
Definition selected {rng_state : Type} (n i : Z) (st1 : state rng_state)
    (labs : list Z) (tried : list Z) (st : state rng_state) : Prop :=
  let own := labels st1 !!! Z.to_nat i in
  let w := winner labs own tried in
  st = State (<[Z.to_nat i := w.2]> (labels st1)) (order st1)
         (zero_out (tallies n labs) tried) (lst st1) (list_size st1) w.1
         (changed st1 || bool_decide (occurrences own labs < w.1)) (gen st1).

(** Node [i] is the one visited at position [k], and [labs] are the labels
    read off its row, in order. *)
Definition node_reads {rng_state : Type} (indices indptr : list Z)
    (st : state rng_state) (k i : Z) (labs : list Z) : Prop :=
  buf_get (order st) k = Ok i ∧
  ∃ lo hi, row_bounds indptr i = Ok (lo, hi) ∧
    Forall2 (λ j lab, neighbor_label indices j st = Ok lab) (range lo hi) labs.

(** What node [i] leaves of the state [st] it was entered in, when its
    neighbours carry the labels [labs]. *)
Definition node_result {rng_state : Type} (n : Z) (st : state rng_state)
    (i : Z) (labs : list Z) (st' : state rng_state) : Prop :=
  let own := labels st !!! Z.to_nat i in
  let w := winner labs own (first_seen labs) in
  labels st' = <[Z.to_nat i := w.2]> (labels st) ∧
  order st' = order st ∧
  nb_labels st' = tallies n [] ∧
  length (lst st') = Z.to_nat n ∧
  changed st' = changed st || bool_decide (occurrences own labs < w.1) ∧
  gen st' = gen st.

(** Every node of a state in which it can be entered reads its row without
    failure. *)
Definition rows_readable (rng_state : Type) (n : Z) (indices indptr : list Z)
    : Prop :=
  ∀ (st : state rng_state) (k : Z), ready n st → 0 ≤ k < n →
    ∃ i labs, node_reads indices indptr st k i labs.

(** ** Fixed points of the update *)

(** Node [i] would keep its label under the assignment [l]: no label is
    carried by more of its neighbours than its own label is. *)
Definition settled (indices indptr l : list Z) (i : Z) : Prop :=
  let labs := neighbor_labels indices indptr l i in
  Forall (λ x, occurrences x labs ≤ occurrences (l !!! Z.to_nat i) labs) labs.

(** An assignment that the update leaves as it is. *)
Definition fixed_point (n : Z) (indices indptr l : list Z) : Prop :=
  Forall (settled indices indptr l) (seqZ 0 n).

#[global] Instance settled_dec indices indptr l i :
  Decision (settled indices indptr l i).
Proof. unfold settled. apply _. Defined.

#[global] Instance fixed_point_dec n indices indptr l :
  Decision (fixed_point n indices indptr l).
Proof. unfold fixed_point. apply _. Defined.

(** ** Undirected graphs *)

(** The sum of [f] over a list of nodes. *)
Definition sumZ (f : Z → Z) (l : list Z) : Z := foldr (λ x s, f x + s) 0 l.

(** The graph is undirected: the row of [i] names [v] as often as the row
    of [v] names [i]. *)
Definition symmetric (n : Z) (indices indptr : list Z) : Prop :=
  Forall (λ i,
    Forall (λ v, occurrences v (neighbors indices indptr i) =
                 occurrences i (neighbors indices indptr v)) (seqZ 0 n))
    (seqZ 0 n).

#[global] Instance symmetric_dec n indices indptr :
  Decision (symmetric n indices indptr).
Proof. unfold symmetric. apply _. Defined.

(** The number of entries of [indices] that join two nodes with the same
    label under the assignment [l]. *)
Definition agreement (n : Z) (indices indptr l : list Z) : Z :=
  sumZ (λ i, occurrences (l !!! Z.to_nat i)
               (neighbor_labels indices indptr l i)) (seqZ 0 n).

(** The graph is complete: the neighbours of a node are all the other
    nodes, each once. *)
Definition complete (n : Z) (indices indptr : list Z) : Prop :=
  Forall (λ i, neighbors indices indptr i ≡ₚ filter (λ v, v ≠ i) (seqZ 0 n))
    (seqZ 0 n).

#[global] Instance complete_dec n indices indptr :
  Decision (complete n indices indptr).
Proof. unfold complete. apply _. Defined.


(** ** More inputs to run the code on *)

(** A graph of three nodes: 0 and 1 are each other's only neighbour, and
    2 has two self-loops. *)
Definition loops_indices : list Z := [1; 0; 2; 2].
Definition loops_indptr : list Z := [0; 1; 2; 4].


(** An object whose seed is not an [unsigned int]. *)
Definition misseeded_heap : heap := __init__ 0%nat (Some (-1)) (Heap ∅ ∅).

(** The complete graph on three nodes. *)
Definition triangle_indices : list Z := [1; 2; 0; 2; 0; 1].
Definition triangle_indptr : list Z := [0; 2; 4; 6].

(** ** Basic facts *)

Section Basics.

Lemma bind_Ok {A B : Type} (m : res A) (f : A → res B) (b : B) :
  m ≫= f = Ok b ↔ ∃ a, m = Ok a ∧ f a = Ok b.
Proof.
  destruct m as [a|e]; simpl; split.
  - eauto.
  - by intros (a' & [= ->] & ?).
  - done.
  - by intros (a' & ? & ?).
Qed.

Lemma wrap_index_nonneg (len j : Z) : 0 ≤ j → wrap_index len j = j.
Proof. unfold wrap_index. intros. by rewrite (proj2 (Z.ltb_ge j 0)). Qed.

Lemma buf_get_Ok (a : list Z) (j x : Z) :
  0 ≤ j → a !! Z.to_nat j = Some x → buf_get a j = Ok x.
Proof.
  intros Hj Hx. unfold buf_get. rewrite wrap_index_nonneg by done.
  rewrite (proj2 (Z.ltb_ge j 0)) by done. by rewrite Hx.
Qed.

Lemma buf_get_lt (a : list Z) (j : Z) :
  0 ≤ j < Z.of_nat (length a) →
  ∃ x, buf_get a j = Ok x ∧ a !! Z.to_nat j = Some x.
Proof.
  intros Hj. destruct (lookup_lt_is_Some_2 a (Z.to_nat j)) as [x Hx]; [lia|].
  exists x. split; [|done]. apply buf_get_Ok; [lia|done].
Qed.

Lemma buf_get_elem (a : list Z) (j x : Z) : buf_get a j = Ok x → x ∈ a.
Proof.
  unfold buf_get. case_match; [done|]. case_match eqn:E; [|done].
  intros [= <-]. by eapply list_elem_of_lookup_2.
Qed.

Lemma buf_get_nonneg_inv (a : list Z) (j x : Z) :
  0 ≤ j → buf_get a j = Ok x → a !! Z.to_nat j = Some x.
Proof.
  intros Hj. unfold buf_get. rewrite wrap_index_nonneg by done.
  case_match; [done|]. case_match; [|done]. by intros [= <-].
Qed.

Lemma buf_get_Err (a : list Z) (j : Z) (e : exn) :
  buf_get a j = Err e → e = IndexError.
Proof. unfold buf_get. repeat case_match; congruence. Qed.

Lemma buf_set_Ok (a : list Z) (j x : Z) :
  0 ≤ j < Z.of_nat (length a) → buf_set a j x = Ok (<[Z.to_nat j := x]> a).
Proof.
  intros Hj. unfold buf_set. rewrite wrap_index_nonneg by lia.
  rewrite (proj2 (Z.ltb_ge j 0)), (proj2 (Z.leb_gt _ j)) by lia. done.
Qed.

Lemma raw_get_Ok (a : list Z) (j x : Z) :
  0 ≤ j → a !! Z.to_nat j = Some x → raw_get a j = Ok x.
Proof.
  intros Hj Hx. unfold raw_get.
  rewrite (proj2 (Z.ltb_ge j 0)) by done. by rewrite Hx.
Qed.

Lemma raw_set_Ok (a : list Z) (j x : Z) :
  0 ≤ j < Z.of_nat (length a) → raw_set a j x = Ok (<[Z.to_nat j := x]> a).
Proof.
  intros Hj. unfold raw_set.
  rewrite (proj2 (Z.ltb_ge j 0)), (proj2 (Z.leb_gt _ j)) by lia. done.
Qed.

Lemma vec_get_Ok (v : vec) (j x : Z) :
  0 ≤ j → v !! Z.to_nat j = Some (Some x) → vec_get v j = Ok x.
Proof.
  intros Hj Hx. unfold vec_get.
  rewrite (proj2 (Z.ltb_ge j 0)) by done. by rewrite Hx.
Qed.

Lemma vec_set_Ok (v : vec) (j x : Z) :
  0 ≤ j < Z.of_nat (length v) →
  vec_set v j x = Ok (<[Z.to_nat j := Some x]> v).
Proof.
  intros Hj. unfold vec_set.
  rewrite (proj2 (Z.ltb_ge j 0)), (proj2 (Z.leb_gt _ j)) by lia. done.
Qed.

Lemma forM_app {S : Type} (body : Z → S → res S) (xs ys : list Z) (s : S) :
  forM body (xs ++ ys) s = forM body xs s ≫= forM body ys.
Proof.
  revert s. induction xs as [|x xs IH]; intros s; simpl; [done|].
  destruct (body x s); simpl; [apply IH|done].
Qed.

(** A loop keeps what each of its iterations keeps. *)
Lemma forM_invariant {S : Type} (I : S → Prop) (E : exn → Prop)
    (body : Z → S → res S) (xs : list Z) (s : S) :
  (∀ x s0, x ∈ xs → I s0 →
     match body x s0 with Ok s' => I s' | Err e => E e end) →
  I s →
  match forM body xs s with Ok s' => I s' | Err e => E e end.
Proof.
  revert s. induction xs as [|x xs IH]; intros s Hbody Hs; simpl; [done|].
  pose proof (Hbody x s ltac:(by left) Hs) as Hx.
  destruct (body x s) as [s'|e]; [|done].
  apply IH; [|done]. intros y s0 Hy. apply Hbody. by right.
Qed.

Lemma forM_trace_Forall {S : Type} (I P : S → Prop)
    (body : Z → S → res S) (inner : Z → S → list S) (xs : list Z) (s : S) :
  (∀ x s0, x ∈ xs → I s0 →
     Forall P (inner x s0) ∧ ∀ s', body x s0 = Ok s' → I s') →
  I s → Forall P (forM_trace body inner xs s).
Proof.
  revert s. induction xs as [|x xs IH]; intros s Hbody Hs; simpl; [done|].
  destruct (Hbody x s ltac:(by left) Hs) as [Hin Hnext].
  apply Forall_app. split; [done|].
  destruct (body x s) as [s'|e]; [|done].
  apply IH; [|by apply Hnext]. intros y s0 Hy. apply Hbody. by right.
Qed.

(** A state met after an iteration is the state a prefix of the loop
    ends in. *)
Lemma forM_trace_after {T : Type} (body : Z → T → res T) (xs : list Z)
    (s s' : T) :
  s' ∈ forM_trace body (after body) xs s →
  ∃ p, (p ≤ length xs)%nat ∧ forM body (take p xs) s = Ok s'.
Proof.
  revert s. induction xs as [|x xs IH]; intros s; simpl; [by intros ?%elem_of_nil|].
  unfold after. destruct (body x s) as [s1|e] eqn:Hx; simpl.
  - intros [->|Hin]%elem_of_cons.
    + exists 1%nat. split; [lia|]. simpl. by rewrite Hx.
    + destruct (IH _ Hin) as (p & Hp & Hrun). exists (S p).
      split; [lia|]. simpl. by rewrite Hx.
  - by intros ?%elem_of_nil.
Qed.

Lemma range_nil (lo hi : Z) : hi ≤ lo → range lo hi = [].
Proof. intros. unfold range. apply seqZ_nil. lia. Qed.

Lemma range_cons (lo hi : Z) : lo < hi → range lo hi = lo :: range (lo + 1) hi.
Proof.
  intros. unfold range. rewrite seqZ_cons by lia.
  f_equal. f_equal; lia.
Qed.

Lemma range_snoc (lo hi : Z) :
  lo ≤ hi → range lo (hi + 1) = range lo hi ++ [hi].
Proof.
  intros. unfold range.
  replace (hi + 1 - lo) with ((hi - lo) + 1) by lia.
  rewrite seqZ_app by lia. f_equal.
  rewrite seqZ_cons, seqZ_nil by lia. f_equal. lia.
Qed.

Lemma take_range (lo hi : Z) (p : nat) :
  Z.of_nat p ≤ hi - lo → take p (range lo hi) = range lo (lo + Z.of_nat p).
Proof.
  intros Hp. unfold range.
  replace (hi - lo) with (Z.of_nat p + (hi - lo - Z.of_nat p)) by lia.
  rewrite seqZ_app by lia.
  rewrite take_app_length' by (rewrite length_seqZ; lia).
  f_equal. lia.
Qed.

Lemma length_range (lo hi : Z) : length (range lo hi) = Z.to_nat (hi - lo).
Proof. unfold range. apply length_seqZ. Qed.

Lemma elem_of_range (lo hi k : Z) : k ∈ range lo hi ↔ lo ≤ k < hi.
Proof. unfold range. rewrite elem_of_seqZ. lia. Qed.

Lemma range_down_nil (start stop : Z) : start ≤ stop → range_down start stop = [].
Proof. intros. unfold range_down. rewrite seqZ_nil by lia. done. Qed.

Lemma range_down_cons (start stop : Z) :
  stop < start → range_down start stop = start :: range_down (start - 1) stop.
Proof.
  intros. unfold range_down.
  replace (start - stop) with ((start - 1 - stop) + 1) by lia.
  rewrite seqZ_app by lia. rewrite reverse_app.
  rewrite seqZ_cons, seqZ_nil by lia. simpl. f_equal. lia.
Qed.

End Basics.

(** ** shuffle *)

Section Shuffle.

Context {rng_state : Type}.
Variable rand : rng_state → Z * rng_state.
Hypothesis rand_nonneg : ∀ g, 0 ≤ (rand g).1.

Lemma pick_range (r i : Z) : 0 ≤ r → 0 ≤ i → 0 ≤ pick r i ≤ i.
Proof.
  intros Hr Hi. unfold pick.
  pose proof (Z.mod_pos_bound r (i + 1)). lia.
Qed.

Lemma pick_mod (r i : Z) : 0 ≤ r → 0 ≤ i → pick r i = r mod (i + 1).
Proof. done. Qed.

Lemma swap_head_Permutation (l : list Z) (j : nat) (x y : Z) :
  l !! j = Some y → y :: <[j := x]> l ≡ₚ x :: l.
Proof.
  revert j. induction l as [|z l IH]; intros [|j] Hj; simplify_eq/=.
  - apply perm_swap.
  - rewrite (perm_swap z y), (perm_swap z x). constructor. by apply IH.
Qed.

Lemma swap_Permutation (l : list Z) (i j : nat) : swap l i j ≡ₚ l.
Proof.
  unfold swap. destruct (l !! i) as [x|] eqn:Hi; [|done].
  destruct (l !! j) as [y|] eqn:Hj; [|done].
  revert i j Hi Hj. induction l as [|z l IH]; intros [|i] [|j] Hi Hj;
    simplify_eq/=.
  - done.
  - by apply swap_head_Permutation.
  - by apply swap_head_Permutation.
  - constructor. by apply IH.
Qed.

Lemma length_swap (l : list Z) (i j : nat) : length (swap l i j) = length l.
Proof. unfold swap. repeat case_match; by rewrite ?length_insert. Qed.

(** One iteration of the loop of [shuffle] is one swap of the
    specification. *)
Lemma shuffle_step_swap (i : Z) (arr : list Z) (g : rng_state) :
  0 < i < Z.of_nat (length arr) →
  shuffle_step rand i (arr, g) =
    Ok (swap arr (Z.to_nat i) (Z.to_nat ((rand g).1 mod (i + 1))), (rand g).2).
Proof.
  intros Hi. unfold shuffle_step. pose proof (rand_nonneg g) as Hr.
  destruct (rand g) as [r g'] eqn:Hg; simpl in *.
  pose proof (pick_range r i Hr ltac:(lia)) as Hj.
  rewrite <- (pick_mod r i) by lia. set (j := pick r i) in *.
  destruct (lookup_lt_is_Some_2 arr (Z.to_nat i)) as [x Hx]; [lia|].
  destruct (lookup_lt_is_Some_2 arr (Z.to_nat j)) as [y Hy]; [lia|].
  rewrite (raw_get_Ok arr i x) by (done || lia). simpl.
  rewrite (raw_get_Ok arr j y) by (done || lia). simpl.
  rewrite raw_set_Ok by lia. simpl.
  rewrite raw_set_Ok by (rewrite length_insert; lia). simpl.
  unfold swap. by rewrite Hx, Hy.
Qed.

Lemma shuffle_loop (i : nat) (arr : list Z) (g : rng_state) :
  (i < length arr)%nat →
  forM (shuffle_step rand) (range_down (Z.of_nat i) 0) (arr, g) =
    Ok (fisher_yates rand i arr g).
Proof.
  revert arr g. induction i as [|i IH]; intros arr g Hi.
  - by rewrite range_down_nil.
  - rewrite range_down_cons by lia. cbn [forM].
    rewrite shuffle_step_swap by lia.
    replace (Z.of_nat (S i) - 1) with (Z.of_nat i) by lia.
    rewrite IH by (rewrite length_swap; lia).
    cbn [fisher_yates]. destruct (rand g) as [r g'] eqn:Hg. simpl.
    by rewrite Nat2Z.id.
Qed.

Lemma fisher_yates_Permutation (i : nat) (arr : list Z) (g : rng_state) :
  (fisher_yates rand i arr g).1 ≡ₚ arr.
Proof.
  revert arr g. induction i as [|i IH]; intros arr g; simpl; [done|].
  destruct (rand g) as [r g']. rewrite IH. apply swap_Permutation.
Qed.

Lemma fisher_yates_draws (i : nat) (arr : list Z) (g : rng_state) :
  (fisher_yates rand i arr g).2 = draws rand i g.
Proof.
  revert arr g. induction i as [|i IH]; intros arr g; [done|].
  cbn [fisher_yates]. destruct (rand g) as [r g'] eqn:Hg. rewrite IH.
  unfold draws. rewrite !Nat.iter_succ_r. by rewrite Hg.
Qed.

(** [shuffle] is the traversal of the specification. *)
Lemma shuffle_fisher_yates (arr : list Z) (n : Z) (g : rng_state) :
  n ≤ Z.of_nat (length arr) →
  shuffle rand arr n g = Ok (fisher_yates rand (Z.to_nat (n - 1)) arr g).
Proof.
  intros Hn. unfold shuffle. destruct (decide (n ≤ 1)) as [Hle|Hgt].
  - rewrite range_down_nil by lia.
    replace (Z.to_nat (n - 1)) with 0%nat by lia. done.
  - replace (n - 1) with (Z.of_nat (Z.to_nat (n - 1))) at 1 by lia.
    apply shuffle_loop. lia.
Qed.

End Shuffle.

(** ** Tallies and first-seen order *)

Section Tallies.

Implicit Types (l seen labs : list Z) (x y lab n : Z).

Lemma occurrences_nil x : occurrences x [] = 0.
Proof. done. Qed.

Lemma occurrences_snoc x l y :
  occurrences x (l ++ [y]) = occurrences x l + (if decide (y = x) then 1 else 0).
Proof.
  unfold occurrences. rewrite filter_app, length_app.
  rewrite filter_cons, filter_nil. case_decide; simpl; lia.
Qed.

Lemma occurrences_cons x l y :
  occurrences x (y :: l) = (if decide (y = x) then 1 else 0) + occurrences x l.
Proof.
  unfold occurrences. rewrite filter_cons. case_decide; simpl; lia.
Qed.

Lemma occurrences_nonneg x l : 0 ≤ occurrences x l.
Proof. unfold occurrences. lia. Qed.

Lemma occurrences_pos x l : 0 < occurrences x l ↔ x ∈ l.
Proof.
  induction l as [|y l IH]; [rewrite occurrences_nil; set_solver by lia|].
  rewrite occurrences_cons, elem_of_cons. pose proof (occurrences_nonneg x l).
  case_decide; subst; [intuition lia|].
  rewrite Z.add_0_l, IH. intuition congruence.
Qed.

Lemma occurrences_zero x l : occurrences x l = 0 ↔ x ∉ l.
Proof.
  rewrite <- occurrences_pos. pose proof (occurrences_nonneg x l). lia.
Qed.

Lemma occurrences_le_length x l : occurrences x l ≤ Z.of_nat (length l).
Proof. unfold occurrences. pose proof (length_filter (λ y, y = x) l). lia. Qed.

Lemma first_seen_snoc l x : first_seen (l ++ [x]) = see (first_seen l) x.
Proof. unfold first_seen. by rewrite foldl_snoc. Qed.

Lemma elem_of_first_seen l x : x ∈ first_seen l ↔ x ∈ l.
Proof.
  revert x. induction l as [|y l IH] using rev_ind; intros x; [done|].
  rewrite first_seen_snoc, elem_of_app, list_elem_of_singleton. unfold see.
  case_decide as Hy.
  - rewrite IH. split; [by left|]. intros [?| ->]; [done|by apply IH].
  - rewrite elem_of_app, list_elem_of_singleton, IH. done.
Qed.

Lemma NoDup_first_seen l : NoDup (first_seen l).
Proof.
  induction l as [|y l IH] using rev_ind; [constructor|].
  rewrite first_seen_snoc. unfold see. case_decide as Hy; [done|].
  apply NoDup_app. split_and!; [done| |apply NoDup_singleton].
  intros x Hx ->%list_elem_of_singleton. done.
Qed.

(** The scratch list never holds more than [n] labels. *)
Lemma length_first_seen n l :
  0 ≤ n → Forall (λ x, 0 ≤ x < n) l →
  Z.of_nat (length (first_seen l)) ≤ n.
Proof.
  intros Hn Hl.
  assert (first_seen l ⊆+ seqZ 0 n) as Hsub.
  { apply NoDup_submseteq; [apply NoDup_first_seen|].
    intros x Hx. apply (proj1 (elem_of_first_seen l x)) in Hx.
    apply elem_of_seqZ. rewrite Forall_forall in Hl. specialize (Hl x Hx).
    lia. }
  apply submseteq_length in Hsub. rewrite length_seqZ in Hsub. lia.
Qed.

Lemma length_tallies n l : length (tallies n l) = Z.to_nat n.
Proof. unfold tallies. by rewrite length_fmap, length_seqZ. Qed.

Lemma lookup_tallies n l x :
  0 ≤ x < n → tallies n l !! Z.to_nat x = Some (Some (occurrences x l)).
Proof.
  intros Hx. unfold tallies. rewrite list_lookup_fmap.
  rewrite lookup_seqZ_lt by lia. simpl. do 3 f_equal. lia.
Qed.

Lemma tallies_snoc n l x :
  0 ≤ x < n →
  <[Z.to_nat x := Some (occurrences x l + 1)]> (tallies n l) = tallies n (l ++ [x]).
Proof.
  intros Hx. apply list_eq. intros k.
  destruct (decide (k < Z.to_nat n)%nat) as [Hk|Hk].
  - replace k with (Z.to_nat (Z.of_nat k)) by lia.
    rewrite (lookup_tallies n (l ++ [x])) by lia.
    rewrite occurrences_snoc.
    destruct (decide (x = Z.of_nat k)) as [->|Hne].
    + by rewrite list_lookup_insert_eq by (rewrite length_tallies; lia).
    + rewrite list_lookup_insert_ne by lia. rewrite lookup_tallies by lia.
      do 2 f_equal. lia.
  - rewrite !(proj2 (lookup_ge_None _ _)); [done| |].
    + rewrite length_tallies. lia.
    + rewrite length_insert, length_tallies. lia.
Qed.

Lemma length_zero_out (v : vec) (ls : list Z) :
  length (zero_out v ls) = length v.
Proof.
  revert v. induction ls as [|x ls IH]; intros v; [done|].
  simpl. fold (zero_out (<[Z.to_nat x := Some 0]> v) ls).
  by rewrite IH, length_insert.
Qed.

Lemma zero_out_snoc (v : vec) (ls : list Z) x :
  zero_out v (ls ++ [x]) = <[Z.to_nat x := Some 0]> (zero_out v ls).
Proof. unfold zero_out. by rewrite foldl_snoc. Qed.

Lemma lookup_zero_out (v : vec) (ls : list Z) x :
  Forall (λ y, 0 ≤ y) ls → 0 ≤ x →
  zero_out v ls !! Z.to_nat x =
    if decide (x ∈ ls) then (λ _, Some 0) <$> v !! Z.to_nat x
    else v !! Z.to_nat x.
Proof.
  intros Hls Hx. induction ls as [|y ls IH] using rev_ind.
  { rewrite decide_False by set_solver. done. }
  rewrite Forall_app, Forall_singleton in Hls. destruct Hls as [Hls Hy].
  rewrite zero_out_snoc. specialize (IH Hls).
  destruct (decide (y = x)) as [->|Hne].
  - rewrite decide_True by set_solver.
    destruct (v !! Z.to_nat x) as [c|] eqn:Hv; simpl.
    + apply list_lookup_insert_eq. rewrite length_zero_out.
      by eapply lookup_lt_Some.
    + apply lookup_ge_None. rewrite length_insert, length_zero_out.
      by apply lookup_ge_None.
  - rewrite list_lookup_insert_ne by lia. rewrite IH.
    destruct (decide (x ∈ ls)).
    + rewrite decide_True by set_solver. done.
    + rewrite decide_False by set_solver. done.
Qed.

(** Resetting the recorded labels restores the all-zero table. *)
Lemma zero_out_tallies n l :
  Forall (λ x, 0 ≤ x < n) l →
  zero_out (tallies n l) (first_seen l) = tallies n [].
Proof.
  intros Hl. apply list_eq. intros k.
  destruct (decide (k < Z.to_nat n)%nat) as [Hk|Hk].
  - replace k with (Z.to_nat (Z.of_nat k)) by lia.
    rewrite lookup_zero_out; [|
      apply Forall_forall; intros y Hy;
      apply (proj1 (elem_of_first_seen l y)) in Hy;
      rewrite Forall_forall in Hl; specialize (Hl y Hy); lia | lia].
    rewrite !lookup_tallies by lia. rewrite occurrences_nil.
    case_decide as Hin; [done|].
    rewrite elem_of_first_seen in Hin. apply occurrences_zero in Hin.
    by rewrite Hin.
  - rewrite !(proj2 (lookup_ge_None _ _)); [done| |].
    + rewrite length_tallies. lia.
    + rewrite length_zero_out, length_tallies. lia.
Qed.

(** ** The winner of a node *)

Lemma winner_snoc l own tried lab :
  winner l own (tried ++ [lab]) = challenge l (winner l own tried) lab.
Proof. unfold winner. by rewrite foldl_snoc. Qed.

Lemma winner_ge l own tried : occurrences own l ≤ (winner l own tried).1.
Proof.
  induction tried as [|lab tried IH] using rev_ind; [done|].
  rewrite winner_snoc. unfold challenge. case_match eqn:E; simpl; [|done].
  apply Z.ltb_lt in E. lia.
Qed.

Lemma winner_elem l own tried :
  (winner l own tried).2 = own ∨ (winner l own tried).2 ∈ tried.
Proof.
  induction tried as [|lab tried IH] using rev_ind; [by left|].
  rewrite winner_snoc. unfold challenge. case_match; simpl; set_solver.
Qed.

Lemma winner_tally l own tried :
  (winner l own tried).1 = occurrences (winner l own tried).2 l.
Proof.
  induction tried as [|lab tried IH] using rev_ind; [done|].
  rewrite winner_snoc. unfold challenge. by case_match.
Qed.

(** The winner is the own label unless a recorded label has a strictly
    greater tally; then it is the first recorded label whose tally is the
    greatest. *)
Lemma winner_spec l own touched :
  let w := winner l own touched in
  (∀ x, x ∈ touched → occurrences x l ≤ w.1) ∧
  (w.2 = own ∧ w.1 = occurrences own l ∨
   occurrences own l < w.1 ∧
   ∃ pre post, touched = pre ++ w.2 :: post ∧
     ∀ x, x ∈ pre → occurrences x l < w.1).
Proof.
  induction touched as [|lab touched IH] using rev_ind.
  { simpl. split; [by intros x ?%elem_of_nil|by left]. }
  rewrite winner_snoc. simpl in IH. destruct IH as [Hmax Hcase].
  unfold challenge.
  destruct (Z.ltb_spec (winner l own touched).1 (occurrences lab l))
    as [Hlt|Hge]; simpl.
  - split.
    + intros x [Hx| ->%list_elem_of_singleton]%elem_of_app; [|lia].
      specialize (Hmax x Hx). lia.
    + right. pose proof (winner_ge l own touched). split; [lia|].
      exists touched, []. split; [done|]. intros x Hx.
      specialize (Hmax x Hx). lia.
  - split.
    + intros x [Hx| ->%list_elem_of_singleton]%elem_of_app; [by apply Hmax|lia].
    + destruct Hcase as [?|(Hgt & pre & post & Heq & Hpre)]; [by left|].
      right. split; [done|]. exists pre, (post ++ [lab]).
      split; [|done]. rewrite Heq at 1. by rewrite <- app_assoc.
Qed.

End Tallies.

(** ** One node *)

Ltac setters :=
  unfold set_labels, set_order, set_nb_labels, set_lst, set_list_size,
    set_nb_lab_max, set_changed, set_gen in *;
  simpl in *.

Section Node.

Context {rng_state : Type}.
Variables (n : Z) (indices indptr : list Z).
Implicit Types (st : state rng_state) (seen labs tried : list Z).

Lemma labels_ok_elem (l : list Z) (x : Z) :
  labels_ok n l → x ∈ l → 0 ≤ x < n.
Proof. intros [_ Hl] Hx. rewrite Forall_forall in Hl. by apply Hl. Qed.

Lemma labels_ok_insert (l : list Z) (i : nat) (x : Z) :
  labels_ok n l → 0 ≤ x < n → labels_ok n (<[i := x]> l).
Proof.
  intros [Hlen Hl] Hx. split; [by rewrite length_insert|].
  apply Forall_insert; done.
Qed.

Lemma tallied_start st :
  ready n st → tallied n st [] (set_list_size 0 st).
Proof.
  intros (Hn & Hl & Ho & Hnb & Hlen). split_and!; [|done|done].
  unfold set_list_size. simpl. by rewrite Hnb.
Qed.

(** One step of the tally loop reads one label and records it. *)
Lemma tally_step_spec st0 seen st (j : Z) :
  0 ≤ n → labels_ok n (labels st0) → Forall (λ x, 0 ≤ x < n) seen →
  tallied n st0 seen st →
  match neighbor_label indices j st0 with
  | Ok lab =>
      0 ≤ lab < n ∧
      ∃ st', tally_step indices j st = Ok st' ∧ tallied n st0 (seen ++ [lab]) st'
  | Err e => tally_step indices j st = Err e
  end.
Proof.
  intros Hn Hl Hseen (Hst & Hlen & Hscr).
  destruct st as [l o nb ls sz mx ch g]. unfold scratch in Hscr.
  simpl in Hlen, Hscr. injection Hst as -> -> -> -> -> -> ->.
  unfold tally_step, neighbor_label. simpl.
  destruct (buf_get indices j) as [v|e]; simpl; [|done].
  destruct (buf_get (labels st0) v) as [lab|e] eqn:Hlab; simpl; [|done].
  assert (0 ≤ lab < n) as Hrange
    by (eapply labels_ok_elem; [done|by eapply buf_get_elem]).
  split; [done|].
  rewrite (vec_get_Ok _ lab (occurrences lab seen))
    by (lia || by apply lookup_tallies).
  simpl. pose proof (first_seen_snoc seen lab) as Hfs. unfold see in Hfs.
  destruct (Z.eqb_spec (occurrences lab seen) 0) as [Hz|Hnz].
  - assert (lab ∉ first_seen seen) as Hnew
      by (rewrite elem_of_first_seen; by apply occurrences_zero).
    rewrite decide_False in Hfs by done.
    assert (Z.of_nat (length (first_seen (seen ++ [lab]))) ≤ n) as Hpigeon.
    { apply length_first_seen; [done|].
      apply Forall_app. split; [done|]. by apply Forall_singleton. }
    rewrite Hfs, length_app in Hpigeon. simpl in Hpigeon.
    rewrite vec_set_Ok by lia. simpl.
    rewrite vec_set_Ok by (rewrite length_tallies; lia). simpl.
    eexists. split; [done|]. split_and!; setters.
    + rewrite <- tallies_snoc by done. rewrite Hfs, length_app. simpl.
      f_equal. lia.
    + by rewrite length_insert.
    + unfold scratch. simpl. rewrite Hfs, fmap_app. simpl.
      replace (Z.to_nat (Z.of_nat (length (first_seen seen)) + 1))
        with (S (length (first_seen seen))) by lia.
      rewrite Nat2Z.id in *.
      erewrite take_S_r; [|apply list_lookup_insert_eq; lia].
      by rewrite take_insert_ge, Hscr by lia.
  - assert (lab ∈ first_seen seen) as Hold.
    { rewrite elem_of_first_seen. apply occurrences_pos.
      pose proof (occurrences_nonneg lab seen). lia. }
    rewrite decide_True in Hfs by done. simpl.
    rewrite vec_set_Ok by (rewrite length_tallies; lia). simpl.
    eexists. split; [done|]. split_and!; setters; [|done|].
    + rewrite <- tallies_snoc by done. by rewrite Hfs.
    + unfold scratch. simpl. by rewrite Hfs.
Qed.

(** The tally loop: it fails exactly when a read of its row fails, with
    that failure, and otherwise holds the tallies of the labels it read. *)
Lemma tally_loop st0 (js : list Z) seen st :
  0 ≤ n → labels_ok n (labels st0) → Forall (λ x, 0 ≤ x < n) seen →
  tallied n st0 seen st →
  match forM (tally_step indices) js st with
  | Ok st' =>
      ∃ labs,
        Forall2 (λ j lab, neighbor_label indices j st0 = Ok lab) js labs ∧
        Forall (λ x, 0 ≤ x < n) labs ∧
        tallied n st0 (seen ++ labs) st'
  | Err e => Exists (λ j, neighbor_label indices j st0 = Err e) js
  end.
Proof.
  intros Hn Hl. revert seen st.
  induction js as [|j js IH]; intros seen st Hseen Ht; simpl.
  - exists []. rewrite app_nil_r. split_and!; [constructor|constructor|done].
  - pose proof (tally_step_spec st0 seen st j Hn Hl Hseen Ht) as Hstep.
    destruct (neighbor_label indices j st0) as [lab|e] eqn:Hlab.
    + destruct Hstep as (Hrange & st' & -> & Ht').
      assert (Forall (λ x, 0 ≤ x < n) (seen ++ [lab])) as Hseen'.
      { apply Forall_app. split; [done|]. by apply Forall_singleton. }
      specialize (IH _ _ Hseen' Ht').
      destruct (forM (tally_step indices) js st') as [st''|e].
      * destruct IH as (labs & Hreads & Hlabs & Ht'').
        exists (lab :: labs). rewrite <- app_assoc in Ht''.
        split_and!; [by constructor|by constructor|done].
      * by apply Exists_cons_tl.
    + rewrite Hstep. by apply Exists_cons_hd.
Qed.

Lemma tallied_fields st0 seen st :
  tallied n st0 seen st →
  labels st = labels st0 ∧ order st = order st0 ∧
  nb_labels st = tallies n seen ∧
  list_size st = Z.of_nat (length (first_seen seen)) ∧
  nb_lab_max st = nb_lab_max st0 ∧ changed st = changed st0 ∧
  gen st = gen st0.
Proof.
  intros (Hst & _ & _). destruct st as [l o nb ls sz mx ch g].
  by injection Hst as -> -> -> -> -> -> ->.
Qed.

Lemma tallied_lookup st0 seen st (p : nat) (lab : Z) :
  tallied n st0 seen st → first_seen seen !! p = Some lab →
  lst st !! p = Some (Some lab).
Proof.
  intros Ht Hp. pose proof (tallied_fields _ _ _ Ht) as (_&_&_&Hsz&_).
  destruct Ht as (_ & _ & Hscr). unfold scratch in Hscr.
  rewrite Hsz, Nat2Z.id in Hscr.
  rewrite <- (lookup_take_lt _ (length (first_seen seen)))
    by (by eapply lookup_lt_Some).
  by rewrite Hscr, list_lookup_fmap, Hp.
Qed.

Lemma NoDup_lookup_not_in_take (l : list Z) (p : nat) (x : Z) :
  NoDup l → l !! p = Some x → x ∉ take p l.
Proof.
  intros Hnd Hp. rewrite <- (take_drop_middle l p x Hp) in Hnd.
  apply NoDup_app in Hnd as (_ & Hnd & _). intros Hin.
  apply (Hnd x Hin). by left.
Qed.

(** One step of the selection loop compares one recorded label with the
    best so far and resets its tally. *)
Lemma select_step_spec st0 labs st1 (i : Z) (p : nat) (lab : Z) st :
  0 ≤ n → labels_ok n (labels st0) → 0 ≤ i < n →
  Forall (λ x, 0 ≤ x < n) labs →
  tallied n st0 labs st1 →
  first_seen labs !! p = Some lab →
  selected n i st1 labs (take p (first_seen labs)) st →
  ∃ st', select_step i (Z.of_nat p) st = Ok st' ∧
         selected n i st1 labs (take (S p) (first_seen labs)) st'.
Proof.
  intros Hn Hl Hi Hlabs Ht Hp Hsel.
  pose proof (tallied_fields _ _ _ Ht) as (Hl1 & _).
  pose proof (tallied_lookup _ _ _ _ _ Ht Hp) as Hcell.
  assert (0 ≤ lab < n) as Hlab.
  { rewrite Forall_forall in Hlabs. apply Hlabs.
    apply (proj1 (elem_of_first_seen labs lab)).
    by eapply list_elem_of_lookup_2. }
  unfold selected in *. rewrite (take_S_r _ _ _ Hp), winner_snoc.
  set (own := labels st1 !!! Z.to_nat i) in *.
  set (w := winner labs own (take p (first_seen labs))) in *.
  subst st. unfold select_step. simpl.
  rewrite (vec_get_Ok _ _ lab) by (lia || by rewrite Nat2Z.id). simpl.
  rewrite (vec_get_Ok _ _ (occurrences lab labs)); [|lia|]; last first.
  { rewrite lookup_zero_out; [| |lia].
    - rewrite decide_False; [by apply lookup_tallies|].
      apply NoDup_lookup_not_in_take; [apply NoDup_first_seen|done].
    - apply Forall_forall. intros y Hy. apply subseteq_take in Hy.
      apply (proj1 (elem_of_first_seen labs y)) in Hy.
      rewrite Forall_forall in Hlabs. specialize (Hlabs y Hy). lia. }
  simpl. unfold challenge.
  assert (Z.of_nat (length (labels st1)) = n) as Hlen1.
  { rewrite Hl1. destruct Hl as [-> _]. lia. }
  destruct (Z.ltb_spec w.1 (occurrences lab labs)) as [Hlt|Hge]; simpl.
  - rewrite buf_set_Ok by (rewrite length_insert; lia). simpl.
    rewrite vec_set_Ok
      by (setters; rewrite length_zero_out, length_tallies; lia).
    eexists. split; [done|]. setters.
    rewrite list_insert_insert_eq, zero_out_snoc. f_equal.
    pose proof (winner_ge labs own (take p (first_seen labs))).
    rewrite bool_decide_true by (fold w in H; lia).
    by rewrite orb_true_r.
  - rewrite vec_set_Ok
      by (setters; rewrite length_zero_out, length_tallies; lia).
    eexists. split; [done|]. setters. by rewrite zero_out_snoc.
Qed.

Lemma selected_start st0 labs st1 (i own : Z) :
  tallied n st0 labs st1 → 0 ≤ i →
  labels st1 !! Z.to_nat i = Some own →
  selected n i st1 labs [] (set_nb_lab_max (occurrences own labs) st1).
Proof.
  intros Ht Hi Hown. pose proof (tallied_fields _ _ _ Ht) as (_&_&Hnb&_).
  unfold selected. rewrite (list_lookup_total_correct _ _ _ Hown).
  unfold winner. simpl. rewrite list_insert_id by done.
  rewrite bool_decide_false by lia. rewrite orb_false_r.
  destruct st1. setters. by subst.
Qed.

(** The selection loop up to its [p]-th recorded label. *)
Lemma select_loop st0 labs st1 (i own : Z) (p : nat) :
  0 ≤ n → labels_ok n (labels st0) → 0 ≤ i < n →
  Forall (λ x, 0 ≤ x < n) labs →
  tallied n st0 labs st1 →
  labels st1 !! Z.to_nat i = Some own →
  (p ≤ length (first_seen labs))%nat →
  ∃ st, forM (select_step i) (range 0 (Z.of_nat p))
          (set_nb_lab_max (occurrences own labs) st1) = Ok st ∧
        selected n i st1 labs (take p (first_seen labs)) st.
Proof.
  intros Hn Hl Hi Hlabs Ht Hown. induction p as [|p IH]; intros Hp.
  - rewrite range_nil by lia. eexists. split; [done|].
    apply (selected_start st0); [done|lia|done].
  - destruct IH as (st & Hrun & Hsel); [lia|].
    destruct (lookup_lt_is_Some_2 (first_seen labs) p) as [lab Hlab]; [lia|].
    destruct (select_step_spec st0 labs st1 i p lab st) as (st' & Hstep & Hsel');
      try done.
    exists st'. split; [|done].
    replace (Z.of_nat (S p)) with (Z.of_nat p + 1) by lia.
    rewrite range_snoc, forM_app, Hrun by lia. simpl. by rewrite Hstep.
Qed.

Lemma neighbor_label_Err (j : Z) st (e : exn) :
  neighbor_label indices j st = Err e → e = IndexError.
Proof.
  unfold neighbor_label. destruct (buf_get indices j) eqn:Hv; simpl.
  - apply buf_get_Err.
  - intros [= <-]. by eapply buf_get_Err.
Qed.

Lemma row_bounds_Err (i : Z) (e : exn) :
  row_bounds indptr i = Err e → e = IndexError.
Proof.
  unfold row_bounds. destruct (buf_get indptr i) eqn:Hlo; simpl.
  - destruct (buf_get indptr (i + 1)) eqn:Hhi; simpl; [done|].
    intros [= <-]. by eapply buf_get_Err.
  - intros [= <-]. by eapply buf_get_Err.
Qed.

(** What a node does to the state it is entered in: it fails exactly when
    a read of [order], [indptr], [indices] or [labels] fails, with
    [IndexError]; otherwise it installs the winner among the labels read
    and leaves a state in which the next node can be entered. *)
Lemma node_step_spec st (k : Z) :
  ready n st →
  match node_step indices indptr k st with
  | Ok st' =>
      ∃ i labs,
        node_reads indices indptr st k i labs ∧ 0 ≤ i < n ∧
        Forall (λ x, 0 ≤ x < n) labs ∧ node_result n st i labs st'
  | Err e => e = IndexError ∧ ∀ i labs, ¬ node_reads indices indptr st k i labs
  end.
Proof.
  intros Hr. pose proof Hr as (Hn & Hl & Ho & Hnb & Hlen).
  unfold node_step, node_enter.
  destruct (buf_get (order st) k) as [i|e] eqn:Hk; simpl; last first.
  { split; [by eapply buf_get_Err|]. intros i labs (Hread & _). congruence. }
  assert (0 ≤ i < n) as Hi
    by (eapply labels_ok_elem; [done|by eapply buf_get_elem]).
  unfold count_neighbors.
  destruct (row_bounds indptr i) as [[lo hi]|e] eqn:Hrow; simpl; last first.
  { split; [by eapply row_bounds_Err|].
    intros i' labs (Hread & lo & hi & Hrow' & _). congruence. }
  pose proof (tally_loop st (range lo hi) [] (set_list_size 0 st) Hn Hl
                (Forall_nil_2 _) (tallied_start st Hr)) as Hloop.
  destruct (forM (tally_step indices) (range lo hi) (set_list_size 0 st))
    as [st1|e] eqn:Hcount; simpl; last first.
  { apply Exists_exists in Hloop as (j & Hj & Hfail). split.
    - by eapply neighbor_label_Err.
    - intros i' labs (Hread & lo' & hi' & Hrow' & Hreads).
      assert (i' = i) as -> by congruence.
      assert (lo' = lo ∧ hi' = hi) as [-> ->] by (split; congruence).
      apply list_elem_of_lookup_1 in Hj as [p Hp].
      destruct (Forall2_lookup_l _ _ _ _ _ Hreads Hp) as (lab & _ & Hok).
      congruence. }
  destruct Hloop as (labs & Hreads & Hlabs & Ht). simpl in Ht.
  pose proof (tallied_fields _ _ _ Ht) as (Hl1 & Ho1 & Hnb1 & Hsz1 & _ & Hch1 & Hg1).
  destruct (buf_get_lt (labels st1) i) as (own & Hown & Hown').
  { rewrite Hl1. destruct Hl as [-> _]. lia. }
  assert (0 ≤ own < n) as Hown_range.
  { eapply labels_ok_elem; [exact Hl|].
    rewrite <- Hl1. by eapply list_elem_of_lookup_2. }
  unfold select_init. rewrite Hown. simpl.
  rewrite (vec_get_Ok _ _ (occurrences own labs))
    by (lia || rewrite Hnb1; by apply lookup_tallies).
  simpl.
  destruct (select_loop st labs st1 i own (length (first_seen labs)))
    as (st' & Hrun & Hsel); try done.
  rewrite Hsz1, Hrun. exists i, labs.
  split; [split; [done|by exists lo, hi]|].
  split; [done|]. split; [done|].
  unfold selected in Hsel. rewrite firstn_all in Hsel.
  rewrite (list_lookup_total_correct _ _ _ Hown') in Hsel.
  unfold node_result. rewrite Hl1 in Hown'.
  rewrite (list_lookup_total_correct _ _ _ Hown').
  subst st'. simpl. rewrite Hl1, Ho1, Hch1, Hg1.
  destruct Ht as (_ & Hlen1 & _).
  split_and!; try done. by apply zero_out_tallies.
Qed.

(** A node leaves a state in which the next one can be entered. *)
Lemma node_result_ready st (i : Z) labs st' :
  ready n st → 0 ≤ i < n → Forall (λ x, 0 ≤ x < n) labs →
  node_result n st i labs st' → ready n st'.
Proof.
  intros (Hn & Hl & Ho & Hnb & Hlen) Hi Hlabs (Hl' & Ho' & Hnb' & Hlen' & _).
  split_and!; try done; [|by rewrite Ho'].
  rewrite Hl'. apply labels_ok_insert; [done|].
  destruct (winner_elem labs (labels st !!! Z.to_nat i) (first_seen labs))
    as [-> | Hin].
  - eapply labels_ok_elem; [exact Hl|]. apply list_elem_of_lookup_total_2.
    destruct Hl as [-> _]. lia.
  - apply (proj1 (elem_of_first_seen _ _)) in Hin.
    rewrite Forall_forall in Hlabs. by apply Hlabs.
Qed.

(** Inside a node the labels array is the one the node was entered with,
    but for the entry of the node itself, which holds its own label or one
    of the labels read off its row. *)
Lemma node_trace_labels st (k : Z) st' :
  ready n st → st' ∈ node_trace indices indptr k st →
  labels st' = labels st ∨
  ∃ i labs x, node_reads indices indptr st k i labs ∧ 0 ≤ i < n ∧
    x ∈ labs ∧ labels st' = <[Z.to_nat i := x]> (labels st).
Proof.
  intros Hr. pose proof Hr as (Hn & Hl & Ho & Hnb & Hlen).
  unfold node_trace. intros [->|Hin]%elem_of_cons; [by left|].
  destruct (buf_get (order st) k) as [i|e] eqn:Hk; [|by apply elem_of_nil in Hin].
  assert (0 ≤ i < n) as Hi
    by (eapply labels_ok_elem; [done|by eapply buf_get_elem]).
  apply elem_of_app in Hin as [Hin|Hin].
  - (* in the tally loop *)
    left. unfold count_trace in Hin.
    destruct (row_bounds indptr i) as [[lo hi]|e]; [|by apply elem_of_nil in Hin].
    apply forM_trace_after in Hin as (p & _ & Hrun).
    pose proof (tally_loop st (take p (range lo hi)) [] (set_list_size 0 st)
                  Hn Hl (Forall_nil_2 _) (tallied_start st Hr)) as Hloop.
    rewrite Hrun in Hloop. destruct Hloop as (labs & _ & _ & Ht).
    by apply tallied_fields in Ht as (-> & _).
  - (* in the selection loop *)
    unfold node_enter in Hin. rewrite Hk in Hin. simpl in Hin.
    unfold count_neighbors in Hin.
    destruct (row_bounds indptr i) as [[lo hi]|e] eqn:Hrow; simpl in Hin;
      [|by apply elem_of_nil in Hin].
    pose proof (tally_loop st (range lo hi) [] (set_list_size 0 st) Hn Hl
                  (Forall_nil_2 _) (tallied_start st Hr)) as Hloop.
    destruct (forM (tally_step indices) (range lo hi) (set_list_size 0 st))
      as [st1|e] eqn:Hcount; simpl in Hin; [|by apply elem_of_nil in Hin].
    destruct Hloop as (labs & Hreads & Hlabs & Ht). simpl in Ht.
    pose proof (tallied_fields _ _ _ Ht) as (Hl1 & _ & Hnb1 & Hsz1 & _).
    destruct (buf_get_lt (labels st1) i) as (own & Hown & Hown').
    { rewrite Hl1. destruct Hl as [-> _]. lia. }
    assert (0 ≤ own < n) as Hown_range.
    { eapply labels_ok_elem; [exact Hl|].
      rewrite <- Hl1. by eapply list_elem_of_lookup_2. }
    unfold select_init in Hin. rewrite Hown in Hin. simpl in Hin.
    rewrite (vec_get_Ok _ _ (occurrences own labs)) in Hin
      by (lia || rewrite Hnb1; by apply lookup_tallies).
    simpl in Hin. rewrite Hsz1 in Hin.
    apply forM_trace_after in Hin as (p & Hp & Hrun).
    rewrite length_range in Hp.
    rewrite take_range, Z.add_0_l in Hrun by lia.
    destruct (select_loop st labs st1 i own p) as (st2 & Hrun' & Hsel);
      try done; [lia|].
    assert (st2 = st') as -> by congruence.
    unfold selected in Hsel. subst st'. simpl. rewrite Hl1.
    rewrite Hl1 in Hown'. rewrite (list_lookup_total_correct _ _ _ Hown').
    destruct (winner_elem labs own (take p (first_seen labs))) as [-> | Hx].
    + left. by apply list_insert_id.
    + right. exists i, labs, (winner labs own (take p (first_seen labs))).2.
      split_and!; try done; [|lia|lia|].
      * split; [done|]. by exists lo, hi.
      * apply elem_of_first_seen. by eapply subseteq_take.
Qed.

End Node.

(** ** Passes and runs *)

Section Run.

Context {rng_state : Type}.
Variable rand : rng_state → Z * rng_state.
Hypothesis rand_nonneg : ∀ g, 0 ≤ (rand g).1.
Variables (n : Z) (indices indptr : list Z).
Implicit Types (st : state rng_state) (g : rng_state).

(** A property [Q] of the labels array that a write of a label read off
    the row of the written node keeps. *)
Variable Q : list Z → Prop.
Hypothesis Q_step : ∀ st k i labs x,
  ready n st → Q (labels st) → 0 ≤ k < n →
  node_reads indices indptr st k i labs →
  0 ≤ i < n → x ∈ labs → Q (<[Z.to_nat i := x]> (labels st)).

Lemma node_reads_elem st (k i : Z) (labs : list Z) (x : Z) :
  node_reads indices indptr st k i labs → x ∈ labs → x ∈ labels st.
Proof.
  intros (_ & lo & hi & _ & Hreads) Hx.
  apply list_elem_of_lookup_1 in Hx as [p Hp].
  destruct (Forall2_lookup_r _ _ _ _ _ Hreads Hp) as (j & _ & Hj).
  unfold neighbor_label in Hj. apply bind_Ok in Hj as (v & _ & Hv).
  by eapply buf_get_elem.
Qed.

Lemma node_step_inv st (k : Z) :
  ready n st → Q (labels st) → 0 ≤ k < n →
  match node_step indices indptr k st with
  | Ok st' => ready n st' ∧ Q (labels st')
  | Err e => e = IndexError ∧ ¬ rows_readable rng_state n indices indptr
  end.
Proof.
  intros Hr HQ Hk.
  pose proof (node_step_spec n indices indptr st k Hr) as Hspec.
  destruct (node_step indices indptr k st) as [st'|e].
  - destruct Hspec as (i & labs & Hreads & Hi & Hlabs & Hres).
    split; [by eapply node_result_ready|].
    destruct Hres as (-> & _).
    destruct (winner_elem labs (labels st !!! Z.to_nat i) (first_seen labs))
      as [-> | Hin].
    + rewrite list_insert_id; [done|]. apply list_lookup_lookup_total_lt.
      destruct Hr as (_ & [-> _] & _). lia.
    + apply (Q_step st k i labs); try done.
      by apply (proj1 (elem_of_first_seen labs _)).
  - destruct Hspec as [-> Hno].
    split; [done|]. intros Hall. destruct (Hall st k) as (i & labs & Hreads);
      [done..|]. by eapply Hno.
Qed.

Lemma node_trace_inv st (k : Z) :
  ready n st → Q (labels st) → 0 ≤ k < n →
  Forall (λ s, labels_ok n (labels s) ∧ Q (labels s))
    (node_trace indices indptr k st).
Proof.
  intros Hr HQ Hk. apply Forall_forall. intros s Hs.
  pose proof Hr as (_ & Hl & _).
  destruct (node_trace_labels n indices indptr st k s Hr Hs)
    as [-> | (i & labs & x & Hreads & Hi & Hx & ->)]; [done|].
  split; [|by apply (Q_step st k i labs)].
  apply labels_ok_insert; [done|]. eapply labels_ok_elem; [exact Hl|].
  by eapply node_reads_elem.
Qed.

(** The start of a pass: a new order, the same nodes. *)
Lemma pass_enter_spec st :
  ready n st →
  ∃ st0, pass_enter rand n st = Ok st0 ∧ ready n st0 ∧
    labels st0 = labels st ∧ changed st0 = false ∧
    (order st0, gen st0) =
      fisher_yates rand (Z.to_nat (n - 1)) (order st) (gen st).
Proof.
  intros (Hn & Hl & Ho & Hnb & Hlen). unfold pass_enter.
  rewrite (shuffle_fisher_yates rand rand_nonneg)
    by (destruct Ho as [-> _]; lia).
  pose proof (fisher_yates_Permutation rand (Z.to_nat (n - 1)) (order st) (gen st))
    as Hperm.
  destruct (fisher_yates rand (Z.to_nat (n - 1)) (order st) (gen st))
    as [o g] eqn:Hfy.
  simpl in *. eexists. split; [done|]. setters. split_and!; try done.
  unfold ready. simpl. split_and!; try done.
  destruct Ho as [Holen Ho]. split; [by rewrite Hperm|by rewrite Hperm].
Qed.

Lemma pass_inv st :
  ready n st → Q (labels st) →
  match pass rand n indices indptr st with
  | Ok st' => ready n st' ∧ Q (labels st')
  | Err e => e = IndexError ∧ ¬ rows_readable rng_state n indices indptr
  end.
Proof.
  intros Hr HQ. unfold pass.
  destruct (pass_enter_spec st Hr) as (st0 & -> & Hr0 & Hl0 & _). simpl.
  apply (forM_invariant (λ s, ready n s ∧ Q (labels s))
           (λ e, e = IndexError ∧ ¬ rows_readable rng_state n indices indptr));
    [|by rewrite Hl0].
  intros k s Hk%elem_of_range [Hs HQs].
  apply (node_step_inv s k Hs HQs). lia.
Qed.

Lemma pass_trace_inv (inner : Z → state rng_state → list (state rng_state))
    (P : state rng_state → Prop) st :
  (∀ k s, 0 ≤ k < n → ready n s → Q (labels s) → Forall P (inner k s)) →
  ready n st → Q (labels st) →
  Forall P (pass_trace rand n indices indptr inner st).
Proof.
  intros Hinner Hr HQ. unfold pass_trace.
  destruct (pass_enter_spec st Hr) as (st0 & -> & Hr0 & Hl0 & _).
  apply (forM_trace_Forall (λ s, ready n s ∧ Q (labels s)));
    [|by rewrite Hl0].
  intros k s Hk%elem_of_range [Hs HQs]. split; [apply Hinner; (lia || done)|].
  intros s' Hstep. pose proof (node_step_inv s k Hs HQs ltac:(lia)) as Hinv.
  by rewrite Hstep in Hinv.
Qed.

Lemma while_inv (fuel : nat) st :
  ready n st → Q (labels st) →
  match while_changed rand n indices indptr fuel st with
  | Some (Ok st') => ready n st' ∧ Q (labels st') ∧ changed st' = false
  | Some (Err e) => e = IndexError ∧ ¬ rows_readable rng_state n indices indptr
  | None => True
  end.
Proof.
  revert st. induction fuel as [|fuel IH]; intros st Hr HQ; simpl.
  - destruct (changed st) eqn:Hch; done.
  - destruct (changed st) eqn:Hch; [|done].
    pose proof (pass_inv st Hr HQ) as Hpass.
    destruct (pass rand n indices indptr st) as [st'|e]; [|done].
    destruct Hpass. by apply IH.
Qed.

Lemma while_trace_inv (inner : Z → state rng_state → list (state rng_state))
    (P : state rng_state → Prop) (fuel : nat) st :
  (∀ k s, 0 ≤ k < n → ready n s → Q (labels s) → Forall P (inner k s)) →
  (∀ s, ready n s → Q (labels s) → P s) →
  ready n st → Q (labels st) →
  Forall P (while_trace rand n indices indptr inner fuel st).
Proof.
  intros Hinner Hend. revert st.
  induction fuel as [|fuel IH]; intros st Hr HQ; simpl.
  - by destruct (changed st).
  - destruct (changed st); [|done].
    apply Forall_app. split; [by apply pass_trace_inv|].
    pose proof (pass_inv st Hr HQ) as Hpass.
    destruct (pass rand n indices indptr st) as [st'|e]; [|done].
    destruct Hpass. constructor; [by apply Hend|by apply IH].
Qed.

Lemma init_loop (p : nat) (m : nat) :
  forM (λ i v, vec_set v i 0) (range 0 (Z.of_nat p))
       (replicate p None ++ replicate m None) =
    Ok (replicate p (Some 0) ++ replicate m None).
Proof.
  revert m. induction p as [|p IH]; intros m.
  - by rewrite range_nil.
  - replace (Z.of_nat (S p)) with (Z.of_nat p + 1) by lia.
    rewrite range_snoc, forM_app by lia.
    replace (replicate (S p) None ++ replicate m None)
      with (replicate p (@None Z) ++ replicate (S m) None)
      by (rewrite <- !replicate_add; f_equal; lia).
    rewrite IH. simpl.
    rewrite vec_set_Ok
      by (rewrite length_app, !length_replicate; simpl; lia).
    simpl. f_equal. rewrite Nat2Z.id.
    rewrite <- (Nat.add_0_r p) at 1.
    rewrite <- (length_replicate p (Some 0)) at 1.
    rewrite insert_app_r. simpl. clear IH.
    induction p as [|p IHp]; simpl; [done|]. by rewrite IHp.
Qed.

Lemma tallies_nil_replicate : tallies n [] = replicate (Z.to_nat n) (Some 0).
Proof.
  apply list_eq. intros k. unfold tallies. rewrite list_lookup_fmap.
  destruct (decide (k < Z.to_nat n)%nat).
  - rewrite lookup_seqZ_lt by lia. simpl. by rewrite lookup_replicate_2.
  - rewrite lookup_seqZ_ge by lia. simpl. symmetry.
    apply lookup_replicate_None. lia.
Qed.

Lemma labels_ok_arange : 0 ≤ n → labels_ok n (arange n).
Proof.
  intros Hn. unfold arange. split; [by rewrite length_seqZ|].
  apply Forall_seqZ. lia.
Qed.

(** The state in which the loop is entered. *)
Lemma init_state_spec g :
  0 ≤ n →
  ∃ scratch0,
    init_state n g =
      Ok (State (arange n) (arange n) (tallies n []) scratch0 0 0 true g) ∧
    length scratch0 = Z.to_nat n.
Proof.
  intros Hn. unfold init_state, reserve.
  rewrite (proj2 (Z.ltb_ge n 0)) by done. simpl.
  pose proof (init_loop (Z.to_nat n) 0) as Hloop.
  rewrite !app_nil_r, Z2Nat.id in Hloop by done. rewrite Hloop. simpl.
  eexists. split; [by rewrite tallies_nil_replicate|].
  by rewrite length_replicate.
Qed.

Lemma init_state_neg g : n < 0 → init_state n g = Err LengthError.
Proof.
  intros Hn. unfold init_state, reserve.
  by rewrite (proj2 (Z.ltb_lt n 0)) by done.
Qed.

Lemma init_state_ready g st :
  init_state n g = Ok st →
  ready n st ∧ labels st = arange n ∧ changed st = true ∧ gen st = g.
Proof.
  intros Hinit. destruct (decide (0 ≤ n)) as [Hn|Hn].
  - destruct (init_state_spec g Hn) as (scratch0 & Heq & Hlen).
    rewrite Heq in Hinit. injection Hinit as <-. split_and!; try done.
    split_and!; simpl; try done; by apply labels_ok_arange.
  - rewrite init_state_neg in Hinit by lia. done.
Qed.

(** A run keeps [Q], and fails with [IndexError] at a failed read only. *)
Lemma run_inv (fuel : nat) g :
  0 ≤ n → Q (arange n) →
  match run rand n indices indptr fuel g with
  | Some (Ok st) => ready n st ∧ Q (labels st) ∧ changed st = false
  | Some (Err e) => e = IndexError ∧ ¬ rows_readable rng_state n indices indptr
  | None => True
  end.
Proof.
  intros Hn HQ. unfold run.
  destruct (init_state_spec g Hn) as (scratch0 & Heq & Hlen).
  destruct (init_state_ready g _ Heq) as (Hr & Hl & _).
  rewrite Heq. apply while_inv; [done|]. by rewrite Hl.
Qed.

Lemma run_trace_inv (inner : Z → state rng_state → list (state rng_state))
    (P : state rng_state → Prop) (fuel : nat) g :
  (∀ k s, 0 ≤ k < n → ready n s → Q (labels s) → Forall P (inner k s)) →
  (∀ s, ready n s → Q (labels s) → P s) →
  Q (arange n) →
  Forall P (run_trace rand n indices indptr inner fuel g).
Proof.
  intros Hinner Hend HQ. unfold run_trace.
  destruct (init_state n g) as [st|e] eqn:Hinit; [|done].
  destruct (init_state_ready g st Hinit) as (Hr & Hl & _).
  rewrite <- Hl in HQ. constructor; [by apply Hend|].
  by apply while_trace_inv.
Qed.

End Run.

(** ** Valid graphs *)

Section Valid.

Context {rng_state : Type}.
Variables (n : Z) (indices indptr : list Z).
Hypothesis valid : valid_csr n indices indptr.
Implicit Types (st : state rng_state).

Lemma Sorted_le_lookup (l : list Z) (a b : nat) (x y : Z) :
  Sorted Z.le l → l !! a = Some x → l !! b = Some y → (a ≤ b)%nat → x ≤ y.
Proof.
  intros Hs%Sorted_StronglySorted; [|apply _]. revert a b.
  induction Hs as [|z l Hs IH Hz]; intros a b Ha Hb Hab; [done|].
  destruct a as [|a], b as [|b]; simplify_eq/=; [lia| |lia|].
  - rewrite Forall_forall in Hz. apply Hz. by eapply list_elem_of_lookup_2.
  - apply (IH a b); [done..|lia].
Qed.

(** The row of a node lies inside [indices]. *)
Lemma valid_row (i : Z) :
  0 ≤ i < n →
  let lo := indptr !!! Z.to_nat i in
  let hi := indptr !!! Z.to_nat (i + 1) in
  row_bounds indptr i = Ok (lo, hi) ∧
  0 ≤ lo ≤ hi ∧ hi ≤ Z.of_nat (length indices).
Proof.
  intros Hi lo hi. destruct valid as (Hn & Hlen & Hs & Hpos & Hlast & Hind).
  destruct (lookup_lt_is_Some_2 indptr (Z.to_nat i)) as [x Hx]; [lia|].
  destruct (lookup_lt_is_Some_2 indptr (Z.to_nat (i + 1))) as [y Hy]; [lia|].
  subst lo hi.
  rewrite (list_lookup_total_correct _ _ _ Hx), (list_lookup_total_correct _ _ _ Hy).
  split_and!.
  - unfold row_bounds. rewrite (buf_get_Ok indptr i x) by (lia || done).
    simpl. by rewrite (buf_get_Ok indptr (i + 1) y) by (lia || done).
  - rewrite Forall_forall in Hpos. apply Hpos. by eapply list_elem_of_lookup_2.
  - eapply (Sorted_le_lookup indptr); [done|exact Hx|exact Hy|lia].
  - eapply (Sorted_le_lookup indptr); [done|exact Hy|exact Hlast|lia].
Qed.

(** On a valid graph the labels a node reads are those of its neighbours. *)
Lemma valid_reads st (i : Z) :
  labels_ok n (labels st) → 0 ≤ i < n →
  Forall2 (λ j lab, neighbor_label indices j st = Ok lab)
    (range (indptr !!! Z.to_nat i) (indptr !!! Z.to_nat (i + 1)))
    (neighbor_labels indices indptr (labels st) i).
Proof.
  intros Hl Hi. destruct (valid_row i Hi) as (_ & Hlo & Hhi).
  unfold neighbor_labels, neighbors, slice.
  set (lo := indptr !!! Z.to_nat i) in *.
  set (hi := indptr !!! Z.to_nat (i + 1)) in *.
  apply Forall2_fmap_r. apply Forall2_same_length_lookup_2.
  - rewrite length_range, length_take, length_drop. lia.
  - intros p j v Hj Hv. unfold range in Hj. apply lookup_seqZ in Hj as [-> Hp].
    rewrite lookup_take_lt, lookup_drop in Hv by lia.
    destruct valid as (_ & _ & _ & _ & _ & Hind).
    assert (0 ≤ v < n) as Hvr.
    { rewrite Forall_forall in Hind. apply Hind.
      by eapply list_elem_of_lookup_2. }
    unfold neighbor_label.
    rewrite (buf_get_Ok _ _ v)
      by (lia || by replace (Z.to_nat (lo + Z.of_nat p)) with (Z.to_nat lo + p)%nat by lia).
    simpl. apply buf_get_Ok; [lia|]. apply list_lookup_lookup_total_lt.
    destruct Hl as [-> _]. lia.
Qed.

Lemma valid_node_reads st (k : Z) :
  ready n st → 0 ≤ k < n →
  ∃ i, 0 ≤ i < n ∧ order st !! Z.to_nat k = Some i ∧
    node_reads indices indptr st k i
      (neighbor_labels indices indptr (labels st) i).
Proof.
  intros (Hn & Hl & Ho & _) Hk.
  destruct (buf_get_lt (order st) k) as (i & Hget & Hlook).
  { destruct Ho as [-> _]. lia. }
  assert (0 ≤ i < n) as Hi
    by (eapply labels_ok_elem; [exact Ho|by eapply list_elem_of_lookup_2]).
  exists i. split_and!; [lia|lia|done|]. split; [done|].
  destruct (valid_row i Hi) as (Hrow & _). eexists _, _. split; [exact Hrow|].
  by apply valid_reads.
Qed.

Lemma valid_rows_readable : rows_readable rng_state n indices indptr.
Proof.
  intros st k Hr Hk. destruct (valid_node_reads st k Hr Hk) as (i & _ & _ & ?).
  by exists i, (neighbor_labels indices indptr (labels st) i).
Qed.

(** What a node reads is determined by the state. *)
Lemma node_reads_unique st (k i i' : Z) (labs labs' : list Z) :
  node_reads indices indptr st k i labs →
  node_reads indices indptr st k i' labs' →
  i = i' ∧ labs = labs'.
Proof.
  intros (Hi & lo & hi & Hrow & Hreads) (Hi' & lo' & hi' & Hrow' & Hreads').
  assert (i' = i) as -> by congruence. split; [done|].
  assert (lo' = lo ∧ hi' = hi) as [-> ->] by (split; congruence).
  eapply Forall2_unique; [exact Hreads|exact Hreads'|].
  intros j x y Hx Hy. simpl in *. congruence.
Qed.

(** A node of a valid graph: it does not fail, and installs the winner
    among the labels of its neighbours. *)
Lemma valid_node_step st (k : Z) :
  ready n st → 0 ≤ k < n →
  ∃ i st',
    0 ≤ i < n ∧ order st !! Z.to_nat k = Some i ∧
    node_step indices indptr k st = Ok st' ∧
    node_result n st i (neighbor_labels indices indptr (labels st) i) st'.
Proof.
  intros Hr Hk. destruct (valid_node_reads st k Hr Hk) as (i & Hi & Hord & Hreads).
  pose proof (node_step_spec n indices indptr st k Hr) as Hspec.
  destruct (node_step indices indptr k st) as [st'|e].
  - destruct Hspec as (i' & labs & Hreads' & _ & _ & Hres).
    destruct (node_reads_unique _ _ _ _ _ _ Hreads Hreads') as [<- <-].
    by exists i, st'.
  - destruct Hspec as [_ Hno]. by destruct (Hno _ _ Hreads).
Qed.

(** The two phases of a node of a valid graph. *)
Lemma valid_node_phases st (k : Z) :
  ready n st → 0 ≤ k < n →
  ∃ i st1 st',
    0 ≤ i < n ∧ buf_get (order st) k = Ok i ∧
    count_neighbors indices indptr i st = Ok st1 ∧
    tallied n st (neighbor_labels indices indptr (labels st) i) st1 ∧
    node_step indices indptr k st = Ok st' ∧
    node_result n st i (neighbor_labels indices indptr (labels st) i) st'.
Proof.
  intros Hr Hk. pose proof Hr as (Hn & Hl & _).
  destruct (valid_node_step st k Hr Hk) as (i & st' & Hi & Hord & Hstep & Hres).
  destruct (valid_row i Hi) as (Hrow & _).
  pose proof (valid_reads st i Hl Hi) as Hreads.
  pose proof (tally_loop n indices st
                (range (indptr !!! Z.to_nat i) (indptr !!! Z.to_nat (i + 1)))
                [] (set_list_size 0 st) Hn Hl (Forall_nil_2 _)
                (tallied_start n st Hr)) as Hloop.
  assert (count_neighbors indices indptr i st =
          forM (tally_step indices)
            (range (indptr !!! Z.to_nat i) (indptr !!! Z.to_nat (i + 1)))
            (set_list_size 0 st)) as Hcount
    by (unfold count_neighbors; by rewrite Hrow).
  rewrite <- Hcount in Hloop.
  destruct (count_neighbors indices indptr i st) as [st1|e] eqn:Hcn.
  - destruct Hloop as (labs & Hreads' & _ & Ht). simpl in Ht.
    assert (neighbor_labels indices indptr (labels st) i = labs) as <-.
    { eapply Forall2_unique; [exact Hreads|exact Hreads'|].
      intros j x y Hx Hy. simpl in *. congruence. }
    exists i, st1, st'. split; [lia|].
    split; [apply buf_get_Ok; [lia|done]|]. done.
  - apply Exists_exists in Hloop as (j & Hj & Hfail).
    apply list_elem_of_lookup_1 in Hj as [p Hp].
    destruct (Forall2_lookup_l _ _ _ _ _ Hreads Hp) as (lab & _ & Hok).
    congruence.
Qed.

Lemma elem_of_neighbor_labels (l : list Z) (i x : Z) :
  x ∈ neighbor_labels indices indptr l i ↔
  ∃ v, edge indices indptr i v ∧ x = l !!! Z.to_nat v.
Proof.
  unfold neighbor_labels, edge. rewrite list_elem_of_fmap.
  split; intros (v & ? & ?); by exists v.
Qed.

Lemma edge_range (i v : Z) : edge indices indptr i v → 0 ≤ v < n.
Proof.
  unfold edge, neighbors, slice. intros Hv%subseteq_take%subseteq_drop.
  destruct valid as (_ & _ & _ & _ & _ & Hind).
  rewrite Forall_forall in Hind. by apply Hind.
Qed.

End Valid.

(** * The claims of the specification *)

(** ** Invariants of a run on a valid graph (C1, C4, C7) *)

Section Invariants.

Context {rng_state : Type}.
Variable rand : rng_state → Z * rng_state.
Hypothesis rand_nonneg : ∀ g, 0 ≤ (rand g).1.
Variables (n : Z) (indices indptr : list Z).
Hypothesis valid : valid_csr n indices indptr.
Implicit Types (st : state rng_state) (g : rng_state).

(** C1.  Every entry of the labels array is a node, in [[0, n_nodes)], in
    every state of the run (at the start of every node and after every step
    of its two loops, the only places where the array is written) and in
    the array that is returned; on a valid CSR graph the run does not fail.
    The array starts as the identity, and inside a node it differs from the
    array the node was entered with by at most one entry, which then holds
    a value that was in the array.  The bound needs no validity of the
    graph: a failure ends the run, it does not spoil the labels. *)
Theorem labels_in_range (fuel : nat) g :
  (0 ≤ n →
   ∃ st0 rest,
     run_trace rand n indices indptr (node_trace indices indptr) fuel g
       = st0 :: rest ∧ labels st0 = arange n) ∧
  Forall (λ st, labels_ok n (labels st))
    (run_trace rand n indices indptr (node_trace indices indptr) fuel g) ∧
  (∀ st k st', ready n st → st' ∈ node_trace indices indptr k st →
     labels st' = labels st ∨
     ∃ i x, x ∈ labels st ∧ labels st' = <[Z.to_nat i := x]> (labels st)) ∧
  match fit_core rand n indices indptr fuel g with
  | Some (Ok (l, _)) => labels_ok n l
  | Some (Err _) => ¬ valid_csr n indices indptr
  | None => True
  end.
Proof.
  split_and!.
  - intros Hn. unfold run_trace.
    destruct (init_state_spec n g Hn) as (scratch0 & -> & _).
    by eexists _, _.
  - apply (run_trace_inv rand rand_nonneg n indices indptr (λ _, True));
      try done.
    + intros k s Hk Hs _. eapply Forall_impl;
        [apply (node_trace_inv n indices indptr (λ _, True)); done|].
      by intros st [? _].
    + by intros s (_ & ? & _) _.
  - intros st k st' Hr Hin.
    destruct (node_trace_labels n indices indptr st k st' Hr Hin)
      as [?|(i & labs & x & Hreads & _ & Hx & ->)]; [by left|].
    right. exists i, x. split; [|done].
    by eapply node_reads_elem.
  - unfold fit_core. destruct (decide (0 ≤ n)) as [Hn|Hn].
    + pose proof (run_inv rand rand_nonneg n indices indptr (λ _, True)
                    ltac:(done) fuel g Hn I) as Hrun.
      destruct (run rand n indices indptr fuel g) as [[st|e]|]; [| |done].
      * by destruct Hrun as ((_ & ? & _) & _).
      * destruct Hrun as [_ Hno]. intros Hvalid. apply Hno.
        by apply valid_rows_readable.
    + unfold run. rewrite init_state_neg by lia. intros (Hn' & _). lia.
Qed.

(** C4.  On a valid graph the tally table holds [n_nodes] zeros whenever a
    node is entered (and when a pass ends).  A node counts into it, then
    resets the entries of the labels recorded in the scratch list, and
    this alone restores the all-zero table. *)
Theorem tally_table_clean (fuel : nat) g :
  Forall (λ st, nb_labels st = replicate (Z.to_nat n) (Some 0))
    (run_trace rand n indices indptr node_start fuel g) ∧
  ∀ st k, ready n st → 0 ≤ k < n →
    ∃ i st1 st' touched,
      buf_get (order st) k = Ok i ∧
      count_neighbors indices indptr i st = Ok st1 ∧
      scratch st1 = Some <$> touched ∧
      node_step indices indptr k st = Ok st' ∧
      nb_labels st' = zero_out (nb_labels st1) touched ∧
      nb_labels st' = replicate (Z.to_nat n) (Some 0).
Proof.
  split.
  - apply (run_trace_inv rand rand_nonneg n indices indptr (λ _, True));
      try done.
    + intros k s _ (_ & _ & _ & Hnb & _) _. constructor; [|done].
      by rewrite Hnb, tallies_nil_replicate.
    + intros s (_ & _ & _ & Hnb & _) _. by rewrite Hnb, tallies_nil_replicate.
  - intros st k Hr Hk.
    destruct (valid_node_phases n indices indptr valid st k Hr Hk)
      as (i & st1 & st' & Hi & Hord & Hcount & Ht & Hstep & Hres).
    exists i, st1, st',
      (first_seen (neighbor_labels indices indptr (labels st) i)).
    pose proof (tallied_fields _ _ _ _ Ht) as (Hl1 & _ & Hnb1 & _).
    destruct Ht as (_ & _ & Hscr). destruct Hres as (_ & _ & Hnb' & _).
    split_and!; try done.
    + rewrite Hnb', Hnb1. symmetry. apply zero_out_tallies.
      apply Forall_forall. intros x Hx.
      pose proof Hr as (_ & Hl & _). eapply labels_ok_elem; [exact Hl|].
      apply elem_of_neighbor_labels in Hx as (v & Hv & ->).
      apply list_elem_of_lookup_total_2.
      apply (edge_range n indices indptr valid) in Hv.
      destruct Hl as [-> _]. lia.
    + by rewrite Hnb', tallies_nil_replicate.
Qed.

(** C7.  On a valid graph, in every state of the run the label of a node
    is a node that can be reached from it along edges, hence a node of its
    own connected component; so two nodes that are not connected never
    carry the same label, in particular not in the returned array. *)
Theorem labels_stay_in_component (fuel : nat) g :
  Forall (λ st, ∀ a b, 0 ≤ a < n → 0 ≤ b < n →
            (rtc (edge indices indptr) a (labels st !!! Z.to_nat a)) ∧
            (¬ rtsc (edge indices indptr) a b →
             labels st !!! Z.to_nat a ≠ labels st !!! Z.to_nat b))
    (run_trace rand n indices indptr (node_trace indices indptr) fuel g) ∧
  match fit_core rand n indices indptr fuel g with
  | Some (Ok (l, _)) =>
      ∀ a b, 0 ≤ a < n → 0 ≤ b < n →
        rtc (edge indices indptr) a (l !!! Z.to_nat a) ∧
        (¬ rtsc (edge indices indptr) a b →
         l !!! Z.to_nat a ≠ l !!! Z.to_nat b)
  | Some (Err _) => False
  | None => True
  end.
Proof.
  pose proof valid as (Hn & _).
  set (Q := λ l : list Z,
         ∀ a, 0 ≤ a < n → rtc (edge indices indptr) a (l !!! Z.to_nat a)).
  assert (∀ l, Q l → ∀ a b, 0 ≤ a < n → 0 ≤ b < n →
            rtc (edge indices indptr) a (l !!! Z.to_nat a) ∧
            (¬ rtsc (edge indices indptr) a b →
             l !!! Z.to_nat a ≠ l !!! Z.to_nat b)) as Hcomp.
  { intros l HQ a b Ha Hb. split; [by apply HQ|]. intros Hsep Heq.
    apply Hsep. transitivity (l !!! Z.to_nat a).
    - apply rtc_rtsc_rl. by apply HQ.
    - rewrite Heq. apply rtc_rtsc_lr. by apply HQ. }
  assert (Q (arange n)) as Hinit.
  { intros a Ha. unfold arange. rewrite lookup_total_seqZ_lt by lia.
    replace (0 + Z.of_nat (Z.to_nat a)) with a by lia. done. }
  assert (∀ st k i labs x,
            ready n st → Q (labels st) → 0 ≤ k < n →
            node_reads indices indptr st k i labs → 0 ≤ i < n → x ∈ labs →
            Q (<[Z.to_nat i := x]> (labels st))) as Hstep.
  { intros st k i labs x Hr HQ Hk Hreads Hi Hx a Ha.
    pose proof Hr as (_ & Hl & _).
    destruct (decide (a = i)) as [->|Hne].
    - rewrite list_lookup_total_insert_eq by (destruct Hl as [-> _]; lia).
      destruct (valid_node_reads n indices indptr valid st k Hr Hk)
        as (i' & _ & _ & Hreads').
      destruct (node_reads_unique _ _ _ _ _ _ _ _ Hreads Hreads') as [<- ->].
      apply elem_of_neighbor_labels in Hx as (v & Hv & ->).
      eapply rtc_l; [exact Hv|]. apply HQ.
      by eapply edge_range.
    - rewrite list_lookup_total_insert_ne by lia. by apply HQ. }
  split.
  - apply (run_trace_inv rand rand_nonneg n indices indptr Q Hstep);
      try done.
    + intros k s Hk Hs HQ. eapply Forall_impl;
        [by apply (node_trace_inv n indices indptr Q Hstep)|].
      intros st [_ HQst]. by apply Hcomp.
    + intros s _ HQ. by apply Hcomp.
  - unfold fit_core.
    pose proof (run_inv rand rand_nonneg n indices indptr Q Hstep fuel g
                  Hn Hinit) as Hrun.
    destruct (run rand n indices indptr fuel g) as [[st|e]|]; [| |done].
    + destruct Hrun as (_ & HQ & _). by apply Hcomp.
    + destruct Hrun as [_ Hno]. apply Hno. by apply valid_rows_readable.
Qed.

End Invariants.

(** ** The update of one node (C3) *)

Section UpdateRule.

Context {rng_state : Type}.
Variables (n : Z) (indices indptr : list Z).
Hypothesis valid : valid_csr n indices indptr.

(** C3.  A node [i = order[k]] of a valid graph, entered in a state [st]:
    after step a ([count_neighbors]) the tally table holds, for every label,
    the number of neighbours of [i] that carry it, and the scratch list the
    labels met, in the order in which they were first met.  The node then
    changes at most [labels[i]].  If it changes it, the tally of the new
    label is strictly greater than the tally of the old one, [changed] is
    set, and the new label is the first of the scratch list whose tally is
    the greatest.  If no recorded label has a tally strictly greater than
    that of [labels[i]] (ties included) the labels and [changed] are left
    as they were; if one has, the label does change. *)
Theorem node_update_rule (st : state rng_state) (k : Z) :
  ready n st → 0 ≤ k < n →
  ∃ i st1 st',
    buf_get (order st) k = Ok i ∧
    count_neighbors indices indptr i st = Ok st1 ∧
    node_step indices indptr k st = Ok st' ∧
    let labs := neighbor_labels indices indptr (labels st) i in
    let tally := λ x, occurrences x labs in
    let touched := first_seen labs in
    let own := labels st !!! Z.to_nat i in
    let new := labels st' !!! Z.to_nat i in
    labels st1 = labels st ∧
    nb_labels st1 = tallies n labs ∧
    scratch st1 = Some <$> touched ∧
    labels st' = <[Z.to_nat i := new]> (labels st) ∧
    (new ≠ own →
       tally own < tally new ∧ changed st' = true ∧
       ∃ pre post, touched = pre ++ new :: post ∧
         (∀ x, x ∈ pre → tally x < tally new) ∧
         (∀ x, x ∈ touched → tally x ≤ tally new)) ∧
    ((∀ x, x ∈ touched → tally x ≤ tally own) →
       labels st' = labels st ∧ changed st' = changed st) ∧
    ((∃ x, x ∈ touched ∧ tally own < tally x) → new ≠ own).
Proof.
  intros Hr Hk.
  destruct (valid_node_phases n indices indptr valid st k Hr Hk)
    as (i & st1 & st' & Hi & Hord & Hcount & Ht & Hstep & Hres).
  exists i, st1, st'. split_and!; try done.
  pose proof (tallied_fields _ _ _ _ Ht) as (Hl1 & _ & Hnb1 & _).
  destruct Ht as (_ & _ & Hscr).
  destruct Hres as (Hl' & _ & _ & _ & Hch' & _).
  pose proof Hr as (_ & [Hlen _] & _).
  set (labs := neighbor_labels indices indptr (labels st) i) in *.
  set (own := labels st !!! Z.to_nat i) in *.
  pose proof (winner_spec labs own (first_seen labs)) as [Hmax Hcase].
  pose proof (winner_tally labs own (first_seen labs)) as Htally.
  set (w := winner labs own (first_seen labs)) in *.
  assert (labels st' !!! Z.to_nat i = w.2) as Hnew.
  { rewrite Hl'. apply list_lookup_total_insert_eq. lia. }
  simpl. rewrite Hnew. split_and!; try done.
  - (* the label changes *)
    intros Hne. destruct Hcase as [[? _]|(Hgt & pre & post & Heq & Hpre)];
      [done|].
    rewrite <- Htally. split_and!; [done| |].
    + rewrite Hch', bool_decide_true by done. apply orb_true_r.
    + by exists pre, post.
  - (* no label is strictly more frequent *)
    intros Hle. destruct Hcase as [[Hw2 Hw1]|(Hgt & pre & post & Heq & _)].
    + rewrite Hl', Hch', Hw2, Hw1. split.
      * apply list_insert_id. apply list_lookup_lookup_total_lt. lia.
      * rewrite bool_decide_false by lia. apply orb_false_r.
    + assert (w.2 ∈ first_seen labs) as Hin
        by (rewrite Heq; set_solver).
      specialize (Hle _ Hin). lia.
  - (* some label is strictly more frequent *)
    intros (x & Hx & Hlt) Heq. specialize (Hmax x Hx).
    rewrite Heq in Htally. lia.
Qed.

End UpdateRule.

(** ** Two small graphs (C8, C9) *)

Section SmallGraphs.

Context {rng_state : Type}.
Variable rand : rng_state → Z * rng_state.
Hypothesis rand_nonneg : ∀ g, 0 ≤ (rand g).1.
Implicit Types (st : state rng_state) (g : rng_state).

Lemma while_changed_done (n : Z) (indices indptr : list Z) (fuel : nat) st :
  changed st = false →
  while_changed rand n indices indptr fuel st = Some (Ok st).
Proof. intros Hch. destruct fuel; simpl; by rewrite Hch. Qed.

Lemma row_bounds_replicate (m : nat) (c i : Z) :
  0 ≤ i → (Z.to_nat i + 1 < m)%nat →
  row_bounds (replicate m c) i = Ok (c, c).
Proof.
  intros Hi Hm. unfold row_bounds.
  rewrite (buf_get_Ok (replicate m c) i c)
    by (lia || apply lookup_replicate_2; lia).
  simpl.
  rewrite (buf_get_Ok (replicate m c) (i + 1) c)
    by (lia || apply lookup_replicate_2; lia).
  done.
Qed.

(** A node without neighbours leaves the labels, [changed] and the
    generator as they are. *)
Lemma isolated_node_step (n c : Z) (k : Z) st :
  ready n st → 0 ≤ k < n →
  ∃ st', node_step [] (replicate (Z.to_nat (n + 1)) c) k st = Ok st' ∧
    ready n st' ∧ labels st' = labels st ∧ changed st' = changed st ∧
    gen st' = gen st.
Proof.
  intros Hr Hk. pose proof Hr as (Hn & Hl & Ho & _).
  set (indptr := replicate (Z.to_nat (n + 1)) c).
  destruct (buf_get_lt (order st) k) as (i & Hget & Hlook).
  { destruct Ho as [-> _]. lia. }
  assert (0 ≤ i < n) as Hi
    by (eapply labels_ok_elem; [exact Ho|by eapply list_elem_of_lookup_2]).
  assert (node_reads [] indptr st k i []) as Hreads.
  { split; [done|]. exists c, c. split.
    - apply row_bounds_replicate; lia.
    - rewrite range_nil by lia. constructor. }
  pose proof (node_step_spec n [] indptr st k Hr) as Hspec.
  destruct (node_step [] indptr k st) as [st'|e].
  - destruct Hspec as (i' & labs & Hreads' & _ & Hlabs & Hres).
    destruct (node_reads_unique _ _ _ _ _ _ _ _ Hreads Hreads') as [<- <-].
    exists st'. split; [done|].
    split; [by eapply node_result_ready|].
    destruct Hres as (Hl' & _ & _ & _ & Hch' & Hg').
    unfold winner in *. simpl in *. split_and!; [|by rewrite orb_false_r in Hch'|done].
    rewrite Hl'. apply list_insert_id. apply list_lookup_lookup_total_lt.
    destruct Hl as [-> _]. lia.
  - destruct Hspec as [_ Hno]. by destruct (Hno _ _ Hreads).
Qed.

(** C8.  On an edgeless graph ([indices] empty, the [n_nodes + 1] entries
    of [indptr] all equal) [fit_core] returns the identity labels after one
    pass: the pass changes no label and leaves [changed] lowered, so the
    loop ends; the generator is left [n_nodes - 1] draws later. *)
Theorem edgeless_graph (n c : Z) (fuel : nat) g :
  0 ≤ n →
  let indptr := replicate (Z.to_nat (n + 1)) c in
  (∃ st0 st1,
     init_state n g = Ok st0 ∧ pass rand n [] indptr st0 = Ok st1 ∧
     labels st1 = arange n ∧ changed st1 = false) ∧
  fit_core rand n [] indptr 0 g = None ∧
  fit_core rand n [] indptr (S fuel) g =
    Some (Ok (arange n, draws rand (Z.to_nat (n - 1)) g)).
Proof.
  intros Hn indptr. subst indptr.
  set (indptr := replicate (Z.to_nat (n + 1)) c).
  destruct (init_state_spec n g Hn) as (scratch0 & Hinit & Hlen).
  destruct (init_state_ready n g _ Hinit) as (Hr & Hl & Hch & Hg).
  set (st0 := State (arange n) (arange n) (tallies n []) scratch0 0 0 true g)
    in *.
  destruct (pass_enter_spec rand rand_nonneg n st0 Hr)
    as (e0 & Henter & Hre & Hle & Hche & Hfy).
  assert (∃ st1, pass rand n [] indptr st0 = Ok st1 ∧ labels st1 = arange n ∧
            changed st1 = false ∧ gen st1 = draws rand (Z.to_nat (n - 1)) g)
    as (st1 & Hpass & Hl1 & Hch1 & Hg1).
  { unfold pass. rewrite Henter. simpl.
    pose proof (forM_invariant
      (λ s, ready n s ∧ labels s = arange n ∧ changed s = false ∧
            gen s = gen e0)
      (λ _, False) (node_step [] indptr) (range 0 n) e0) as Hloop.
    destruct (forM (node_step [] indptr) (range 0 n) e0) as [st1|e].
    - destruct Hloop as (_ & ? & ? & Hgen); [|done|].
      + intros k s Hk%elem_of_range (Hs & Hls & Hchs & Hgs).
        destruct (isolated_node_step n c k s Hs ltac:(lia))
          as (s' & Hs' & ? & ? & ? & ?).
        fold indptr in Hs'. rewrite Hs'. split_and!; congruence.
      + exists st1. split_and!; try done. rewrite Hgen.
        rewrite <- (fisher_yates_draws rand _ (order st0) (gen st0)).
        by rewrite <- Hfy.
    - destruct Hloop; [|done].
      intros k s Hk%elem_of_range (Hs & Hls & Hchs & Hgs).
      destruct (isolated_node_step n c k s Hs ltac:(lia))
        as (s' & Hs' & ? & ? & ? & ?).
      fold indptr in Hs'. rewrite Hs'. split_and!; congruence. }
  split_and!.
  - by exists st0, st1.
  - unfold fit_core, run. by rewrite Hinit.
  - unfold fit_core, run. rewrite Hinit. simpl. rewrite Hpass.
    rewrite while_changed_done by done. by rewrite Hl1, Hg1.
Qed.

Lemma while_changed_step (n : Z) (indices indptr : list Z) (fuel : nat)
    st st' :
  changed st = true → pass rand n indices indptr st = Ok st' →
  while_changed rand n indices indptr (S fuel) st =
    while_changed rand n indices indptr fuel st'.
Proof. intros Hch Hpass. simpl. by rewrite Hch, Hpass. Qed.

Lemma pass_of_shuffle (n : Z) (indices indptr : list Z) st (o : list Z) g' :
  shuffle rand (order st) n (gen st) = Ok (o, g') →
  pass rand n indices indptr st =
    forM (node_step indices indptr) (range 0 n)
      (set_changed false (set_gen g' (set_order o st))).
Proof. unfold pass, pass_enter. by intros ->. Qed.

(** The shuffle of two elements is one draw. *)
Lemma shuffle_two (x y : Z) g :
  shuffle rand [x; y] 2 g =
    Ok (if (rand g).1 mod 2 =? 0 then [y; x] else [x; y], (rand g).2).
Proof.
  rewrite (shuffle_fisher_yates rand rand_nonneg) by (simpl; lia).
  change (Z.to_nat (2 - 1)) with 1%nat. cbn [fisher_yates].
  destruct (rand g) as [r g'] eqn:Hg. cbn [fst snd].
  change (Z.of_nat 1 + 1) with 2.
  pose proof (Z.mod_pos_bound r 2 ltac:(lia)) as Hr.
  assert (r mod 2 = 0 ∨ r mod 2 = 1) as [-> | ->] by lia; reflexivity.
Qed.

(** C9.  The graph of two nodes that are each other's only neighbour: the
    first pass visits them in the order [[a; b]] the shuffle draws; node
    [a], visited first, takes the label [b] of the other node (tally 1
    against 0) and [changed] is set; node [b], visited second, keeps it.
    The second pass changes nothing, and [fit_core] returns [[b; b]] after
    these two passes, with the generator two draws later. *)
Theorem two_node_graph g :
  ∃ a b st0 e1 m1 st1 st2,
    (a = 0 ∧ b = 1 ∨ a = 1 ∧ b = 0) ∧
    init_state 2 g = Ok st0 ∧
    pass_enter rand 2 st0 = Ok e1 ∧ order e1 = [a; b] ∧
    node_step [1; 0] [0; 1; 2] 0 e1 = Ok m1 ∧
    labels m1 = [b; b] ∧ changed m1 = true ∧
    node_step [1; 0] [0; 1; 2] 1 m1 = Ok st1 ∧
    labels st1 = [b; b] ∧
    pass rand 2 [1; 0] [0; 1; 2] st0 = Ok st1 ∧
    pass rand 2 [1; 0] [0; 1; 2] st1 = Ok st2 ∧
    labels st2 = [b; b] ∧ changed st2 = false ∧
    fit_core rand 2 [1; 0] [0; 1; 2] 1 g = None ∧
    ∀ fuel, fit_core rand 2 [1; 0] [0; 1; 2] (S (S fuel)) g =
              Some (Ok ([b; b], draws rand 2 g)).
Proof.
  set (st0 := State [0; 1] [0; 1] [Some 0; Some 0] [None; None] 0 0 true g).
  assert (init_state 2 g = Ok st0) as Hinit by reflexivity.
  set (g1 := (rand g).2).
  set (g2 := (rand g1).2).
  assert (draws rand 2 g = g2) as Hdraws by reflexivity.
  assert (∃ a b, (a = 0 ∧ b = 1 ∨ a = 1 ∧ b = 0) ∧
            shuffle rand [0; 1] 2 g = Ok ([a; b], g1))
    as (a & b & Hab & Hsh1).
  { rewrite shuffle_two. fold g1.
    destruct ((rand g).1 mod 2 =? 0); [exists 1, 0|exists 0, 1];
      (split; [lia|reflexivity]). }
  assert (∃ c d, (c = 0 ∧ d = 1 ∨ c = 1 ∧ d = 0) ∧
            shuffle rand [a; b] 2 g1 = Ok ([c; d], g2))
    as (c & d & Hcd & Hsh2).
  { rewrite shuffle_two. fold g2.
    destruct ((rand g1).1 mod 2 =? 0), Hab as [[-> ->]|[-> ->]];
      eexists _, _; (split; [|reflexivity]); lia. }
  set (e1 := State [0; 1] [a; b] [Some 0; Some 0] [None; None] 0 0 false g1).
  set (m1 := State [b; b] [a; b] [Some 0; Some 0] [Some b; None] 1 1 true g1).
  set (st2 := State [b; b] [c; d] [Some 0; Some 0] [Some b; None] 1 1 false g2).
  assert (node_step [1; 0] [0; 1; 2] 0 e1 = Ok m1) as Hn0
    by (destruct Hab as [[-> ->]|[-> ->]]; reflexivity).
  assert (node_step [1; 0] [0; 1; 2] 1 m1 = Ok m1) as Hn1
    by (destruct Hab as [[-> ->]|[-> ->]]; reflexivity).
  assert (pass rand 2 [1; 0] [0; 1; 2] st0 = Ok m1) as Hp1.
  { rewrite (pass_of_shuffle _ _ _ st0 _ _ Hsh1).
    change (range 0 2) with [0; 1]. cbn [forM].
    change (set_changed false (set_gen g1 (set_order [a; b] st0))) with e1.
    by rewrite Hn0, Hn1. }
  assert (pass rand 2 [1; 0] [0; 1; 2] m1 = Ok st2) as Hp2.
  { rewrite (pass_of_shuffle _ _ _ m1 _ _ Hsh2).
    destruct Hab as [[-> ->]|[-> ->]], Hcd as [[-> ->]|[-> ->]]; reflexivity. }
  exists a, b, st0, e1, m1, m1, st2. split_and!; try done.
  - unfold pass_enter, st0. cbn [order gen]. by rewrite Hsh1.
  - unfold fit_core, run. rewrite Hinit.
    rewrite (while_changed_step _ _ _ _ st0 m1) by done. reflexivity.
  - intros fuel. unfold fit_core, run. rewrite Hinit.
    rewrite (while_changed_step _ _ _ _ st0 m1) by done.
    rewrite (while_changed_step _ _ _ _ m1 st2) by done.
    rewrite while_changed_done by done. by rewrite Hdraws.
Qed.

End SmallGraphs.

(** ** Fuel, and the generator *)

Section Fuel.

Context {rng_state : Type}.
Variable rand : rng_state → Z * rng_state.
Variables (n : Z) (indices indptr : list Z).
Implicit Types (st : state rng_state) (g : rng_state).

(** More passes do not change the answer. *)
Lemma while_changed_mono (fuel fuel' : nat) st (r : res (state rng_state)) :
  while_changed rand n indices indptr fuel st = Some r →
  (fuel ≤ fuel')%nat →
  while_changed rand n indices indptr fuel' st = Some r.
Proof.
  revert fuel' st. induction fuel as [|fuel IH]; intros fuel' st Hrun Hle.
  - simpl in Hrun. destruct fuel'; simpl; by destruct (changed st).
  - destruct fuel' as [|fuel']; [lia|]. simpl in *.
    destruct (changed st); [|done].
    destruct (pass rand n indices indptr st); [|done].
    apply IH; [done|lia].
Qed.

Lemma while_trace_prefix (inner : Z → state rng_state → list (state rng_state))
    (fuel fuel' : nat) st :
  (fuel ≤ fuel')%nat →
  while_trace rand n indices indptr inner fuel st `prefix_of`
    while_trace rand n indices indptr inner fuel' st.
Proof.
  revert fuel' st. induction fuel as [|fuel IH]; intros fuel' st Hle.
  - simpl. destruct (changed st); apply prefix_nil.
  - destruct fuel' as [|fuel']; [lia|]. simpl.
    destruct (changed st); [|done].
    apply prefix_app.
    destruct (pass rand n indices indptr st); [|done].
    apply prefix_cons. apply IH. lia.
Qed.

Lemma fit_core_mono (fuel fuel' : nat) g (r : res (list Z * rng_state)) :
  fit_core rand n indices indptr fuel g = Some r →
  (fuel ≤ fuel')%nat →
  fit_core rand n indices indptr fuel' g = Some r.
Proof.
  unfold fit_core, run. intros Hrun Hle.
  destruct (init_state n g) as [st|e]; [|done].
  destruct (while_changed rand n indices indptr fuel st) as [r0|] eqn:Hw;
    [|done].
  by rewrite (while_changed_mono fuel fuel' st r0 Hw Hle).
Qed.

Lemma run_trace_prefix (inner : Z → state rng_state → list (state rng_state))
    (fuel fuel' : nat) g :
  (fuel ≤ fuel')%nat →
  run_trace rand n indices indptr inner fuel g `prefix_of`
    run_trace rand n indices indptr inner fuel' g.
Proof.
  intros Hle. unfold run_trace. destruct (init_state n g); [|done].
  apply prefix_cons. by apply while_trace_prefix.
Qed.

Lemma forM_preserves {T A : Type} (f : T → A) (body : Z → T → res T)
    (xs : list Z) (s s' : T) :
  (∀ x s0 s1, body x s0 = Ok s1 → f s1 = f s0) →
  forM body xs s = Ok s' → f s' = f s.
Proof.
  intros Hbody. revert s. induction xs as [|x xs IH]; intros s; simpl.
  - by intros [= ->].
  - destruct (body x s) as [s1|e] eqn:Hx; [|done].
    intros Hrun. rewrite (IH _ Hrun). by eapply Hbody.
Qed.

Lemma tally_step_gen (j : Z) st st' :
  tally_step indices j st = Ok st' → gen st' = gen st.
Proof.
  unfold tally_step. intros Hstep.
  apply bind_Ok in Hstep as (lab & _ & Hstep).
  apply bind_Ok in Hstep as (c & _ & Hstep).
  apply bind_Ok in Hstep as (st1 & Hst1 & Hstep).
  apply bind_Ok in Hstep as (nb & _ & [= <-]).
  destruct (c =? 0).
  - apply bind_Ok in Hst1 as (lst' & _ & [= <-]). done.
  - by injection Hst1 as <-.
Qed.

Lemma select_step_gen (i j : Z) st st' :
  select_step i j st = Ok st' → gen st' = gen st.
Proof.
  unfold select_step. intros Hstep.
  apply bind_Ok in Hstep as (lab & _ & Hstep).
  apply bind_Ok in Hstep as (c & _ & Hstep).
  apply bind_Ok in Hstep as (st1 & Hst1 & Hstep).
  apply bind_Ok in Hstep as (nb & _ & [= <-]).
  destruct (nb_lab_max st <? c).
  - apply bind_Ok in Hst1 as (labels' & _ & [= <-]). done.
  - by injection Hst1 as <-.
Qed.

Lemma node_step_gen (k : Z) st st' :
  node_step indices indptr k st = Ok st' → gen st' = gen st.
Proof.
  unfold node_step, node_enter, count_neighbors, select_init.
  intros Hstep. apply bind_Ok in Hstep as ([i st2] & Henter & Hsel).
  apply bind_Ok in Henter as (i' & _ & Henter).
  apply bind_Ok in Henter as (st1 & Hcount & Henter).
  apply bind_Ok in Henter as (st2' & Hinit & [= <- <-]).
  apply bind_Ok in Hcount as ([lo hi] & _ & Hcount).
  apply bind_Ok in Hinit as (own & _ & Hinit).
  apply bind_Ok in Hinit as (m & _ & [= <-]).
  rewrite (forM_preserves gen _ _ _ _ (select_step_gen i') Hsel).
  simpl. by rewrite (forM_preserves gen _ _ _ _ tally_step_gen Hcount).
Qed.

Lemma shuffle_draws (xs : list Z) (arr arr' : list Z) g g' :
  forM (shuffle_step rand) xs (arr, g) = Ok (arr', g') →
  g' = draws rand (length xs) g.
Proof.
  revert arr g. induction xs as [|x xs IH]; intros arr g; cbn [forM length].
  - by intros [= _ ->].
  - unfold shuffle_step at 1. destruct (rand g) as [r g1] eqn:Hg.
    destruct (_ ≫= _) as [[arr1 g1']|e] eqn:Hstep; [|done].
    apply bind_Ok in Hstep as (? & _ & Hstep).
    apply bind_Ok in Hstep as (? & _ & Hstep).
    apply bind_Ok in Hstep as (? & _ & Hstep).
    apply bind_Ok in Hstep as (? & _ & [= _ <-]).
    intros ->%IH. unfold draws. rewrite Nat.iter_succ_r. by rewrite Hg.
Qed.

Lemma draws_add (p q : nat) g :
  draws rand q (draws rand p g) = draws rand (p + q) g.
Proof.
  unfold draws. rewrite Nat.add_comm. by rewrite Nat.iter_add.
Qed.

(** A pass only draws from the generator. *)
Lemma pass_gen st st' :
  pass rand n indices indptr st = Ok st' →
  ∃ p, gen st' = draws rand p (gen st).
Proof.
  unfold pass, pass_enter, shuffle. intros Hpass.
  apply bind_Ok in Hpass as (st0 & Henter & Hloop).
  apply bind_Ok in Henter as ([o g'] & Hsh & [= <-]).
  apply shuffle_draws in Hsh as ->.
  rewrite (forM_preserves gen _ _ _ _ node_step_gen Hloop). setters.
  by eexists.
Qed.

Lemma while_gen (fuel : nat) st st' :
  while_changed rand n indices indptr fuel st = Some (Ok st') →
  ∃ p, gen st' = draws rand p (gen st).
Proof.
  revert st. induction fuel as [|fuel IH]; intros st; simpl.
  - destruct (changed st); [done|]. intros [= <-]. by exists 0%nat.
  - destruct (changed st); [|intros [= <-]; by exists 0%nat].
    destruct (pass rand n indices indptr st) as [st1|e] eqn:Hpass; [|done].
    intros (q & ->)%IH. apply pass_gen in Hpass as (p & ->).
    exists (p + q)%nat. apply draws_add.
Qed.

(** [fit_core] leaves the generator some draws later. *)
Lemma fit_core_gen (fuel : nat) g (l : list Z) g' :
  fit_core rand n indices indptr fuel g = Some (Ok (l, g')) →
  ∃ p, g' = draws rand p g.
Proof.
  unfold fit_core, run. destruct (init_state n g) as [st|e] eqn:Hinit; [|done].
  destruct (while_changed rand n indices indptr fuel st) as [[st'|e]|] eqn:Hw;
    [|done..].
  intros [= _ <-]. apply while_gen in Hw as (p & ->). exists p. f_equal.
  unfold init_state in Hinit.
  apply bind_Ok in Hinit as (? & _ & Hinit).
  apply bind_Ok in Hinit as (? & _ & Hinit).
  by apply bind_Ok in Hinit as (? & _ & [= <-]).
Qed.

End Fuel.

(** ** The shuffle (C5) *)

Section ShuffleClaim.

Context {rng_state : Type}.
Variable rand : rng_state → Z * rng_state.
Hypothesis rand_nonneg : ∀ g, 0 ≤ (rand g).1.

(** C5, as the code has it.  [shuffle(arr, n)] is the Fisher-Yates
    traversal of the specification: for [i] from [n-1] down to [1] it takes
    [j = rand() % (i+1)], which lies in [[0, i]], and swaps the elements at
    [i] and [j].  The result is a permutation of the sequence, the
    generator is left [n-1] draws later and nothing else is touched; for
    [n = 0] and [n = 1] the sequence and the generator are unchanged.
    Uniformity is not part of it. *)
Theorem shuffle_fisher_yates_permutation (arr : list Z) (n : Z)
    (g : rng_state) :
  n ≤ Z.of_nat (length arr) →
  shuffle rand arr n g = Ok (fisher_yates rand (Z.to_nat (n - 1)) arr g) ∧
  (fisher_yates rand (Z.to_nat (n - 1)) arr g).1 ≡ₚ arr ∧
  (fisher_yates rand (Z.to_nat (n - 1)) arr g).2 =
    draws rand (Z.to_nat (n - 1)) g ∧
  (∀ g0 i, 0 ≤ i →
     pick (rand g0).1 i = (rand g0).1 mod (i + 1) ∧
     0 ≤ pick (rand g0).1 i ≤ i) ∧
  (n ≤ 1 → shuffle rand arr n g = Ok (arr, g)).
Proof.
  intros Hn. split_and!.
  - by apply shuffle_fisher_yates.
  - apply fisher_yates_Permutation.
  - apply fisher_yates_draws.
  - intros g0 i Hi. pose proof (rand_nonneg g0).
    split; [by apply pick_mod|by apply pick_range].
  - intros Hle. rewrite shuffle_fisher_yates by done.
    by replace (Z.to_nat (n - 1)) with 0%nat by lia.
Qed.

End ShuffleClaim.

(** *** The orderings are not equally likely *)

Section Distribution.

Lemma tape_rand_nonneg (t : list nat) : 0 ≤ (tape_rand t).1.
Proof. destruct t; simpl; lia. Qed.

Lemma length_tapes (rand_max : Z) (k : nat) :
  length (tapes rand_max k) = (Z.to_nat (rand_max + 1) ^ k)%nat.
Proof.
  induction k as [|k IH]; [done|].
  assert (∀ rs : list nat,
            length (rs ≫= λ r, (λ t, r :: t) <$> tapes rand_max k) =
            (length rs * length (tapes rand_max k))%nat) as Hbind.
  { induction rs as [|r rs IHrs]; [done|].
    rewrite bind_cons, length_app, length_fmap, IHrs. simpl. lia. }
  cbn [tapes]. rewrite Hbind, length_seq, IH. by rewrite Nat.pow_succ_r'.
Qed.

Lemma sum_indicator_absent (outs : list (list Z)) (o : list Z) :
  o ∉ outs →
  sum_list ((λ o', if decide (Some o = Some o') then 1 else 0)%nat <$> outs) = 0%nat.
Proof.
  induction outs as [|o' outs IH]; [done|].
  intros [Hne Hnin]%not_elem_of_cons. csimpl.
  rewrite decide_False by congruence. by rewrite IH.
Qed.

Lemma sum_indicator_present (outs : list (list Z)) (o : list Z) :
  NoDup outs → o ∈ outs →
  sum_list ((λ o', if decide (Some o = Some o') then 1 else 0)%nat <$> outs) = 1%nat.
Proof.
  induction outs as [|o' outs IH]; [by intros _ ?%elem_of_nil|].
  intros [Hnin Hnd]%NoDup_cons [->|Hin]%elem_of_cons; csimpl.
  - rewrite decide_True by done. by rewrite sum_indicator_absent.
  - rewrite decide_False by (intros [= ->]; done). by rewrite IH.
Qed.

(** Every output sequence produces exactly one ordering. *)
Lemma count_partition (f : list nat → option (list Z))
    (outs : list (list Z)) (ts : list (list nat)) :
  NoDup outs →
  Forall (λ t, ∃ o, f t = Some o ∧ o ∈ outs) ts →
  sum_list ((λ o, length (filter (λ t, f t = Some o) ts)) <$> outs) = length ts.
Proof.
  intros Hnd. induction ts as [|t ts IH]; intros Hts.
  - csimpl. by rewrite sum_list_fmap_const, Nat.mul_0_r.
  - apply Forall_cons in Hts as [(o & Ho & Hin) Hts]. specialize (IH Hts).
    cbn [length].
    rewrite <- IH, <- Nat.add_1_l, <- (sum_indicator_present outs o Hnd Hin).
    clear IH Hin Hnd Hts. induction outs as [|o' outs IHo]; [done|].
    csimpl. rewrite IHo. rewrite filter_cons, Ho.
    destruct (decide (Some o = Some o')); simpl; lia.
Qed.

Lemma shuffled_Permutation (arr : list Z) (t : list nat) :
  ∃ o, shuffled arr t = Some o ∧ arr ≡ₚ o.
Proof.
  unfold shuffled.
  rewrite (shuffle_fisher_yates tape_rand tape_rand_nonneg) by lia.
  pose proof (fisher_yates_Permutation tape_rand
                (Z.to_nat (Z.of_nat (length arr) - 1)) arr t) as Hperm.
  destruct (fisher_yates _ _ _ _) as [o t']. by exists o.
Qed.

(** Three elements have 6 orderings, and 6 does not divide the number of
    pairs of outputs unless 3 divides [rand_max + 1]. *)
Lemma shuffle_bias (rand_max : Z) :
  0 ≤ rand_max → (rand_max + 1) mod 3 ≠ 0 →
  ¬ uniform_shuffle rand_max [0; 1; 2].
Proof.
  intros HM Hmod Huni.
  set (outs := permutations [0; 1; 2]).
  assert (NoDup outs) as Hnd by compute_done.
  pose proof (count_partition (shuffled [0; 1; 2]) outs (tapes rand_max 2) Hnd)
    as Htotal.
  rewrite (sum_list_fmap_same (ways rand_max [0; 1; 2] [0; 1; 2])) in Htotal.
  - rewrite length_tapes in Htotal.
    change (length outs) with 6%nat in Htotal.
    assert (6 * Z.of_nat (ways rand_max [0; 1; 2] [0; 1; 2]) =
            (rand_max + 1) * (rand_max + 1)) as Heq.
    { rewrite <- Nat2Z.inj_mul with (n := 6%nat), Htotal; [|..].
      - rewrite Nat.pow_2_r, Nat2Z.inj_mul, Z2Nat.id by lia. done.
      - apply Forall_forall. intros t _.
        destruct (shuffled_Permutation [0; 1; 2] t) as (o & Ho & Hperm).
        exists o. split; [done|]. by apply permutations_Permutation. }
    assert (((rand_max + 1) * (rand_max + 1)) mod 3 = 1) as Hsq.
    { rewrite Z.mul_mod by lia.
      pose proof (Z.mod_pos_bound (rand_max + 1) 3 ltac:(lia)) as Hr.
      assert ((rand_max + 1) mod 3 = 1 ∨ (rand_max + 1) mod 3 = 2) as [->| ->]
        by lia; done. }
    rewrite <- Heq in Hsq.
    replace (6 * Z.of_nat (ways rand_max [0; 1; 2] [0; 1; 2]))
      with (2 * Z.of_nat (ways rand_max [0; 1; 2] [0; 1; 2]) * 3) in Hsq by lia.
    by rewrite Z_mod_mult in Hsq.
  - apply Forall_forall. intros o Ho%permutations_Permutation.
    by apply Huni.
Qed.

End Distribution.

(** ** The class (C2, C6, C10) *)

Section Class.

Context {rng_state : Type}.
Variable rand : rng_state → Z * rng_state.
Variable srand : Z → rng_state.
Implicit Types (g : rng_state) (h : heap) (adj : csr_matrix).

(** The conversions at the call of [fit_core] leave the values as they
    are, and fail on a [shape[0]] that is no C [int] or a buffer that is no
    writable buffer of C [int]s. *)
Lemma fit_core_args_Ok adj (n : Z) (indices indptr : list Z) :
  fit_core_args adj = Ok (n, indices, indptr) ↔
  n = shape0 adj ∧ indices = csr_indices adj ∧ indptr = csr_indptr adj ∧
  - 2 ^ 31 ≤ shape0 adj < 2 ^ 31 ∧
  c_int_buffer (indices_buffer adj) ∧ c_int_buffer (indptr_buffer adj).
Proof.
  unfold fit_core_args, as_int, as_int_memoryview, c_int_buffer.
  destruct (Z.leb_spec (- 2 ^ 31) (shape0 adj)),
    (Z.ltb_spec (shape0 adj) (2 ^ 31)),
    (indices_buffer adj) as [[] []], (indptr_buffer adj) as [[] []];
    simpl; split; try done; try (intros (_ & _ & _ & ? & ? & ?); lia);
    try (by intros (_ & _ & _ & _ & [? ?] & [? ?])).
  - intros [= <- <- <-]. split_and!; (done || lia).
  - by intros (-> & -> & -> & _).
Qed.

Lemma fit_core_args_Err adj (e : exn) :
  fit_core_args adj = Err e →
  e = OverflowError ∧ ¬ (- 2 ^ 31 ≤ shape0 adj < 2 ^ 31) ∨
  e = ValueError ∧ - 2 ^ 31 ≤ shape0 adj < 2 ^ 31 ∧
    ¬ (c_int_buffer (indices_buffer adj) ∧ c_int_buffer (indptr_buffer adj)).
Proof.
  unfold fit_core_args, as_int, as_int_memoryview, c_int_buffer.
  destruct (Z.leb_spec (- 2 ^ 31) (shape0 adj)),
    (Z.ltb_spec (shape0 adj) (2 ^ 31)),
    (indices_buffer adj) as [[] []], (indptr_buffer adj) as [[] []];
    simpl; intros [= <-];
    first [left; split; [done|lia]
          |right; split; [done|]; split; [lia|]; by intros [[? ?] [? ?]]].
Qed.

(** C6.  Two calls of [fit] on the same graph by objects with the same
    integer seed, started in any two heaps and with any two states of the
    generator (and allowed any numbers of passes): the labels arrays of
    the two runs are the same when the loop is entered and after every pass
    that both runs reach, and when both calls return, [labels_] holds equal
    arrays and the generator is left in the same state. *)
Theorem seeded_runs_agree (fuel1 fuel2 : nat) (self1 self2 : loc) adj
    h1 h2 g1 g2 (obj1 obj2 : LabelPropagation) (k : Z) :
  objects h1 !! self1 = Some obj1 → seed obj1 = Some k →
  objects h2 !! self2 = Some obj2 → seed obj2 = Some k →
  (∀ p l1 l2,
     fit_passes rand srand fuel1 self1 adj h1 g1 !! p = Some l1 →
     fit_passes rand srand fuel2 self2 adj h2 g2 !! p = Some l2 →
     l1 = l2) ∧
  (fuel1 = fuel2 →
     fit_passes rand srand fuel1 self1 adj h1 g1 =
     fit_passes rand srand fuel2 self2 adj h2 g2) ∧
  (∀ r1 h1' g1' r2 h2' g2',
     fit rand srand fuel1 self1 adj h1 g1 = Some (Returns r1 h1' g1') →
     fit rand srand fuel2 self2 adj h2 g2 = Some (Returns r2 h2' g2') →
     is_Some (fitted_labels h1' self1) ∧
     fitted_labels h1' self1 = fitted_labels h2' self2 ∧ g1' = g2').
Proof.
  intros Ho1 Hs1 Ho2 Hs2.
  assert (∀ fa fb self self' ha hb ga gb oa ob,
            objects ha !! self = Some oa → seed oa = Some k →
            objects hb !! self' = Some ob → seed ob = Some k →
            (fa ≤ fb)%nat →
            fit_passes rand srand fa self adj ha ga `prefix_of`
              fit_passes rand srand fb self' adj hb gb) as Hprefix.
  { intros fa fb self self' ha hb ga gb oa ob Ha Hsa Hb Hsb Hle.
    unfold fit_passes. rewrite Ha, Hb, Hsa, Hsb. simpl.
    destruct (as_unsigned_int k) as [u|e]; [|done].
    destruct (fit_core_args adj) as [[[n indices] indptr]|e]; [|done].
    pose proof (run_trace_prefix rand n indices indptr no_inner fa fb
                  (srand u) Hle) as [rest ->].
    exists (labels <$> rest). by rewrite fmap_app. }
  split_and!.
  - intros p l1 l2 Hl1 Hl2. destruct (Nat.le_ge_cases fuel1 fuel2) as [Hle|Hle].
    + pose proof (Hprefix fuel1 fuel2 self1 self2 h1 h2 g1 g2 _ _
                    Ho1 Hs1 Ho2 Hs2 Hle) as Hpre.
      rewrite (prefix_lookup_Some _ _ _ _ Hl1 Hpre) in Hl2. congruence.
    + pose proof (Hprefix fuel2 fuel1 self2 self1 h2 h1 g2 g1 _ _
                    Ho2 Hs2 Ho1 Hs1 Hle) as Hpre.
      rewrite (prefix_lookup_Some _ _ _ _ Hl2 Hpre) in Hl1. congruence.
  - intros <-. unfold fit_passes. by rewrite Ho1, Ho2, Hs1, Hs2.
  - intros r1 h1' g1' r2 h2' g2'. unfold fit.
    rewrite Ho1, Ho2, Hs1, Hs2. simpl.
    destruct (as_unsigned_int k) as [u|e]; [|done].
    destruct (fit_core_args adj) as [[[n indices] indptr]|e]; [|done].
    destruct (fit_core rand n indices indptr fuel1 (srand u))
      as [[[l1 ga]|e]|] eqn:Hrun1; [|done..].
    destruct (fit_core rand n indices indptr fuel2 (srand u))
      as [[[l2 gb]|e]|] eqn:Hrun2; [|done..].
    intros [= <- <- <-] [= <- <- <-].
    assert (l1 = l2 ∧ ga = gb) as [<- <-].
    { destruct (Nat.le_ge_cases fuel1 fuel2) as [Hle|Hle].
      - rewrite (fit_core_mono rand _ _ _ _ _ _ _ Hrun1 Hle) in Hrun2.
        by injection Hrun2 as <- <-.
      - rewrite (fit_core_mono rand _ _ _ _ _ _ _ Hrun2 Hle) in Hrun1.
        by injection Hrun1 as <- <-. }
    unfold fitted_labels. simpl. rewrite !lookup_insert_eq. simpl.
    rewrite !lookup_insert_eq. split_and!; [by eexists|done|done].
Qed.

(** [labels_] is assigned after [fit_core] has returned. *)
Lemma fit_Raises_heap (fuel : nat) (self : loc) adj h g (e : exn) h' :
  fit rand srand fuel self adj h g = Some (Raises e h') → h' = h.
Proof.
  unfold fit. destruct (objects h !! self) as [obj|]; [|by intros [= _ <-]].
  destruct (seed_generator srand (seed obj) g) as [g1|e1];
    [|by intros [= _ <-]].
  destruct (fit_core_args adj) as [[[n indices] indptr]|e1];
    [|by intros [= _ <-]].
  destruct (fit_core rand n indices indptr fuel g1) as [[[result g2]|e2]|];
    [done| |done].
  by intros [= _ <-].
Qed.

(** C10, as the code has it.  A call of [fit] that returns, returns [self];
    in the heap it leaves, [self] has its [seed] as before and a [labels_]
    that refers to a new array, and every other object and array is as it
    was; the generator is reseeded by [srand] when the seed is an integer
    and then advanced by the draws of the shuffles.  [fit_transform]
    returns the reference that [fit] stored in [labels_].  A call that
    raises leaves the heap as it was. *)
Theorem fit_frame (fuel : nat) (self : loc) adj h g :
  match fit rand srand fuel self adj h g with
  | Some (Returns r h' g') =>
      r = self ∧
      ∃ obj a result g1 p,
        objects h !! self = Some obj ∧
        (a ∉ dom (arrays h)) ∧
        objects h' = <[self := Object (Some a) (seed obj)]> (objects h) ∧
        arrays h' = <[a := result]> (arrays h) ∧
        seed_generator srand (seed obj) g = Ok g1 ∧
        fit_core rand (shape0 adj) (csr_indices adj) (csr_indptr adj) fuel g1
          = Some (Ok (result, g')) ∧
        g' = draws rand p g1 ∧
        fit_transform rand srand fuel self adj h g =
          Some (Returns (Some a) h' g')
  | Some (Raises e h') =>
      h' = h ∧ fit_transform rand srand fuel self adj h g = Some (Raises e h)
  | None => fit_transform rand srand fuel self adj h g = None
  end.
Proof.
  unfold fit_transform. unfold fit.
  destruct (objects h !! self) as [obj|] eqn:Hobj; [|done].
  destruct (seed_generator srand (seed obj) g) as [g1|e] eqn:Hseed; [|done].
  destruct (fit_core_args adj) as [[[n indices] indptr]|e] eqn:Hargs; [|done].
  apply fit_core_args_Ok in Hargs as (-> & -> & -> & _).
  destruct (fit_core rand (shape0 adj) (csr_indices adj) (csr_indptr adj)
              fuel g1) as [[[result g2]|e]|] eqn:Hrun; [|done..].
  split; [done|].
  destruct (fit_core_gen rand _ _ _ _ _ _ _ Hrun) as (p & Hp).
  exists obj, (fresh (dom (arrays h))), result, g1, p.
  split_and!; try done; [apply is_fresh|].
  simpl. by rewrite lookup_insert_eq.
Qed.

End Class.

Section Validation.

Context {rng_state : Type}.
Variable rand : rng_state → Z * rng_state.
Hypothesis rand_nonneg : ∀ g, 0 ≤ (rand g).1.
Variable srand : Z → rng_state.

(** C2, as the code has it.  Nothing checks the graph before the loop.
    [fit_core] fails only where it runs into a failed access: [reserve]
    throws on a negative [n_nodes], and otherwise the failure is the
    [IndexError] of a bounds-checked read of the row of some node, raised
    when that read is executed.  The unchecked accesses to the tally table
    and the scratch list never leave their storage ([Undefined] is never
    the outcome), whatever the input.  An input on which every row can be
    read is not rejected, valid or not: the run does not fail, and returns
    labels when its loop ends.  [fit] raises for these two reasons and
    otherwise only when [self.seed], [shape[0]] or an index array does not
    convert to the C type of the parameter it is passed for (or when
    [self] is no object of the heap); whenever it raises it leaves the
    heap as it was: [labels_] is not assigned. *)
Theorem unvalidated_input (fuel : nat) (self : loc) (adj : csr_matrix)
    (h : heap) (g : rng_state) :
  let n := shape0 adj in
  let indices := csr_indices adj in
  let indptr := csr_indptr adj in
  (∀ g1 e, fit_core rand n indices indptr fuel g1 = Some (Err e) →
     n < 0 ∧ e = LengthError ∨
     0 ≤ n ∧ e = IndexError ∧ ¬ rows_readable rng_state n indices indptr) ∧
  (0 ≤ n → rows_readable rng_state n indices indptr →
     ∀ g1, match fit_core rand n indices indptr fuel g1 with
           | Some (Err _) => False
           | _ => True
           end) ∧
  (∀ e h', fit rand srand fuel self adj h g = Some (Raises e h') →
     h' = h ∧
     (e = AttributeError ∧ objects h !! self = None ∨
      e = OverflowError ∧
        ((∃ obj k, objects h !! self = Some obj ∧ seed obj = Some k ∧
                   ¬ (0 ≤ k < 2 ^ 32)) ∨
         ¬ (- 2 ^ 31 ≤ n < 2 ^ 31)) ∨
      e = ValueError ∧
        ¬ (c_int_buffer (indices_buffer adj) ∧
           c_int_buffer (indptr_buffer adj)) ∨
      e = LengthError ∧ n < 0 ∨
      e = IndexError ∧ 0 ≤ n ∧
        ¬ rows_readable rng_state n indices indptr)) ∧
  (∀ obj, objects h !! self = Some obj →
     (∀ k, seed obj = Some k → 0 ≤ k < 2 ^ 32) →
     0 ≤ n < 2 ^ 31 →
     c_int_buffer (indices_buffer adj) → c_int_buffer (indptr_buffer adj) →
     rows_readable rng_state n indices indptr →
     match fit rand srand fuel self adj h g with
     | Some (Raises _ _) => False
     | _ => True
     end).
Proof.
  intros n indices indptr.
  assert (∀ g1 e, fit_core rand n indices indptr fuel g1 = Some (Err e) →
            n < 0 ∧ e = LengthError ∨
            0 ≤ n ∧ e = IndexError ∧
              ¬ rows_readable rng_state n indices indptr) as Hfail.
  { intros g1 e. unfold fit_core. destruct (decide (0 ≤ n)) as [Hn|Hn].
    - pose proof (run_inv rand rand_nonneg n indices indptr (λ _, True)
                    ltac:(done) fuel g1 Hn I) as Hrun.
      destruct (run rand n indices indptr fuel g1) as [[st|e']|]; [done| |done].
      intros [= <-]. right. by destruct Hrun.
    - unfold run. rewrite init_state_neg by lia. intros [= <-]. left.
      split; [lia|done]. }
  assert (∀ e h', fit rand srand fuel self adj h g = Some (Raises e h') →
            e = AttributeError ∧ objects h !! self = None ∨
            e = OverflowError ∧
              ((∃ obj k, objects h !! self = Some obj ∧ seed obj = Some k ∧
                         ¬ (0 ≤ k < 2 ^ 32)) ∨
               ¬ (- 2 ^ 31 ≤ n < 2 ^ 31)) ∨
            e = ValueError ∧
              ¬ (c_int_buffer (indices_buffer adj) ∧
                 c_int_buffer (indptr_buffer adj)) ∨
            e = LengthError ∧ n < 0 ∨
            e = IndexError ∧ 0 ≤ n ∧
              ¬ rows_readable rng_state n indices indptr) as Hwhy.
  { intros e h'. unfold fit.
    destruct (objects h !! self) as [obj|] eqn:Hobj;
      [|intros [= <- _]; by left].
    destruct (seed_generator srand (seed obj) g) as [g1|e1] eqn:Hseed.
    - destruct (fit_core_args adj) as [[[n' indices'] indptr']|e1] eqn:Hargs.
      + apply fit_core_args_Ok in Hargs as (-> & -> & -> & _).
        destruct (fit_core rand (shape0 adj) (csr_indices adj)
                    (csr_indptr adj) fuel g1) as [[[l g2]|e2]|] eqn:Hrun;
          [done| |done].
        intros [= <- _].
        destruct (Hfail g1 e2 Hrun) as [[? ->]|(? & -> & ?)]; auto 10.
      + intros [= <- _].
        destruct (fit_core_args_Err adj e1 Hargs) as [[-> ?]|(-> & _ & ?)];
          auto 10.
    - intros [= <- _]. right. left. unfold seed_generator in Hseed.
      destruct (seed obj) as [k|] eqn:Hk; [|done].
      unfold as_unsigned_int in Hseed.
      destruct (Z.leb_spec 0 k), (Z.ltb_spec k (2 ^ 32)); simpl in Hseed;
        try done; injection Hseed as <-;
        (split; [done|]; left; exists obj, k; split_and!; (done || lia)). }
  split_and!; [done| | |].
  - intros Hn Hreads g1.
    destruct (fit_core rand n indices indptr fuel g1) as [[?|e]|] eqn:Hrun;
      [done| |done].
    destruct (Hfail g1 e Hrun) as [[? _]|(_ & _ & Hno)]; [lia|by apply Hno].
  - intros e h' Hfit. split; [by eapply fit_Raises_heap|by eapply Hwhy].
  - intros obj Hobj Hseed Hn Hb1 Hb2 Hreads.
    destruct (fit rand srand fuel self adj h g) as [[r h' g'|e h']|] eqn:Hfit;
      [done| |done].
    destruct (Hwhy e h' eq_refl)
      as [[_ Hnone]|[[_ Hov]|[[_ Hval]|[[_ Hneg]|(_ & _ & Hno)]]]].
    + congruence.
    + destruct Hov as [(obj' & k & Ho & Hk & Hr)|Hr]; [|lia].
      assert (obj' = obj) as -> by congruence. specialize (Hseed k Hk). lia.
    + tauto.
    + lia.
    + done.
Qed.

End Validation.

(** * Further properties of the code

    What the loop converges to, when it ends, what it draws and visits,
    and the edges of its input: properties of [shuffle], [fit_core],
    [fit] and [fit_transform] beyond the sentences of the specification.
    Each is numbered X1, X2, ... *)

(** ** The order of a pass (X7) *)

Section Order.

Context {rng_state : Type}.
Variable rand : rng_state → Z * rng_state.
Hypothesis rand_nonneg : ∀ g, 0 ≤ (rand g).1.
Variables (n : Z) (indices indptr : list Z).
Implicit Types (st : state rng_state) (g : rng_state).

Lemma tally_step_order (j : Z) st st' :
  tally_step indices j st = Ok st' → order st' = order st.
Proof.
  unfold tally_step. intros Hstep.
  apply bind_Ok in Hstep as (lab & _ & Hstep).
  apply bind_Ok in Hstep as (c & _ & Hstep).
  apply bind_Ok in Hstep as (st1 & Hst1 & Hstep).
  apply bind_Ok in Hstep as (nb & _ & [= <-]).
  destruct (c =? 0).
  - apply bind_Ok in Hst1 as (lst' & _ & [= <-]). done.
  - by injection Hst1 as <-.
Qed.

Lemma select_step_order (i j : Z) st st' :
  select_step i j st = Ok st' → order st' = order st.
Proof.
  unfold select_step. intros Hstep.
  apply bind_Ok in Hstep as (lab & _ & Hstep).
  apply bind_Ok in Hstep as (c & _ & Hstep).
  apply bind_Ok in Hstep as (st1 & Hst1 & Hstep).
  apply bind_Ok in Hstep as (nb & _ & [= <-]).
  destruct (nb_lab_max st <? c).
  - apply bind_Ok in Hst1 as (labels' & _ & [= <-]). done.
  - by injection Hst1 as <-.
Qed.

Lemma node_enter_order (k i : Z) st st2 :
  node_enter indices indptr k st = Ok (i, st2) → order st2 = order st.
Proof.
  unfold node_enter, count_neighbors, select_init. intros Henter.
  apply bind_Ok in Henter as (i' & _ & Henter).
  apply bind_Ok in Henter as (st1 & Hcount & Henter).
  apply bind_Ok in Henter as (st2' & Hinit & [= <- <-]).
  apply bind_Ok in Hcount as ([lo hi] & _ & Hcount).
  apply bind_Ok in Hinit as (own & _ & Hinit).
  apply bind_Ok in Hinit as (m & _ & [= <-]). simpl.
  by rewrite (forM_preserves order _ _ _ _ tally_step_order Hcount).
Qed.

Lemma node_step_order (k : Z) st st' :
  node_step indices indptr k st = Ok st' → order st' = order st.
Proof.
  unfold node_step. intros Hstep.
  apply bind_Ok in Hstep as ([i st2] & Henter & Hsel).
  rewrite (forM_preserves order _ _ _ _ (select_step_order i) Hsel).
  by eapply node_enter_order.
Qed.

(** Inside a node the order is the one the node was entered with. *)
Lemma node_trace_order (k : Z) st s :
  s ∈ node_trace indices indptr k st → order s = order st.
Proof.
  unfold node_trace. intros [->|Hin]%elem_of_cons; [done|].
  destruct (buf_get (order st) k) as [i|e] eqn:Hk; [|by apply elem_of_nil in Hin].
  apply elem_of_app in Hin as [Hin|Hin].
  - unfold count_trace in Hin.
    destruct (row_bounds indptr i) as [[lo hi]|e]; [|by apply elem_of_nil in Hin].
    apply forM_trace_after in Hin as (p & _ & Hrun).
    by rewrite (forM_preserves order _ _ _ _ tally_step_order Hrun).
  - destruct (node_enter indices indptr k st) as [[i' st2]|e] eqn:Henter;
      [|by apply elem_of_nil in Hin].
    apply forM_trace_after in Hin as (p & _ & Hrun).
    rewrite (forM_preserves order _ _ _ _ (select_step_order i) Hrun).
    by eapply node_enter_order.
Qed.

Lemma pass_order st st' :
  ready n st → pass rand n indices indptr st = Ok st' → order st' ≡ₚ order st.
Proof.
  intros Hr. unfold pass.
  destruct (pass_enter_spec rand rand_nonneg n st Hr)
    as (st0 & -> & _ & _ & _ & Hfy). simpl. intros Hloop.
  rewrite (forM_preserves order _ _ _ _ node_step_order Hloop).
  pose proof (fisher_yates_Permutation rand (Z.to_nat (n - 1)) (order st) (gen st))
    as Hperm.
  by rewrite <- Hfy in Hperm.
Qed.

Lemma pass_trace_order st :
  ready n st → 
  Forall (λ s, order s ≡ₚ order st)
    (pass_trace rand n indices indptr (node_trace indices indptr) st).
Proof.
  intros Hr. unfold pass_trace.
  destruct (pass_enter_spec rand rand_nonneg n st Hr)
    as (st0 & -> & Hr0 & _ & _ & Hfy).
  pose proof (fisher_yates_Permutation rand (Z.to_nat (n - 1)) (order st) (gen st))
    as Hperm.
  rewrite <- Hfy in Hperm. simpl in Hperm.
  apply (forM_trace_Forall (λ s, order s = order st0)); [|done].
  intros k s _ Hs. split.
  - apply Forall_forall. intros s' Hs'.
    by rewrite (node_trace_order k s s' Hs'), Hs.
  - intros s' Hstep. by rewrite (node_step_order k s s' Hstep).
Qed.

Lemma while_trace_order (fuel : nat) st :
  ready n st → order st ≡ₚ arange n →
  Forall (λ s, order s ≡ₚ arange n)
    (while_trace rand n indices indptr (node_trace indices indptr) fuel st).
Proof.
  revert st. induction fuel as [|fuel IH]; intros st Hr Ho; simpl.
  - by destruct (changed st).
  - destruct (changed st); [|done]. apply Forall_app. split.
    + eapply Forall_impl; [by apply pass_trace_order|].
      intros s Hs. simpl in Hs. by rewrite Hs.
    + pose proof (pass_inv rand rand_nonneg n indices indptr (λ _, True)
                    ltac:(done) st Hr I) as Hinv.
      destruct (pass rand n indices indptr st) as [st'|e] eqn:Hpass; [|done].
      destruct Hinv as [Hr' _].
      assert (order st' ≡ₚ arange n) as Ho'
        by (by rewrite (pass_order st st' Hr Hpass)).
      constructor; [done|by apply IH].
Qed.

(** X7.  Every pass visits every node once: in every state of the run
    [order] is a permutation of the nodes, and a node does not write it,
    so the [n_nodes] iterations of a pass read [n_nodes] different
    nodes. *)
Theorem every_pass_visits_each_node_once (fuel : nat) g :
  Forall (λ st, order st ≡ₚ arange n)
    (run_trace rand n indices indptr (node_trace indices indptr) fuel g) ∧
  (∀ k st st', node_step indices indptr k st = Ok st' → order st' = order st).
Proof.
  split; [|apply node_step_order].
  unfold run_trace. destruct (init_state n g) as [st|e] eqn:Hinit; [|done].
  destruct (init_state_ready n g st Hinit) as (Hr & _).
  assert (order st = arange n) as Ho.
  { destruct (decide (0 ≤ n)) as [Hn|Hn].
    - destruct (init_state_spec n g Hn) as (scratch0 & Heq & _).
      rewrite Heq in Hinit. by injection Hinit as <-.
    - rewrite init_state_neg in Hinit by lia. done. }
  constructor; [by rewrite Ho|]. apply while_trace_order; [done|by rewrite Ho].
Qed.

End Order.

(** ** Draws, the empty graph, the seed, lone nodes (X8, X11, X14, X9) *)

Section Draws.

Context {rng_state : Type}.
Variable rand : rng_state → Z * rng_state.
Variables (n : Z) (indices indptr : list Z).
Implicit Types (st : state rng_state) (g : rng_state).

Lemma length_range_down (start stop : Z) :
  length (range_down start stop) = Z.to_nat (start - stop).
Proof. unfold range_down. by rewrite length_reverse, length_seqZ. Qed.

(** A pass calls [rand] once for each step of its shuffle. *)
Lemma pass_draws st st' :
  pass rand n indices indptr st = Ok st' →
  gen st' = draws rand (Z.to_nat (n - 1)) (gen st).
Proof.
  unfold pass, pass_enter, shuffle. intros Hpass.
  apply bind_Ok in Hpass as (st0 & Henter & Hloop).
  apply bind_Ok in Henter as ([o g'] & Hsh & [= <-]).
  apply shuffle_draws in Hsh as ->.
  rewrite (forM_preserves gen _ _ _ _ (node_step_gen indices indptr) Hloop).
  setters. rewrite length_range_down. f_equal. lia.
Qed.

(** The passes of a loop that ends: their number is the least budget with
    which it ends. *)
Lemma while_passes (fuel : nat) st st' :
  while_changed rand n indices indptr fuel st = Some (Ok st') →
  ∃ p, (p ≤ fuel)%nat ∧
    while_changed rand n indices indptr p st = Some (Ok st') ∧
    (∀ q, (q < p)%nat → while_changed rand n indices indptr q st = None) ∧
    (changed st = true → (0 < p)%nat) ∧
    gen st' = draws rand (p * Z.to_nat (n - 1)) (gen st).
Proof.
  revert st. induction fuel as [|fuel IH]; intros st; simpl.
  - destruct (changed st) eqn:Hch; [done|]. intros [= <-]. exists 0%nat.
    split_and!; [done|by simpl; rewrite Hch|lia|done|done].
  - destruct (changed st) eqn:Hch.
    + destruct (pass rand n indices indptr st) as [st1|e] eqn:Hpass; [|done].
      intros (p & Hp & Hrun & Hmin & _ & Hgen)%IH. exists (S p).
      split_and!; [lia| |  |lia|].
      * simpl. by rewrite Hch, Hpass.
      * intros [|q] Hq; simpl; rewrite Hch; [done|].
        rewrite Hpass. apply Hmin. lia.
      * rewrite Hgen, (pass_draws st st1 Hpass), draws_add. f_equal; lia.
    + intros [= <-]. exists 0%nat.
      split_and!; [lia|by simpl; rewrite Hch|lia|done|done].
Qed.

(** X8.  The calls of [rand]: a run that returns has made some number
    [p] of passes, at least one, the least budget with which it returns;
    each pass drew [n_nodes - 1] numbers for its shuffle, and nothing else
    draws, so the generator is left [p * (n_nodes - 1)] draws later. *)
Theorem draws_of_a_run (fuel : nat) g (l : list Z) g' :
  fit_core rand n indices indptr fuel g = Some (Ok (l, g')) →
  ∃ p, (0 < p ≤ fuel)%nat ∧
    fit_core rand n indices indptr p g = Some (Ok (l, g')) ∧
    (∀ q, (q < p)%nat → fit_core rand n indices indptr q g = None) ∧
    g' = draws rand (p * Z.to_nat (n - 1)) g.
Proof.
  unfold fit_core, run. destruct (init_state n g) as [st|e] eqn:Hinit; [|done].
  destruct (while_changed rand n indices indptr fuel st) as [[st'|e]|] eqn:Hw;
    [|done..].
  intros [= <- <-].
  destruct (init_state_ready n g st Hinit) as (_ & _ & Hch & Hg).
  destruct (while_passes fuel st st' Hw) as (p & Hp & Hrun & Hmin & Hpos & Hgen).
  exists p. split_and!; [by apply Hpos|done| | |by rewrite Hgen, Hg].
  - by rewrite Hrun.
  - intros q Hq. by rewrite (Hmin q Hq).
Qed.

(** X11.  A graph without nodes: [fit_core] makes one pass, which draws
    nothing and reads neither [indices] nor [indptr], and returns the
    empty array. *)
Theorem empty_graph (fuel : nat) g :
  fit_core rand 0 indices indptr 0 g = None ∧
  fit_core rand 0 indices indptr (S fuel) g = Some (Ok ([], g)).
Proof. split; [done|]. by destruct fuel. Qed.

End Draws.

Section Seed.

Context {rng_state : Type}.
Variable rand : rng_state → Z * rng_state.
Hypothesis rand_nonneg : ∀ g, 0 ≤ (rand g).1.
Variable srand : Z → rng_state.
Implicit Types (g : rng_state) (h : heap) (adj : csr_matrix).

Lemma fit_core_Err (n : Z) (indices indptr : list Z) (fuel : nat) g (e : exn) :
  fit_core rand n indices indptr fuel g = Some (Err e) →
  e = LengthError ∨ e = IndexError.
Proof.
  unfold fit_core. destruct (decide (0 ≤ n)) as [Hn|Hn].
  - pose proof (run_inv rand rand_nonneg n indices indptr (λ _, True)
                  ltac:(done) fuel g Hn I) as Hrun.
    destruct (run rand n indices indptr fuel g) as [[st|e']|]; [done| |done].
    intros [= <-]. right. by destruct Hrun.
  - unfold run. rewrite init_state_neg by lia. intros [= <-]. by left.
Qed.

(** X14.  [OverflowError] comes from the two conversions of a Python
    integer to a C type.  The seed is converted to the [unsigned int] that
    [srand] takes before anything else is done: a seed below 0 or above
    2^32 - 1 makes [fit] and [fit_transform] raise it whatever the graph.
    With a seed that converts, a [shape[0]] that is no C [int] makes them
    raise it, before the index arrays are looked at.  In both cases the
    heap is left as it was, and nothing else makes [fit] raise
    [OverflowError]. *)
Theorem overflow_error_of_fit (fuel : nat) (self : loc) adj h g
    (obj : LabelPropagation) :
  objects h !! self = Some obj →
  (∀ k, seed obj = Some k → ¬ (0 ≤ k < 2 ^ 32) →
     fit rand srand fuel self adj h g = Some (Raises OverflowError h) ∧
     fit_transform rand srand fuel self adj h g =
       Some (Raises OverflowError h)) ∧
  ((∀ k, seed obj = Some k → 0 ≤ k < 2 ^ 32) →
   ¬ (- 2 ^ 31 ≤ shape0 adj < 2 ^ 31) →
     fit rand srand fuel self adj h g = Some (Raises OverflowError h) ∧
     fit_transform rand srand fuel self adj h g =
       Some (Raises OverflowError h)) ∧
  (∀ h', fit rand srand fuel self adj h g = Some (Raises OverflowError h') →
     (∃ k, seed obj = Some k ∧ ¬ (0 ≤ k < 2 ^ 32)) ∨
     ¬ (- 2 ^ 31 ≤ shape0 adj < 2 ^ 31)).
Proof.
  intros Hobj. split_and!.
  - intros k Hk Hrange. unfold fit_transform, fit. rewrite Hobj, Hk. simpl.
    unfold as_unsigned_int.
    destruct (Z.leb_spec 0 k), (Z.ltb_spec k (2 ^ 32)); simpl; (done || lia).
  - intros Hseed Hshape.
    assert (∃ g1, seed_generator srand (seed obj) g = Ok g1) as (g1 & Hgen).
    { unfold seed_generator, as_unsigned_int.
      destruct (seed obj) as [k|]; [|by eexists].
      specialize (Hseed k eq_refl).
      destruct (Z.leb_spec 0 k), (Z.ltb_spec k (2 ^ 32)); try lia.
      by eexists. }
    assert (fit_core_args adj = Err OverflowError) as Hargs.
    { unfold fit_core_args, as_int.
      destruct (Z.leb_spec (- 2 ^ 31) (shape0 adj)),
        (Z.ltb_spec (shape0 adj) (2 ^ 31)); simpl; (done || lia). }
    unfold fit_transform, fit. by rewrite Hobj, Hgen, Hargs.
  - intros h'. unfold fit. rewrite Hobj.
    destruct (seed_generator srand (seed obj) g) as [g1|e1] eqn:Hgen.
    + destruct (fit_core_args adj) as [[[n indices] indptr]|e1] eqn:Hargs.
      * destruct (fit_core rand n indices indptr fuel g1)
          as [[[l g2]|e]|] eqn:Hrun; [done| |done].
        intros [= -> _]. by destruct (fit_core_Err _ _ _ _ _ _ Hrun).
      * intros [= -> _].
        destruct (fit_core_args_Err adj _ Hargs) as [[_ ?]|[? _]];
          [by right|done].
    + intros _. left. unfold seed_generator in Hgen.
      destruct (seed obj) as [k|]; [|done]. exists k. split; [done|].
      unfold as_unsigned_int in Hgen.
      destruct (Z.leb_spec 0 k), (Z.ltb_spec k (2 ^ 32)); simpl in Hgen;
        (done || lia).
Qed.

End Seed.

Section OwnNeighbour.

Context {rng_state : Type}.
Variable rand : rng_state → Z * rng_state.
Hypothesis rand_nonneg : ∀ g, 0 ≤ (rand g).1.
Variables (n : Z) (indices indptr : list Z).
Hypothesis valid : valid_csr n indices indptr.
Implicit Types (st : state rng_state) (g : rng_state).

(** X9.  A node that has no neighbour but itself (no entry in its row,
    or self-loops only) carries its own id as its label in every state of
    the run and in the returned array. *)
Theorem lone_node_keeps_label (fuel : nat) g (i : Z) :
  0 ≤ i < n → Forall (λ v, v = i) (neighbors indices indptr i) →
  Forall (λ st, labels st !!! Z.to_nat i = i)
    (run_trace rand n indices indptr (node_trace indices indptr) fuel g) ∧
  match fit_core rand n indices indptr fuel g with
  | Some (Ok (l, _)) => l !!! Z.to_nat i = i
  | Some (Err _) => False
  | None => True
  end.
Proof.
  intros Hi Hrow. pose proof valid as (Hn & _).
  set (Q := λ l : list Z, l !!! Z.to_nat i = i).
  assert (Q (arange n)) as Hinit.
  { unfold Q, arange. rewrite lookup_total_seqZ_lt by lia. lia. }
  assert (∀ st k i' labs x,
            ready n st → Q (labels st) → 0 ≤ k < n →
            node_reads indices indptr st k i' labs → 0 ≤ i' < n → x ∈ labs →
            Q (<[Z.to_nat i' := x]> (labels st))) as Hstep.
  { intros st k i' labs x Hr HQ Hk Hreads Hi' Hx. unfold Q in *.
    pose proof Hr as (_ & Hl & _).
    destruct (decide (i' = i)) as [->|Hne].
    - rewrite list_lookup_total_insert_eq by (destruct Hl as [-> _]; lia).
      destruct (valid_node_reads n indices indptr valid st k Hr Hk)
        as (i' & _ & _ & Hreads').
      destruct (node_reads_unique _ _ _ _ _ _ _ _ Hreads Hreads') as [<- ->].
      apply (elem_of_neighbor_labels indices indptr) in Hx as (v & Hv & ->).
      rewrite Forall_forall in Hrow. by rewrite (Hrow v Hv).
    - rewrite list_lookup_total_insert_ne by lia. done. }
  split.
  - apply (run_trace_inv rand rand_nonneg n indices indptr Q Hstep);
      try done.
    intros k s Hk Hs HQ. eapply Forall_impl;
      [by apply (node_trace_inv n indices indptr Q Hstep)|].
    by intros st [_ HQst].
  - unfold fit_core.
    pose proof (run_inv rand rand_nonneg n indices indptr Q Hstep fuel g
                  Hn Hinit) as Hrun.
    destruct (run rand n indices indptr fuel g) as [[st|e]|]; [| |done].
    + by destruct Hrun as (_ & HQ & _).
    + destruct Hrun as [_ Hno]. apply Hno. by apply valid_rows_readable.
Qed.

End OwnNeighbour.

(** ** Fixed points (X1, X2, X3, X16) *)

Section FixedPoint.

Context {rng_state : Type}.
Variable rand : rng_state → Z * rng_state.
Hypothesis rand_nonneg : ∀ g, 0 ≤ (rand g).1.
Variables (n : Z) (indices indptr : list Z).
Hypothesis valid : valid_csr n indices indptr.
Implicit Types (st : state rng_state) (g : rng_state).

Lemma settled_spec (l : list Z) (i : Z) :
  settled indices indptr l i ↔
  ∀ x, occurrences x (neighbor_labels indices indptr l i) ≤
       occurrences (l !!! Z.to_nat i) (neighbor_labels indices indptr l i).
Proof.
  unfold settled. rewrite Forall_forall. split; [|by intros H x _].
  intros H x. destruct (decide (x ∈ neighbor_labels indices indptr l i)) as [Hx|Hx].
  - by apply H.
  - rewrite (proj2 (occurrences_zero x _) Hx). apply occurrences_nonneg.
Qed.

Lemma winner_settled (labs : list Z) (own : Z) :
  Forall (λ x, occurrences x labs ≤ occurrences own labs) labs →
  winner labs own (first_seen labs) = (occurrences own labs, own).
Proof.
  intros Hle. pose proof (winner_spec labs own (first_seen labs)) as [_ Hcase].
  pose proof (winner_tally labs own (first_seen labs)) as Htally.
  destruct (winner labs own (first_seen labs)) as [c w]; simpl in *.
  destruct Hcase as [[-> ->]|(Hgt & pre & post & Heq & _)]; [done|].
  assert (w ∈ first_seen labs) as Hin by (rewrite Heq; set_solver).
  apply (proj1 (elem_of_first_seen labs w)) in Hin.
  rewrite Forall_forall in Hle. specialize (Hle w Hin). lia.
Qed.

Lemma winner_unsettled (labs : list Z) (own : Z) :
  ¬ Forall (λ x, occurrences x labs ≤ occurrences own labs) labs →
  occurrences own labs < (winner labs own (first_seen labs)).1.
Proof.
  intros Hno. apply not_Forall_Exists in Hno; [|apply _].
  apply Exists_exists in Hno as (x & Hx & Hlt). simpl in Hlt.
  pose proof (winner_spec labs own (first_seen labs)) as [Hmax _].
  apply (proj2 (elem_of_first_seen labs x)) in Hx.
  specialize (Hmax x Hx). simpl in Hmax. lia.
Qed.

(** A node of a valid graph: it leaves the labels and [changed] as they
    are when it is settled, and raises [changed] when it is not. *)
Lemma node_step_settled st (k : Z) :
  ready n st → 0 ≤ k < n →
  ∃ i st', 0 ≤ i < n ∧ order st !! Z.to_nat k = Some i ∧
    node_step indices indptr k st = Ok st' ∧ ready n st' ∧
    (settled indices indptr (labels st) i →
       labels st' = labels st ∧ changed st' = changed st) ∧
    (¬ settled indices indptr (labels st) i → changed st' = true).
Proof.
  intros Hr Hk.
  destruct (valid_node_step n indices indptr valid st k Hr Hk)
    as (i & st' & Hi & Hord & Hstep & Hres).
  exists i, st'. do 3 (split; [done|]). split; [|split].
  - pose proof (node_step_inv n indices indptr (λ _, True) ltac:(done) st k
                  Hr I Hk) as Hinv.
    rewrite Hstep in Hinv. by destruct Hinv.
  - intros Hs. destruct Hres as (Hl' & _ & _ & _ & Hch' & _).
    rewrite (winner_settled _ _ Hs) in Hl', Hch'. simpl in *. split.
    + rewrite Hl'. apply list_insert_id. apply list_lookup_lookup_total_lt.
      destruct Hr as (_ & [-> _] & _). lia.
    + rewrite Hch', bool_decide_false by lia. apply orb_false_r.
  - intros Hs. destruct Hres as (_ & _ & _ & _ & Hch' & _).
    rewrite Hch', bool_decide_true by (by apply winner_unsettled).
    apply orb_true_r.
Qed.

(** The first [p] nodes of a pass entered with [changed] lowered. *)
Lemma pass_prefix (p : nat) st0 :
  ready n st0 → changed st0 = false → Z.of_nat p ≤ n →
  ∃ s, forM (node_step indices indptr) (range 0 (Z.of_nat p)) st0 = Ok s ∧
    ready n s ∧ order s = order st0 ∧
    (changed s = false ↔
       ∀ k, (k < p)%nat →
         settled indices indptr (labels st0) (order st0 !!! k)) ∧
    (changed s = false → labels s = labels st0).
Proof.
  intros Hr0 Hch0. induction p as [|p IH]; intros Hp.
  - exists st0. rewrite range_nil by lia. split_and!; try done.
    split; [intros _ k; lia|done].
  - destruct IH as (s & Hrun & Hr & Ho & Hiff & Hl); [lia|].
    replace (Z.of_nat (S p)) with (Z.of_nat p + 1) by lia.
    rewrite range_snoc, forM_app, Hrun by lia. simpl.
    destruct (node_step_settled s (Z.of_nat p) Hr ltac:(lia))
      as (i & s' & Hi & Hord & Hstep & Hr' & Hkeep & Hraise).
    rewrite Hstep. exists s'. rewrite Nat2Z.id, Ho in Hord.
    assert (order s' = order st0) as Ho'
      by (by rewrite (node_step_order indices indptr _ _ _ Hstep)).
    split_and!; try done.
    + split.
      * intros Hch' k Hk.
        destruct (changed s) eqn:Hch.
        { destruct (decide (settled indices indptr (labels s) i)) as [Hs|Hs].
          - destruct (Hkeep Hs) as [_ Heq]. congruence.
          - specialize (Hraise Hs). congruence. }
        destruct (decide (k = p)) as [->|Hne].
        { rewrite (list_lookup_total_correct _ _ _ Hord).
          destruct (decide (settled indices indptr (labels s) i)) as [Hs|Hs].
          - by rewrite <- (Hl eq_refl).
          - specialize (Hraise Hs). congruence. }
        apply (proj1 Hiff eq_refl). lia.
      * intros Hall.
        assert (changed s = false) as Hch
          by (apply Hiff; intros k Hk; apply Hall; lia).
        specialize (Hall p ltac:(lia)).
        rewrite (list_lookup_total_correct _ _ _ Hord), <- (Hl Hch) in Hall.
        destruct (Hkeep Hall) as [_ ->]. done.
    + intros Hch'.
      destruct (changed s) eqn:Hch.
      { destruct (decide (settled indices indptr (labels s) i)) as [Hs|Hs].
        - destruct (Hkeep Hs) as [_ Heq]. congruence.
        - specialize (Hraise Hs). congruence. }
      destruct (decide (settled indices indptr (labels s) i)) as [Hs|Hs].
      * destruct (Hkeep Hs) as [-> _]. by apply Hl.
      * specialize (Hraise Hs). congruence.
Qed.

(** A pass over the nodes in an order that names every node. *)
Lemma pass_settles st :
  ready n st → order st ≡ₚ arange n →
  ∃ st', pass rand n indices indptr st = Ok st' ∧ ready n st' ∧
    order st' ≡ₚ arange n ∧
    (changed st' = false ↔ fixed_point n indices indptr (labels st)) ∧
    (changed st' = false → labels st' = labels st).
Proof.
  intros Hr Ho. pose proof Hr as (Hn & _).
  destruct (pass_enter_spec rand rand_nonneg n st Hr)
    as (st0 & Henter & Hr0 & Hl0 & Hch0 & Hfy).
  pose proof (fisher_yates_Permutation rand (Z.to_nat (n - 1)) (order st) (gen st))
    as Hperm.
  rewrite <- Hfy in Hperm. simpl in Hperm.
  destruct (pass_prefix (Z.to_nat n) st0 Hr0 Hch0 ltac:(lia))
    as (st' & Hrun & Hr' & Ho' & Hiff & Hl').
  rewrite Z2Nat.id in Hrun by done.
  exists st'. split_and!; try done.
  - unfold pass. by rewrite Henter.
  - by rewrite Ho', Hperm.
  - rewrite Hiff, Hl0. unfold fixed_point. rewrite Forall_forall.
    assert (length (order st0) = Z.to_nat n) as Hlen
      by (by destruct Hr0 as (_ & _ & [? _] & _)).
    split.
    + intros Hall i Hi.
      assert (i ∈ order st0) as Hin by (by rewrite Hperm, Ho).
      apply list_elem_of_lookup_1 in Hin as [k Hk].
      rewrite <- (list_lookup_total_correct _ _ _ Hk). apply Hall.
      apply lookup_lt_Some in Hk. lia.
    + intros Hall k Hk. apply Hall. rewrite <- Ho, <- Hperm.
      apply list_elem_of_lookup_total_2. lia.
  - intros Hch. by rewrite (Hl' Hch).
Qed.

(** The loop ends after a pass that changed nothing. *)
Lemma while_last_pass (fuel : nat) st st' :
  ready n st → order st ≡ₚ arange n → changed st = true →
  while_changed rand n indices indptr fuel st = Some (Ok st') →
  ∃ s, ready n s ∧ order s ≡ₚ arange n ∧
    pass rand n indices indptr s = Ok st' ∧ changed st' = false.
Proof.
  revert st. induction fuel as [|fuel IH]; intros st Hr Ho Hch; simpl;
    rewrite Hch; [done|].
  destruct (pass_settles st Hr Ho) as (st1 & Hpass & Hr1 & Ho1 & _).
  rewrite Hpass. destruct (changed st1) eqn:Hch1.
  - by apply IH.
  - rewrite while_changed_done by done. intros [= <-]. by exists st.
Qed.

Lemma neighbor_labels_arange (i : Z) :
  neighbor_labels indices indptr (arange n) i = neighbors indices indptr i.
Proof.
  unfold neighbor_labels. rewrite <- (list_fmap_id (neighbors indices indptr i)) at 2.
  apply list_fmap_ext. intros p v Hv. simpl.
  apply list_elem_of_lookup_2 in Hv.
  apply (edge_range n indices indptr valid) in Hv.
  unfold arange. rewrite lookup_total_seqZ_lt by lia. lia.
Qed.

(** X2.  A pass over a state of the loop lowers [changed] exactly when the
    labels it is entered with are a fixed point of the update, and then it
    leaves them as they are. *)
Theorem pass_quiet_iff_fixed_point st :
  ready n st → order st ≡ₚ arange n →
  ∃ st', pass rand n indices indptr st = Ok st' ∧
    (changed st' = false ↔ fixed_point n indices indptr (labels st)) ∧
    (changed st' = false → labels st' = labels st).
Proof.
  intros Hr Ho.
  destruct (pass_settles st Hr Ho) as (st' & Hpass & _ & _ & Hiff & Hl).
  by exists st'.
Qed.

(** Under a fixed point a node that has neighbours shares its label with
    one of them. *)
Lemma fixed_point_shares (l : list Z) (i : Z) :
  fixed_point n indices indptr l → 0 ≤ i < n →
  neighbors indices indptr i ≠ [] →
  ∃ v, edge indices indptr i v ∧ l !!! Z.to_nat v = l !!! Z.to_nat i.
Proof.
  intros Hfix Hi Hrow.
  unfold fixed_point in Hfix. rewrite Forall_forall in Hfix.
  pose proof (proj1 (settled_spec l i)
                (Hfix i ltac:(apply elem_of_seqZ; lia))) as Hall.
  destruct (neighbors indices indptr i) as [|v0 row] eqn:Hnb; [done|].
  assert (0 < occurrences (l !!! Z.to_nat i)
                (neighbor_labels indices indptr l i)) as Hpos.
  { eapply Z.lt_le_trans; [|apply (Hall (l !!! Z.to_nat v0))].
    apply occurrences_pos. unfold neighbor_labels. rewrite Hnb.
    rewrite fmap_cons. by left. }
  apply occurrences_pos in Hpos.
  apply (elem_of_neighbor_labels indices indptr) in Hpos as (v & Hv & Heq).
  by exists v.
Qed.

(** The loop ends on a fixed point. *)
Lemma fit_core_fixed_point (fuel : nat) g :
  match fit_core rand n indices indptr fuel g with
  | Some (Ok (l, _)) => fixed_point n indices indptr l
  | Some (Err _) => False
  | None => True
  end.
Proof.
  pose proof valid as (Hn & _). unfold fit_core, run.
  destruct (init_state_spec n g Hn) as (scratch0 & Hinit & _).
  destruct (init_state_ready n g _ Hinit) as (Hr & _ & Hch & _).
  rewrite Hinit.
  set (st0 := State (arange n) (arange n) (tallies n []) scratch0 0 0 true g) in *.
  pose proof (while_inv rand rand_nonneg n indices indptr (λ _, True)
                ltac:(done) fuel st0 Hr I) as Hinv.
  destruct (while_changed rand n indices indptr fuel st0) as [[st'|e]|] eqn:Hw;
    [| |done].
  - destruct (while_last_pass fuel st0 st' Hr ltac:(done) Hch Hw)
      as (s & Hrs & Hos & Hpass & Hch').
    destruct (pass_settles s Hrs Hos) as (st'' & Hpass' & _ & _ & Hiff & Hl).
    assert (st'' = st') as -> by congruence.
    rewrite (Hl Hch'). by apply Hiff.
  - destruct Hinv as [_ Hno]. apply Hno. by apply valid_rows_readable.
Qed.

(** X1.  The labels [fit_core] returns are a fixed point of the update: at
    no node is a label carried by more neighbours than the label the node
    has.  So a node that has neighbours shares its label with one of them
    at least. *)
Theorem returned_labels_fixed_point (fuel : nat) g :
  match fit_core rand n indices indptr fuel g with
  | Some (Ok (l, _)) =>
      fixed_point n indices indptr l ∧
      (∀ i x, 0 ≤ i < n →
         occurrences x (neighbor_labels indices indptr l i) ≤
         occurrences (l !!! Z.to_nat i) (neighbor_labels indices indptr l i)) ∧
      (∀ i, 0 ≤ i < n → neighbors indices indptr i ≠ [] →
         ∃ v, edge indices indptr i v ∧ l !!! Z.to_nat v = l !!! Z.to_nat i)
  | Some (Err _) => False
  | None => True
  end.
Proof.
  pose proof (fit_core_fixed_point fuel g) as Hfix.
  destruct (fit_core rand n indices indptr fuel g) as [[[l g']|e]|]; [|done..].
  assert (∀ i x, 0 ≤ i < n →
            occurrences x (neighbor_labels indices indptr l i) ≤
            occurrences (l !!! Z.to_nat i) (neighbor_labels indices indptr l i))
    as Hall.
  { intros i x Hi. apply settled_spec.
    unfold fixed_point in Hfix. rewrite Forall_forall in Hfix.
    apply Hfix. apply elem_of_seqZ. lia. }
  split; [done|]. split; [done|]. intros i Hi Hrow.
  by apply fixed_point_shares.
Qed.

(** X16.  In the labels [fit_core] returns, a node whose neighbours all
    carry one label carries that label: a node with a single neighbour is
    in the community of its neighbour. *)
Theorem unanimous_neighbours_decide (fuel : nat) g :
  match fit_core rand n indices indptr fuel g with
  | Some (Ok (l, _)) =>
      ∀ i x, 0 ≤ i < n → neighbors indices indptr i ≠ [] →
        Forall (λ v, l !!! Z.to_nat v = x) (neighbors indices indptr i) →
        l !!! Z.to_nat i = x
  | Some (Err _) => False
  | None => True
  end.
Proof.
  pose proof (fit_core_fixed_point fuel g) as Hfix.
  destruct (fit_core rand n indices indptr fuel g) as [[[l g']|e]|]; [|done..].
  intros i x Hi Hrow Hall.
  destruct (fixed_point_shares l i Hfix Hi Hrow) as (v & Hv & <-).
  rewrite Forall_forall in Hall. by apply Hall.
Qed.

(** X3.  One pass is enough exactly when the identity labels are a fixed
    point,
    that is when no node has a neighbour that its row names more often than
    the node itself (no edges, or self-loops that outnumber every other
    neighbour); [fit_core] then returns the identity. *)
Theorem one_pass_iff_identity_fixed_point g :
  (fixed_point n indices indptr (arange n) ↔
   ∀ i v, 0 ≤ i < n →
     occurrences v (neighbors indices indptr i) ≤
     occurrences i (neighbors indices indptr i)) ∧
  (fixed_point n indices indptr (arange n) →
   ∀ fuel, fit_core rand n indices indptr (S fuel) g =
             Some (Ok (arange n, draws rand (Z.to_nat (n - 1)) g))) ∧
  (¬ fixed_point n indices indptr (arange n) →
   fit_core rand n indices indptr 1 g = None).
Proof.
  pose proof valid as (Hn & _).
  destruct (init_state_spec n g Hn) as (scratch0 & Hinit & _).
  destruct (init_state_ready n g _ Hinit) as (Hr & _ & Hch & _).
  set (st0 := State (arange n) (arange n) (tallies n []) scratch0 0 0 true g) in *.
  destruct (pass_settles st0 Hr ltac:(done)) as (st1 & Hpass & _ & _ & Hiff & Hl).
  split_and!.
  - unfold fixed_point. rewrite Forall_forall. split.
    + intros Hfix i v Hi.
      pose proof (proj1 (settled_spec (arange n) i)
                    (Hfix i ltac:(apply elem_of_seqZ; lia)) v) as Hle.
      rewrite neighbor_labels_arange in Hle.
      unfold arange in Hle. rewrite lookup_total_seqZ_lt in Hle by lia.
      by replace (0 + Z.of_nat (Z.to_nat i)) with i in Hle by lia.
    + intros Hall i Hi%elem_of_seqZ. apply settled_spec. intros x.
      rewrite neighbor_labels_arange.
      unfold arange. rewrite lookup_total_seqZ_lt by lia.
      replace (0 + Z.of_nat (Z.to_nat i)) with i by lia. apply Hall. lia.
  - intros Hfix fuel. apply Hiff in Hfix.
    unfold fit_core, run. rewrite Hinit. simpl. rewrite Hpass.
    rewrite while_changed_done by done.
    by rewrite (Hl Hfix), (pass_draws rand n indices indptr st0 st1 Hpass).
  - intros Hno. unfold fit_core, run. rewrite Hinit. simpl. rewrite Hpass.
    destruct (changed st1) eqn:Hch1; [done|]. by destruct Hno; apply Hiff.
Qed.

End FixedPoint.

(** ** The agreement of an assignment *)

Section Sums.

Implicit Types (f g : Z → Z) (l : list Z).

Lemma sumZ_nil f : sumZ f [] = 0.
Proof. done. Qed.

Lemma sumZ_cons f x l : sumZ f (x :: l) = f x + sumZ f l.
Proof. done. Qed.

Lemma sumZ_app f l1 l2 : sumZ f (l1 ++ l2) = sumZ f l1 + sumZ f l2.
Proof.
  induction l1 as [|x l1 IH]; [done|].
  rewrite <- app_comm_cons, !sumZ_cons, IH. lia.
Qed.

Lemma sumZ_ext f g l : (∀ x, x ∈ l → f x = g x) → sumZ f l = sumZ g l.
Proof.
  induction l as [|y l IH]; intros H; [done|].
  rewrite !sumZ_cons, (H y), IH; [done| |]; set_solver.
Qed.

Lemma sumZ_le f g l : (∀ x, x ∈ l → f x ≤ g x) → sumZ f l ≤ sumZ g l.
Proof.
  induction l as [|y l IH]; intros H; [done|]. rewrite !sumZ_cons.
  pose proof (H y ltac:(set_solver)).
  pose proof (IH ltac:(intros x Hx; apply H; set_solver)). lia.
Qed.

Lemma sumZ_zero l : sumZ (λ _, 0) l = 0.
Proof. induction l as [|y l IH]; [done|]. by rewrite sumZ_cons, IH. Qed.

Lemma sumZ_plus f g l : sumZ (λ x, f x + g x) l = sumZ f l + sumZ g l.
Proof.
  induction l as [|y l IH]; [done|]. rewrite !sumZ_cons, IH. lia.
Qed.

Lemma sumZ_fmap f (h : Z → Z) l : sumZ f (h <$> l) = sumZ (λ x, f (h x)) l.
Proof.
  induction l as [|y l IH]; [done|]. rewrite fmap_cons, !sumZ_cons, IH. done.
Qed.

Lemma occurrences_sumZ x l :
  occurrences x l = sumZ (λ y, if decide (y = x) then 1 else 0) l.
Proof.
  induction l as [|y l IH]; [done|]. by rewrite occurrences_cons, sumZ_cons, IH.
Qed.

(** A sum that has one node's term only. *)
Lemma sumZ_at f l i :
  sumZ (λ x, if decide (x = i) then f x else 0) l = f i * occurrences i l.
Proof.
  induction l as [|y l IH]; [rewrite occurrences_nil, sumZ_nil; lia|].
  rewrite sumZ_cons, occurrences_cons, IH. case_decide; subst; lia.
Qed.

Lemma occurrences_NoDup x l : NoDup l → x ∈ l → occurrences x l = 1.
Proof.
  induction 1 as [|y l Hy Hnd IH]; [by intros ?%elem_of_nil|].
  rewrite occurrences_cons. intros [->|Hx]%elem_of_cons.
  - rewrite decide_True by done. rewrite (proj2 (occurrences_zero y l)); done.
  - rewrite decide_False by (intros ->; done). rewrite IH; done.
Qed.

Lemma occurrences_seqZ (n i : Z) : 0 ≤ i < n → occurrences i (seqZ 0 n) = 1.
Proof.
  intros Hi. apply occurrences_NoDup; [apply NoDup_seqZ|].
  apply elem_of_seqZ. lia.
Qed.

(** A sum over a list of nodes, node by node. *)
Lemma sumZ_weights (n : Z) f l :
  Forall (λ v, 0 ≤ v < n) l →
  sumZ f l = sumZ (λ v, occurrences v l * f v) (seqZ 0 n).
Proof.
  induction 1 as [|v0 l Hv0 Hl IH].
  - rewrite sumZ_nil. symmetry.
    etransitivity; [|apply (sumZ_zero (seqZ 0 n))].
    apply sumZ_ext. intros v _. rewrite occurrences_nil. lia.
  - rewrite sumZ_cons, IH.
    rewrite (sumZ_ext (λ v, occurrences v (v0 :: l) * f v)
               (λ v, (if decide (v = v0) then f v else 0) +
                     occurrences v l * f v)).
    + rewrite sumZ_plus, sumZ_at, occurrences_seqZ by done. lia.
    + intros v _. rewrite occurrences_cons. repeat case_decide; subst; (done || lia).
Qed.

End Sums.

Section Agreement.

Variables (n : Z) (indices indptr : list Z).
Hypothesis valid : valid_csr n indices indptr.

Lemma own_tally_sumZ (l : list Z) (u : Z) :
  occurrences (l !!! Z.to_nat u) (neighbor_labels indices indptr l u) =
  sumZ (λ w, if decide (l !!! Z.to_nat w = l !!! Z.to_nat u) then 1 else 0)
    (neighbors indices indptr u).
Proof. unfold neighbor_labels. by rewrite occurrences_sumZ, sumZ_fmap. Qed.

Lemma neighbors_range (u : Z) :
  Forall (λ v, 0 ≤ v < n) (neighbors indices indptr u).
Proof.
  apply Forall_forall. intros v Hv.
  by apply (edge_range n indices indptr valid u v).
Qed.

Lemma length_neighbors (u : Z) :
  0 ≤ u < n →
  Z.of_nat (length (neighbors indices indptr u)) =
    indptr !!! Z.to_nat (u + 1) - indptr !!! Z.to_nat u.
Proof.
  intros Hu. destruct (valid_row n indices indptr valid u Hu) as (_ & Hlo & Hhi).
  unfold neighbors, slice. rewrite length_take, length_drop. lia.
Qed.

Lemma agreement_bounds (l : list Z) :
  0 ≤ agreement n indices indptr l ≤ Z.of_nat (length indices).
Proof.
  unfold agreement. split.
  - etransitivity; [|apply (sumZ_le (λ _, 0))].
    + by rewrite sumZ_zero.
    + intros u _. apply occurrences_nonneg.
  - pose proof valid as (Hn & Hlen & _ & Hpos & Hlast & _).
    transitivity (sumZ (λ u, indptr !!! Z.to_nat (u + 1) - indptr !!! Z.to_nat u)
                    (seqZ 0 n)).
    + apply sumZ_le. intros u Hu%elem_of_seqZ.
      rewrite <- length_neighbors by lia.
      etransitivity; [apply occurrences_le_length|].
      unfold neighbor_labels. by rewrite length_fmap.
    + assert (∀ p : nat, Z.of_nat p ≤ n →
                sumZ (λ u, indptr !!! Z.to_nat (u + 1) - indptr !!! Z.to_nat u)
                  (seqZ 0 (Z.of_nat p)) =
                indptr !!! p - indptr !!! 0%nat) as Htel.
      { induction p as [|p IH]; intros Hp;
          [rewrite seqZ_nil, sumZ_nil by done; lia|].
        replace (Z.of_nat (S p)) with (Z.of_nat p + 1) by lia.
        rewrite seqZ_app by lia. rewrite sumZ_app, IH by lia.
        rewrite seqZ_cons, seqZ_nil by lia. rewrite sumZ_cons, sumZ_nil.
        replace (Z.to_nat (0 + Z.of_nat p + 1)) with (S p) by lia.
        replace (Z.to_nat (0 + Z.of_nat p)) with p by lia. lia. }
      specialize (Htel (Z.to_nat n) ltac:(lia)).
      rewrite Z2Nat.id in Htel by done. rewrite Htel.
      rewrite (list_lookup_total_correct _ _ _ Hlast).
      destruct (lookup_lt_is_Some_2 indptr 0) as [x Hx]; [lia|].
      rewrite (list_lookup_total_correct _ _ _ Hx).
      rewrite Forall_forall in Hpos.
      pose proof (Hpos x ltac:(by eapply list_elem_of_lookup_2)). lia.
Qed.

Hypothesis sym : symmetric n indices indptr.

Lemma symmetric_spec (u v : Z) :
  0 ≤ u < n → 0 ≤ v < n →
  occurrences v (neighbors indices indptr u) =
  occurrences u (neighbors indices indptr v).
Proof.
  intros Hu Hv. unfold symmetric in sym. rewrite Forall_forall in sym.
  pose proof (sym u ltac:(apply elem_of_seqZ; lia)) as Hrow.
  rewrite Forall_forall in Hrow. apply Hrow. apply elem_of_seqZ. lia.
Qed.

(** What a change of the label of node [i] does to the agreement. *)
Lemma agreement_insert (l : list Z) (i b : Z) :
  length l = Z.to_nat n → 0 ≤ i < n → b ≠ l !!! Z.to_nat i →
  agreement n indices indptr (<[Z.to_nat i := b]> l) =
    agreement n indices indptr l +
    2 * (occurrences b (neighbor_labels indices indptr l i) -
         occurrences (l !!! Z.to_nat i) (neighbor_labels indices indptr l i) +
         occurrences i (neighbors indices indptr i)).
Proof.
  intros Hlen Hi Hb.
  set (a := l !!! Z.to_nat i) in *.
  set (l' := <[Z.to_nat i := b]> l).
  set (c := λ u, (if decide (l !!! Z.to_nat u = b) then 1 else 0) -
                 (if decide (l !!! Z.to_nat u = a) then 1 else 0)).
  set (m := occurrences i (neighbors indices indptr i)).
  set (S := sumZ c (neighbors indices indptr i)).
  assert (∀ w, 0 ≤ w < n →
            l' !!! Z.to_nat w = if decide (w = i) then b else l !!! Z.to_nat w)
    as Hl'.
  { intros w Hw. subst l'. case_decide as Hwi.
    - subst w. apply list_lookup_total_insert_eq. lia.
    - apply list_lookup_total_insert_ne. lia. }
  assert (S = occurrences b (neighbor_labels indices indptr l i) -
              occurrences a (neighbor_labels indices indptr l i)) as HS.
  { unfold neighbor_labels. rewrite !occurrences_sumZ, !sumZ_fmap.
    subst S c.
    rewrite (sumZ_ext _ (λ w, (if decide (l !!! Z.to_nat w = b) then 1 else 0) +
                              (-1) * (if decide (l !!! Z.to_nat w = a) then 1 else 0)))
      by (intros; lia).
    rewrite sumZ_plus.
    assert (∀ f l0, sumZ (λ w, (-1) * f w) l0 = - sumZ f l0) as Hneg.
    { intros f l0. induction l0 as [|y l0 IH]; [done|].
      rewrite !sumZ_cons, IH. lia. }
    rewrite (Hneg (λ w, if decide (l !!! Z.to_nat w = a) then 1 else 0)). lia. }
  assert (∀ u, u ∈ seqZ 0 n →
            occurrences (l' !!! Z.to_nat u) (neighbor_labels indices indptr l' u) =
            occurrences (l !!! Z.to_nat u) (neighbor_labels indices indptr l u) +
            (occurrences u (neighbors indices indptr i) * c u +
             (if decide (u = i) then S + 2 * m else 0))) as Hpoint.
  { intros u Hu%elem_of_seqZ. rewrite !own_tally_sumZ.
    rewrite (symmetric_spec i u) by lia.
    pose proof (neighbors_range u) as Hrange. rewrite Forall_forall in Hrange.
    rewrite Hl' by lia. case_decide as Hui.
    - subst u.
      rewrite (sumZ_ext _ (λ w, (if decide (l !!! Z.to_nat w = l !!! Z.to_nat i)
                                 then 1 else 0) +
                                (c w + (if decide (w = i) then 1 else 0)))).
      + rewrite !sumZ_plus.
        rewrite (sumZ_at (λ _, 1)). fold S m.
        assert (c i = -1) as ->
          by (subst c; simpl; fold a; rewrite decide_False, decide_True by done; lia).
        lia.
      + intros w Hw. rewrite Hl' by (apply Hrange in Hw; lia).
        subst c. simpl. fold a. repeat case_decide; subst; (done || lia).
    - rewrite (sumZ_ext _ (λ w, (if decide (l !!! Z.to_nat w = l !!! Z.to_nat u)
                                 then 1 else 0) +
                                (if decide (w = i) then c u else 0))).
      + rewrite sumZ_plus, (sumZ_at (λ _, c u)). lia.
      + intros w Hw. rewrite Hl' by (apply Hrange in Hw; lia).
        subst c. simpl. fold a. repeat case_decide; subst; (done || lia || congruence). }
  unfold agreement. rewrite (sumZ_ext _ _ _ Hpoint), !sumZ_plus.
  rewrite <- (sumZ_weights n c (neighbors indices indptr i)) by apply neighbors_range.
  rewrite (sumZ_at (λ _, S + 2 * m)), occurrences_seqZ by done.
  fold S. rewrite HS. fold a. lia.
Qed.

End Agreement.

(** ** Termination on undirected graphs (X4, X5) *)

Section Termination.

Context {rng_state : Type}.
Variable rand : rng_state → Z * rng_state.
Hypothesis rand_nonneg : ∀ g, 0 ≤ (rand g).1.
Variables (n : Z) (indices indptr : list Z).
Hypothesis valid : valid_csr n indices indptr.
Hypothesis sym : symmetric n indices indptr.
Implicit Types (st : state rng_state) (g : rng_state).

Local Notation "'agree' st" :=
  (agreement n indices indptr (labels st)) (at level 10, st at level 9).

(** A node of an undirected graph does not lower the agreement, and
    raises it by 2 at least when it changes its label. *)
Lemma node_step_agreement st (k : Z) :
  ready n st → 0 ≤ k < n →
  ∃ st', node_step indices indptr k st = Ok st' ∧ ready n st' ∧
    (labels st' = labels st ∧ changed st' = changed st ∨
     agree st + 2 ≤ agree st' ∧ changed st' = true).
Proof.
  intros Hr Hk.
  destruct (valid_node_step n indices indptr valid st k Hr Hk)
    as (i & st' & Hi & Hord & Hstep & Hres).
  exists st'. split; [done|]. split.
  { pose proof (node_step_inv n indices indptr (λ _, True) ltac:(done) st k
                  Hr I Hk) as Hinv.
    rewrite Hstep in Hinv. by destruct Hinv. }
  destruct Hres as (Hl' & _ & _ & _ & Hch' & _).
  pose proof Hr as (_ & [Hlen _] & _).
  set (labs := neighbor_labels indices indptr (labels st) i) in *.
  set (own := labels st !!! Z.to_nat i) in *.
  pose proof (winner_spec labs own (first_seen labs)) as [_ Hcase].
  pose proof (winner_tally labs own (first_seen labs)) as Htally.
  destruct (winner labs own (first_seen labs)) as [c w]; simpl in *.
  destruct Hcase as [[-> ->]|(Hgt & _)].
  - left. split.
    + rewrite Hl'. apply list_insert_id. apply list_lookup_lookup_total_lt. lia.
    + rewrite Hch', bool_decide_false by lia. apply orb_false_r.
  - right. split.
    + assert (w ≠ own) as Hne by (intros ->; lia).
      rewrite Hl', (agreement_insert n indices indptr valid sym) by done.
      fold labs own.
      pose proof (occurrences_nonneg i (neighbors indices indptr i)).
      lia.
    + rewrite Hch', bool_decide_true by done. apply orb_true_r.
Qed.

Lemma pass_agreement st :
  ready n st →
  ∃ st', pass rand n indices indptr st = Ok st' ∧ ready n st' ∧
    agree st ≤ agree st' ∧
    (changed st' = true → agree st + 2 ≤ agree st').
Proof.
  intros Hr.
  destruct (pass_enter_spec rand rand_nonneg n st Hr)
    as (st0 & Henter & Hr0 & Hl0 & Hch0 & _).
  unfold pass. rewrite Henter. simpl.
  pose proof (forM_invariant
    (λ s, ready n s ∧ agree st ≤ agree s ∧
          (changed s = true → agree st + 2 ≤ agree s))
    (λ _, False) (node_step indices indptr) (range 0 n) st0) as Hloop.
  destruct (forM (node_step indices indptr) (range 0 n) st0) as [st'|e];
    [exists st'; split; [done|]|exfalso]; apply Hloop;
    try (rewrite Hl0, Hch0; split; [done|]; split; [lia|done]);
    intros k s Hk%elem_of_range (Hs & Hle & Hchs);
    destruct (node_step_agreement s k Hs ltac:(lia))
      as (s' & -> & Hs' & [[Hl' Hch']|[Hup Hch']]);
    try (rewrite Hl', Hch'; done);
    (split; [done|]; split; [lia|]; intros _; lia).
Qed.

(** The loop ends before the agreement can pass the number of entries of
    [indices]. *)
Lemma while_terminates (fuel : nat) st :
  ready n st →
  Z.of_nat (length indices) < agree st + 2 * Z.of_nat fuel →
  ∃ st', while_changed rand n indices indptr fuel st = Some (Ok st').
Proof.
  revert st. induction fuel as [|fuel IH]; intros st Hr Hfuel.
  - pose proof (agreement_bounds n indices indptr valid (labels st)). lia.
  - simpl. destruct (changed st) eqn:Hch; [|by eexists].
    destruct (pass_agreement st Hr) as (st1 & -> & Hr1 & Hle & Hup).
    destruct (changed st1) eqn:Hch1.
    + apply IH; [done|]. specialize (Hup eq_refl). lia.
    + exists st1. by apply while_changed_done.
Qed.

(** X5.  On an undirected graph no node lowers the number of entries of
    [indices] whose two nodes carry the same label, and a node that changes
    its label raises it by 2 at least; so does a pass that ends with
    [changed] raised. *)
Theorem agreement_grows st :
  ready n st →
  (∀ k, 0 ≤ k < n →
     ∃ st', node_step indices indptr k st = Ok st' ∧
       agree st ≤ agree st' ∧
       (labels st' ≠ labels st → agree st + 2 ≤ agree st')) ∧
  (∃ st', pass rand n indices indptr st = Ok st' ∧
     agree st ≤ agree st' ≤ Z.of_nat (length indices) ∧
     (changed st' = true → agree st + 2 ≤ agree st')).
Proof.
  intros Hr. split.
  - intros k Hk.
    destruct (node_step_agreement st k Hr Hk)
      as (st' & Hstep & _ & [[Hl' _]|[Hup _]]); exists st'.
    + split; [done|]. rewrite Hl'. split; [lia|done].
    + split; [done|]. split; [lia|done].
  - destruct (pass_agreement st Hr) as (st' & Hpass & _ & Hle & Hup).
    exists st'. split; [done|]. split; [|done]. split; [done|].
    apply (agreement_bounds n indices indptr valid).
Qed.

Lemma fit_core_returns g :
  ∃ l g', ∀ fuel, (length indices `div` 2 < fuel)%nat →
    fit_core rand n indices indptr fuel g = Some (Ok (l, g')).
Proof.
  pose proof valid as (Hn & _).
  destruct (init_state_spec n g Hn) as (scratch0 & Hinit & _).
  destruct (init_state_ready n g _ Hinit) as (Hr & _).
  set (st0 := State (arange n) (arange n) (tallies n []) scratch0 0 0 true g)
    in *.
  destruct (while_terminates (S (length indices `div` 2)) st0 Hr) as (st' & Hw).
  { pose proof (agreement_bounds n indices indptr valid (labels st0)).
    pose proof (Nat.div_mod_eq (length indices) 2).
    pose proof (Nat.mod_upper_bound (length indices) 2). lia. }
  exists (labels st'), (gen st'). intros fuel Hfuel.
  apply (fit_core_mono rand n indices indptr (S (length indices `div` 2)));
    [|lia].
  unfold fit_core, run. by rewrite Hinit, Hw.
Qed.

(** X4.  On an undirected graph [fit_core] returns, whatever the generator
    draws: every pass but the last raises the agreement by 2 at least, and
    the agreement cannot pass [len(indices)], so the number [p] of passes
    that the loop makes is no more than [len(indices) / 2 + 1]. *)
Theorem terminates_on_undirected_graph g :
  ∃ l g' p, (0 < p ≤ S (length indices `div` 2))%nat ∧
    (∀ fuel, (p ≤ fuel)%nat →
       fit_core rand n indices indptr fuel g = Some (Ok (l, g'))) ∧
    (∀ fuel, (fuel < p)%nat →
       fit_core rand n indices indptr fuel g = None).
Proof.
  pose proof valid as (Hn & _).
  destruct (init_state_spec n g Hn) as (scratch0 & Hinit & _).
  destruct (init_state_ready n g _ Hinit) as (Hr & _ & Hch & _).
  set (st0 := State (arange n) (arange n) (tallies n []) scratch0 0 0 true g)
    in *.
  destruct (while_terminates (S (length indices `div` 2)) st0 Hr) as (st' & Hw).
  { pose proof (agreement_bounds n indices indptr valid (labels st0)).
    pose proof (Nat.div_mod_eq (length indices) 2).
    pose proof (Nat.mod_upper_bound (length indices) 2). lia. }
  destruct (while_passes rand n indices indptr _ st0 st' Hw)
    as (p & Hp & Hrun & Hmin & Hpos & _).
  exists (labels st'), (gen st'), p. split; [specialize (Hpos Hch); lia|].
  split; intros fuel Hfuel; unfold fit_core, run; rewrite Hinit.
  - by rewrite (while_changed_mono rand n indices indptr p fuel st0 _ Hrun Hfuel).
  - by rewrite (Hmin fuel Hfuel).
Qed.

End Termination.

(** ** More on shuffle (X12, X13) *)

Section ShuffleFrame.

Context {rng_state : Type}.
Variable rand : rng_state → Z * rng_state.
Hypothesis rand_nonneg : ∀ g, 0 ≤ (rand g).1.

Lemma swap_app (pre suf : list Z) (i j : nat) :
  (i < length pre)%nat → (j < length pre)%nat →
  swap (pre ++ suf) i j = swap pre i j ++ suf.
Proof.
  intros Hi Hj. unfold swap. rewrite !lookup_app_l by done.
  destruct (pre !! i) as [x|]; [|done]. destruct (pre !! j) as [y|]; [|done].
  rewrite insert_app_l by done.
  by rewrite insert_app_l by (by rewrite length_insert).
Qed.

(** The traversal from index [i] down touches the first [i + 1] elements
    only. *)
Lemma fisher_yates_app (i : nat) (pre suf : list Z) (g : rng_state) :
  (i < length pre)%nat →
  fisher_yates rand i (pre ++ suf) g =
    ((fisher_yates rand i pre g).1 ++ suf, (fisher_yates rand i pre g).2).
Proof.
  revert pre g. induction i as [|i IH]; intros pre g Hi; [done|].
  cbn [fisher_yates]. pose proof (rand_nonneg g) as Hr.
  destruct (rand g) as [r g'] eqn:Hg. simpl in Hr.
  pose proof (Z.mod_pos_bound r (Z.of_nat (S i) + 1) ltac:(lia)) as Hj.
  rewrite swap_app by lia. apply IH. rewrite length_swap. lia.
Qed.

(** X12.  [shuffle(arr, n)] on an array that has more than [n]
    elements: those from index [n] on stay where they are, and the first
    [n] are permuted among themselves. *)
Theorem shuffle_prefix_only (arr : list Z) (n : Z) (g : rng_state) :
  0 ≤ n ≤ Z.of_nat (length arr) →
  ∃ out g', shuffle rand arr n g = Ok (out, g') ∧
    take (Z.to_nat n) out ≡ₚ take (Z.to_nat n) arr ∧
    drop (Z.to_nat n) out = drop (Z.to_nat n) arr.
Proof.
  intros Hn. rewrite (shuffle_fisher_yates rand rand_nonneg) by lia.
  destruct (decide (n = 0)) as [->|Hne].
  { exists arr, g. done. }
  replace (fisher_yates rand (Z.to_nat (n - 1)) arr g)
    with (fisher_yates rand (Z.to_nat (n - 1))
            (take (Z.to_nat n) arr ++ drop (Z.to_nat n) arr) g)
    by (by rewrite take_drop).
  rewrite fisher_yates_app by (rewrite length_take; lia).
  pose proof (fisher_yates_Permutation rand (Z.to_nat (n - 1))
                (take (Z.to_nat n) arr) g) as Hperm.
  destruct (fisher_yates rand (Z.to_nat (n - 1)) (take (Z.to_nat n) arr) g)
    as [pre g'] eqn:Hfy. simpl in *.
  assert (length pre = Z.to_nat n) as Hlen.
  { apply Permutation_length in Hperm. rewrite Hperm, length_take. lia. }
  exists (pre ++ drop (Z.to_nat n) arr), g'. split; [done|]. split.
  - by rewrite take_app_length' by done.
  - by rewrite drop_app_length' by done.
Qed.

End ShuffleFrame.

Section Reach.

Lemma swap_lookup_i (l : list Z) (i j : nat) (y : Z) :
  (i < length l)%nat → l !! j = Some y → swap l i j !! i = Some y.
Proof.
  intros Hi Hj. unfold swap.
  destruct (lookup_lt_is_Some_2 l i Hi) as [x Hx]. rewrite Hx, Hj.
  destruct (decide (i = j)) as [->|Hne].
  - rewrite list_lookup_insert_eq by (rewrite length_insert; lia). congruence.
  - rewrite list_lookup_insert_ne by done.
    by rewrite list_lookup_insert_eq by lia.
Qed.

(** Every ordering of [i + 1] elements is the outcome of the traversal
    for some outputs of the generator, none of which exceeds [i]. *)
Lemma fisher_yates_reaches (i : nat) (arr out : list Z) :
  length arr = S i → out ≡ₚ arr →
  ∃ t, length t = i ∧ Forall (λ r, (r ≤ i)%nat) t ∧
    fisher_yates tape_rand i arr t = (out, []).
Proof.
  revert arr out. induction i as [|i IH]; intros arr out Hlen Hperm.
  - exists []. split; [done|]. split; [done|].
    destruct arr as [|x [|]]; simplify_eq/=.
    by apply Permutation_singleton_r in Hperm as ->.
  - pose proof (Permutation_length Hperm) as Hlen'. rewrite Hlen in Hlen'.
    destruct (lookup_lt_is_Some_2 out (S i)) as [y Hy]; [lia|].
    assert (y ∈ arr) as Hin
      by (rewrite <- Hperm; by eapply list_elem_of_lookup_2).
    apply list_elem_of_lookup_1 in Hin as [j Hj].
    pose proof (lookup_lt_Some _ _ _ Hj) as Hjlt.
    set (arr1 := swap arr (S i) j).
    assert (arr1 !! S i = Some y) as Hlast
      by (apply swap_lookup_i; [lia|done]).
    assert (length arr1 = S (S i)) as Hlen1
      by (subst arr1; by rewrite length_swap).
    assert (arr1 = take (S i) arr1 ++ [y]) as Harr1.
    { rewrite <- (take_S_r _ _ _ Hlast), <- Hlen1. by rewrite firstn_all. }
    assert (out = take (S i) out ++ [y]) as Hout.
    { rewrite <- (take_S_r _ _ _ Hy), <- Hlen'. by rewrite firstn_all. }
    destruct (IH (take (S i) arr1) (take (S i) out)) as (t & Ht & Hle & Hrun).
    { rewrite length_take. lia. }
    { apply (Permutation_app_inv_r [y]). rewrite <- Harr1, <- Hout.
      subst arr1. by rewrite swap_Permutation. }
    exists (j :: t). split; [by rewrite <- Ht|]. split.
    + constructor; [lia|]. eapply Forall_impl; [exact Hle|]. simpl. lia.
    + cbn [fisher_yates tape_rand].
      rewrite Z.mod_small by lia. rewrite Nat2Z.id. fold arr1.
      rewrite Harr1, (fisher_yates_app tape_rand tape_rand_nonneg)
        by (rewrite length_take; lia).
      rewrite Hrun. simpl. by rewrite <- Hout.
Qed.

Lemma elem_of_tapes (rand_max : Z) (t : list nat) :
  Forall (λ r, Z.of_nat r ≤ rand_max) t → t ∈ tapes rand_max (length t).
Proof.
  induction 1 as [|r t Hr Ht IH]; [by apply list_elem_of_singleton|].
  cbn [length tapes]. apply list_elem_of_bind. exists r. split.
  - apply list_elem_of_fmap. by exists t.
  - apply elem_of_seq. lia.
Qed.

(** X13.  [shuffle] can produce every ordering of the array: for each
    one there are [n - 1] outputs of the generator, all below [n], that
    lead to it; so with outputs uniform on [[0, rand_max]],
    [n - 1 <= rand_max], no ordering has probability zero. *)
Theorem shuffle_reaches_every_ordering (arr out : list Z) :
  out ≡ₚ arr →
  ∃ t, length t = (length arr - 1)%nat ∧
    Forall (λ r, (r < length arr)%nat) t ∧
    shuffle tape_rand arr (Z.of_nat (length arr)) t = Ok (out, []) ∧
    ∀ rand_max, Z.of_nat (length arr) - 1 ≤ rand_max →
      (0 < ways rand_max arr out)%nat.
Proof.
  intros Hperm.
  assert (∃ t, length t = (length arr - 1)%nat ∧
            Forall (λ r, (r < length arr)%nat) t ∧
            shuffle tape_rand arr (Z.of_nat (length arr)) t = Ok (out, []))
    as (t & Ht & Hlt & Hrun).
  { destruct arr as [|x arr].
    { apply Permutation_nil_r in Hperm as ->. by exists []. }
    destruct (fisher_yates_reaches (length arr) (x :: arr) out eq_refl Hperm)
      as (t & Ht & Hle & Hrun).
    exists t. split; [cbn [length]; lia|]. split.
    - eapply Forall_impl; [exact Hle|]. simpl. lia.
    - rewrite (shuffle_fisher_yates tape_rand tape_rand_nonneg) by lia.
      cbn [length].
      replace (Z.to_nat (Z.of_nat (S (length arr)) - 1)) with (length arr) by lia.
      by rewrite Hrun. }
  exists t. do 3 (split; [done|]). intros rand_max Hmax. unfold ways.
  assert (t ∈ filter (λ t0, shuffled arr t0 = Some out)
                (tapes rand_max (length arr - 1))) as Hin.
  { apply list_elem_of_filter. split; [unfold shuffled; by rewrite Hrun|].
    rewrite <- Ht. apply elem_of_tapes.
    eapply Forall_impl; [exact Hlt|]. simpl. lia. }
  destruct (filter _ _); [by apply elem_of_nil in Hin|simpl; lia].
Qed.

End Reach.

(** ** A directed graph on which the loop does not end (X6) *)

Section DirectedCycle.

Context {rng_state : Type}.
Variable rand : rng_state → Z * rng_state.
Hypothesis rand_nonneg : ∀ g, 0 ≤ (rand g).1.
Hypothesis rand_last : ∀ g, (rand g).1 mod 6 = 5.
Implicit Types (st : state rng_state) (g : rng_state).






End DirectedCycle.

(** ** Negative entries of indices (X10) *)

Section Wraparound.

Context {rng_state : Type}.
Variable rand : rng_state → Z * rng_state.
Variables (n : Z) (indices indptr : list Z).
Hypothesis indices_wrap : Forall (λ v, - n ≤ v) indices.
Implicit Types (st : state rng_state) (g : rng_state).

(** Two loop bodies that agree on the states of an invariant. *)
Lemma forM_ext {T : Type} (I : T → Prop) (body1 body2 : Z → T → res T)
    (xs : list Z) (s : T) :
  (∀ x s0, I s0 → body1 x s0 = body2 x s0) →
  (∀ x s0 s1, I s0 → body2 x s0 = Ok s1 → I s1) →
  I s → forM body1 xs s = forM body2 xs s.
Proof.
  intros Hext Hinv. revert s. induction xs as [|x xs IH]; intros s Hs; [done|].
  simpl. rewrite (Hext x s Hs).
  destruct (body2 x s) as [s1|e] eqn:Hx; [|done].
  apply IH. by eapply Hinv.
Qed.

Lemma buf_get_fmap (f : Z → Z) (a : list Z) (j : Z) :
  buf_get (f <$> a) j =
    match buf_get a j with Ok v => Ok (f v) | Err e => Err e end.
Proof.
  unfold buf_get. rewrite length_fmap. case_match; [done|].
  rewrite list_lookup_fmap. by destruct (a !! _).
Qed.

Lemma buf_get_wrap (a : list Z) (v : Z) :
  - Z.of_nat (length a) ≤ v →
  buf_get a (wrap_index (Z.of_nat (length a)) v) = buf_get a v.
Proof.
  intros Hv. unfold buf_get.
  assert (wrap_index (Z.of_nat (length a)) (wrap_index (Z.of_nat (length a)) v) =
          wrap_index (Z.of_nat (length a)) v) as ->; [|done].
  unfold wrap_index.
  destruct (Z.ltb_spec v 0); [|by rewrite (proj2 (Z.ltb_ge v 0))].
  by rewrite (proj2 (Z.ltb_ge (v + Z.of_nat (length a)) 0)) by lia.
Qed.

Lemma neighbor_label_wrap (j : Z) st :
  Z.of_nat (length (labels st)) = n →
  neighbor_label (wrap_index n <$> indices) j st = neighbor_label indices j st.
Proof.
  intros Hlen. unfold neighbor_label. rewrite buf_get_fmap.
  destruct (buf_get indices j) as [v|e] eqn:Hv; [|done]. simpl.
  rewrite <- Hlen. apply buf_get_wrap.
  apply buf_get_elem in Hv. rewrite Forall_forall in indices_wrap.
  specialize (indices_wrap v Hv). lia.
Qed.

Lemma tally_step_labels (ind : list Z) (j : Z) st st' :
  tally_step ind j st = Ok st' → labels st' = labels st.
Proof.
  unfold tally_step. intros Hstep.
  apply bind_Ok in Hstep as (lab & _ & Hstep).
  apply bind_Ok in Hstep as (c & _ & Hstep).
  apply bind_Ok in Hstep as (st1 & Hst1 & Hstep).
  apply bind_Ok in Hstep as (nb & _ & [= <-]).
  destruct (c =? 0).
  - apply bind_Ok in Hst1 as (lst' & _ & [= <-]). done.
  - by injection Hst1 as <-.
Qed.

Lemma select_step_length (i j : Z) st st' :
  select_step i j st = Ok st' → length (labels st') = length (labels st).
Proof.
  unfold select_step. intros Hstep.
  apply bind_Ok in Hstep as (lab & _ & Hstep).
  apply bind_Ok in Hstep as (c & _ & Hstep).
  apply bind_Ok in Hstep as (st1 & Hst1 & Hstep).
  apply bind_Ok in Hstep as (nb & _ & [= <-]).
  destruct (nb_lab_max st <? c).
  - apply bind_Ok in Hst1 as (labels' & Hset & [= <-]). simpl.
    unfold buf_set in Hset. case_match; [done|]. injection Hset as <-.
    by rewrite length_insert.
  - by injection Hst1 as <-.
Qed.

Lemma node_step_length (ind : list Z) (k : Z) st st' :
  node_step ind indptr k st = Ok st' →
  length (labels st') = length (labels st).
Proof.
  unfold node_step, node_enter, count_neighbors, select_init.
  intros Hstep. apply bind_Ok in Hstep as ([i st2] & Henter & Hsel).
  apply bind_Ok in Henter as (i' & _ & Henter).
  apply bind_Ok in Henter as (st1 & Hcount & Henter).
  apply bind_Ok in Henter as (st2' & Hinit & [= <- <-]).
  apply bind_Ok in Hcount as ([lo hi] & _ & Hcount).
  apply bind_Ok in Hinit as (own & _ & Hinit).
  apply bind_Ok in Hinit as (m & _ & [= <-]).
  rewrite (forM_preserves (λ s, length (labels s)) _ _ _ _
             (select_step_length i') Hsel). simpl.
  by rewrite (forM_preserves labels _ _ _ _ (tally_step_labels ind) Hcount).
Qed.

Lemma node_step_wrap (k : Z) st :
  Z.of_nat (length (labels st)) = n →
  node_step (wrap_index n <$> indices) indptr k st =
    node_step indices indptr k st.
Proof.
  intros Hlen. unfold node_step, node_enter, count_neighbors.
  destruct (buf_get (order st) k) as [i|e]; [|done]. simpl.
  destruct (row_bounds indptr i) as [[lo hi]|e]; [|done]. simpl.
  rewrite (forM_ext (λ s, Z.of_nat (length (labels s)) = n)
             (tally_step (wrap_index n <$> indices)) (tally_step indices));
    [done| | |done].
  - intros j s Hs. unfold tally_step. by rewrite neighbor_label_wrap.
  - intros j s s' Hs Hstep. by rewrite (tally_step_labels _ _ _ _ Hstep).
Qed.

Lemma pass_wrap st :
  Z.of_nat (length (labels st)) = n →
  pass rand n (wrap_index n <$> indices) indptr st =
    pass rand n indices indptr st ∧
  ∀ st', pass rand n indices indptr st = Ok st' →
    Z.of_nat (length (labels st')) = n.
Proof.
  intros Hlen. unfold pass.
  destruct (pass_enter rand n st) as [st0|e] eqn:Henter; [|done]. simpl.
  assert (labels st0 = labels st) as Hl0.
  { unfold pass_enter in Henter.
    apply bind_Ok in Henter as ([o g'] & _ & [= <-]). done. }
  split.
  - apply (forM_ext (λ s, Z.of_nat (length (labels s)) = n));
      [| |by rewrite Hl0].
    + intros k s Hs. by apply node_step_wrap.
    + intros k s s' Hs Hstep. by rewrite (node_step_length _ _ _ _ Hstep).
  - intros st' Hloop.
    rewrite (forM_preserves (λ s, length (labels s)) _ _ _ _
               (node_step_length indices) Hloop). by rewrite Hl0.
Qed.

Lemma while_wrap (fuel : nat) st :
  Z.of_nat (length (labels st)) = n →
  while_changed rand n (wrap_index n <$> indices) indptr fuel st =
    while_changed rand n indices indptr fuel st.
Proof.
  revert st. induction fuel as [|fuel IH]; intros st Hlen; [done|]. simpl.
  destruct (changed st); [|done].
  destruct (pass_wrap st Hlen) as [-> Hnext].
  destruct (pass rand n indices indptr st) as [st'|e]; [|done].
  apply IH. by apply Hnext.
Qed.

(** X10.  The reads of [labels[indices[j]]] wrap around: a negative
    entry [v] of [indices], not below [-n_nodes], is taken for the node
    [v + n_nodes], with no error. *)
Theorem negative_neighbour_wraps (fuel : nat) g :
  fit_core rand n indices indptr fuel g =
    fit_core rand n (wrap_index n <$> indices) indptr fuel g.
Proof.
  unfold fit_core, run.
  destruct (init_state n g) as [st|e] eqn:Hinit; [|done].
  destruct (init_state_ready n g st Hinit) as ((Hn & [Hlen _] & _) & _).
  rewrite while_wrap by lia. done.
Qed.

End Wraparound.

(** ** fit_transform on an undirected graph (X15) *)

Section LabelsOk.

Context {rng_state : Type}.
Variable rand : rng_state → Z * rng_state.
Hypothesis rand_nonneg : ∀ g, 0 ≤ (rand g).1.
Implicit Types (g : rng_state).

Lemma fit_core_labels_ok (n : Z) (indices indptr : list Z) (fuel : nat) g
    (l : list Z) g' :
  fit_core rand n indices indptr fuel g = Some (Ok (l, g')) → labels_ok n l.
Proof.
  unfold fit_core, run. destruct (init_state n g) as [st|e] eqn:Hinit; [|done].
  destruct (init_state_ready n g st Hinit) as (Hr & _).
  pose proof (while_inv rand rand_nonneg n indices indptr (λ _, True)
                ltac:(done) fuel st Hr I) as Hinv.
  destruct (while_changed rand n indices indptr fuel st) as [[st'|e]|];
    [|done..].
  intros [= <- _]. by destruct Hinv as ((_ & ? & _) & _).
Qed.

End LabelsOk.

Section Undirected.

Context {rng_state : Type}.
Variable rand : rng_state → Z * rng_state.
Hypothesis rand_nonneg : ∀ g, 0 ≤ (rand g).1.
Variable srand : Z → rng_state.
Implicit Types (g : rng_state) (h : heap) (adj : csr_matrix).

(** X15.  [fit_transform] on a valid undirected graph, called on an
    object whose seed is [None] or an [unsigned int], with a [shape[0]]
    that is a C [int] and index arrays that are writable buffers of C
    [int]s: given [len(indices) / 2 + 1] passes it returns, and what it
    returns is a new array, the one [labels_] then refers to, that holds a
    node id for every node and is a fixed point of the update. *)
Theorem fit_transform_on_undirected_graph (self : loc) adj h g
    (obj : LabelPropagation) :
  let n := shape0 adj in
  let indices := csr_indices adj in
  let indptr := csr_indptr adj in
  valid_csr n indices indptr → symmetric n indices indptr →
  n < 2 ^ 31 →
  c_int_buffer (indices_buffer adj) → c_int_buffer (indptr_buffer adj) →
  objects h !! self = Some obj →
  (∀ k, seed obj = Some k → 0 ≤ k < 2 ^ 32) →
  ∃ a l h' g',
    (∀ fuel, (length indices `div` 2 < fuel)%nat →
       fit_transform rand srand fuel self adj h g =
         Some (Returns (Some a) h' g')) ∧
    (a ∉ dom (arrays h)) ∧
    arrays h' !! a = Some l ∧
    fitted_labels h' self = Some l ∧
    labels_ok n l ∧
    fixed_point n indices indptr l.
Proof.
  intros n indices indptr Hvalid Hsym Hint Hb1 Hb2 Hobj Hseed.
  assert (∃ g1, seed_generator srand (seed obj) g = Ok g1) as (g1 & Hgen).
  { unfold seed_generator, as_unsigned_int.
    destruct (seed obj) as [k|]; [|by eexists].
    specialize (Hseed k eq_refl).
    destruct (Z.leb_spec 0 k), (Z.ltb_spec k (2 ^ 32)); try lia.
    by eexists. }
  assert (fit_core_args adj = Ok (n, indices, indptr)) as Hargs.
  { apply fit_core_args_Ok. pose proof Hvalid as (Hn & _).
    split_and!; (done || lia). }
  destruct (fit_core_returns rand rand_nonneg n indices indptr Hvalid Hsym g1)
    as (l & g' & Hrun).
  pose proof (Hrun (S (length indices `div` 2)) ltac:(lia)) as Hrun0.
  pose proof (fit_core_fixed_point rand rand_nonneg n indices indptr Hvalid
                (S (length indices `div` 2)) g1) as Hfix.
  rewrite Hrun0 in Hfix.
  exists (fresh (dom (arrays h))), l,
    (Heap (<[self := Object (Some (fresh (dom (arrays h)))) (seed obj)]>
             (objects h))
          (<[fresh (dom (arrays h)) := l]> (arrays h))), g'.
  split_and!.
  - intros fuel Hfuel. unfold fit_transform, fit.
    rewrite Hobj, Hgen, Hargs, (Hrun fuel Hfuel).
    simpl. by rewrite lookup_insert_eq.
  - apply is_fresh.
  - simpl. by rewrite lookup_insert_eq.
  - unfold fitted_labels. simpl. rewrite lookup_insert_eq. simpl.
    by rewrite lookup_insert_eq.
  - by eapply fit_core_labels_ok.
  - done.
Qed.

End Undirected.

(** ** Complete graphs (X17) *)

Section Complete.

Context {rng_state : Type}.
Variable rand : rng_state → Z * rng_state.
Hypothesis rand_nonneg : ∀ g, 0 ≤ (rand g).1.
Variables (n : Z) (indices indptr : list Z).
Hypothesis valid : valid_csr n indices indptr.
Hypothesis full : complete n indices indptr.
Implicit Types (g : rng_state) (l : list Z).

Lemma complete_row (i : Z) :
  0 ≤ i < n →
  neighbors indices indptr i ≡ₚ filter (λ v, v ≠ i) (seqZ 0 n).
Proof.
  intros Hi. unfold complete in full. rewrite Forall_forall in full.
  apply full. apply elem_of_seqZ. lia.
Qed.

Lemma occurrences_Permutation (x : Z) (l1 l2 : list Z) :
  l1 ≡ₚ l2 → occurrences x l1 = occurrences x l2.
Proof. intros Hperm. unfold occurrences. by rewrite Hperm. Qed.

Lemma sumZ_filter_ne (f : Z → Z) (i : Z) (l : list Z) :
  sumZ f (filter (λ v, v ≠ i) l) = sumZ f l - f i * occurrences i l.
Proof.
  induction l as [|y l IH]; [rewrite occurrences_nil, !sumZ_nil; lia|].
  rewrite filter_cons, occurrences_cons, sumZ_cons.
  case_decide as Hy; case_decide; subst; try done.
  - rewrite sumZ_cons, IH. lia.
  - rewrite IH. lia.
Qed.

Lemma occurrences_lookups (x : Z) l :
  length l = Z.to_nat n →
  sumZ (λ v, if decide (l !!! Z.to_nat v = x) then 1 else 0) (seqZ 0 n) =
    occurrences x l.
Proof.
  intros Hlen. rewrite occurrences_sumZ.
  transitivity (sumZ (λ y, if decide (y = x) then 1 else 0)
                  ((λ v, l !!! Z.to_nat v) <$> seqZ 0 n));
    [by rewrite sumZ_fmap|].
  f_equal. apply list_eq. intros k. rewrite list_lookup_fmap.
  destruct (decide (k < length l)%nat) as [Hk|Hk].
  - rewrite lookup_seqZ_lt by lia. simpl.
    replace (Z.to_nat (0 + Z.of_nat k)) with k by lia.
    symmetry. by apply list_lookup_lookup_total_lt.
  - rewrite lookup_seqZ_ge by lia. simpl. symmetry.
    apply lookup_ge_None. lia.
Qed.

(** The tally of a label at a node of a complete graph: the nodes that
    carry it, the node itself apart. *)
Lemma complete_tally (x i : Z) l :
  length l = Z.to_nat n → 0 ≤ i < n →
  occurrences x (neighbor_labels indices indptr l i) =
    occurrences x l - (if decide (l !!! Z.to_nat i = x) then 1 else 0).
Proof.
  intros Hlen Hi. unfold neighbor_labels.
  rewrite (occurrences_Permutation x _
             ((λ v, l !!! Z.to_nat v) <$> filter (λ v, v ≠ i) (seqZ 0 n)))
    by (by rewrite complete_row).
  rewrite occurrences_sumZ, sumZ_fmap, sumZ_filter_ne.
  rewrite occurrences_lookups, occurrences_seqZ by done. lia.
Qed.

Lemma complete_symmetric : symmetric n indices indptr.
Proof.
  unfold symmetric. apply Forall_forall. intros i Hi%elem_of_seqZ.
  apply Forall_forall. intros v Hv%elem_of_seqZ.
  rewrite (occurrences_Permutation v _ _ (complete_row i ltac:(lia))).
  rewrite (occurrences_Permutation i _ _ (complete_row v ltac:(lia))).
  rewrite !occurrences_sumZ, !sumZ_filter_ne, <- !occurrences_sumZ.
  rewrite !occurrences_seqZ by lia. repeat case_decide; subst; (done || lia).
Qed.

(** X17.  On a complete graph [fit_core] returns, and gives every node the
    same label: one community. *)
Theorem complete_graph_one_community g :
  ∃ l g',
    (∀ fuel, (length indices `div` 2 < fuel)%nat →
       fit_core rand n indices indptr fuel g = Some (Ok (l, g'))) ∧
    ∀ i j, 0 ≤ i < n → 0 ≤ j < n → l !!! Z.to_nat i = l !!! Z.to_nat j.
Proof.
  destruct (fit_core_returns rand rand_nonneg n indices indptr valid
              complete_symmetric g) as (l & g' & Hrun).
  exists l, g'. split; [done|]. intros i j Hi Hj.
  pose proof (Hrun (S (length indices `div` 2)) ltac:(lia)) as Hrun0.
  pose proof (fit_core_fixed_point rand rand_nonneg n indices indptr valid
                (S (length indices `div` 2)) g) as Hfix.
  pose proof (fit_core_labels_ok rand rand_nonneg n indices indptr _ g l g'
                Hrun0) as [Hlen _].
  rewrite Hrun0 in Hfix. unfold fixed_point in Hfix.
  rewrite Forall_forall in Hfix.
  pose proof (proj1 (settled_spec indices indptr l i)
                (Hfix i ltac:(apply elem_of_seqZ; lia)) (l !!! Z.to_nat j))
    as Hi'.
  pose proof (proj1 (settled_spec indices indptr l j)
                (Hfix j ltac:(apply elem_of_seqZ; lia)) (l !!! Z.to_nat i))
    as Hj'.
  rewrite !complete_tally in Hi', Hj' by done.
  repeat case_decide; (done || lia || congruence).
Qed.

End Complete.

(** * The claims on concrete inputs

    The theorems above applied to the sample generator of ISO C and small
    graphs, and the inputs on which a sentence of the specification
    fails. *)

Lemma iso_rand_nonneg (g : Z) : 0 ≤ (iso_rand g).1.
Proof.
  unfold iso_rand. simpl. apply Z.mod_pos_bound. lia.
Qed.

Lemma pair_valid : valid_csr 2 pair_indices pair_indptr.
Proof. compute_done. Qed.

Lemma pair_start_ready : ready 2 pair_start.
Proof.
  unfold ready, labels_ok, pair_start. simpl.
  split_and!; try done; repeat constructor; lia.
Qed.

Lemma labels_in_range_witness :
  match fit_core iso_rand 2 pair_indices pair_indptr 2 1 with
  | Some (Ok (l, _)) => labels_ok 2 l
  | _ => False
  end.
Proof.
  pose proof (labels_in_range iso_rand iso_rand_nonneg 2 pair_indices
                pair_indptr 2 1) as (_ & _ & _ & Hret).
  revert Hret. vm_compute (fit_core _ _ _ _ _ _). exact (λ H, H).
Defined.

Lemma tally_table_clean_witness :
  Forall (λ st : state Z, nb_labels st = replicate (Z.to_nat 2) (Some 0))
    (run_trace iso_rand 2 pair_indices pair_indptr node_start 2 1).
Proof.
  exact (proj1 (tally_table_clean iso_rand iso_rand_nonneg 2 pair_indices
                  pair_indptr pair_valid 2 1)).
Defined.

Lemma labels_stay_in_component_witness :
  match fit_core iso_rand 2 pair_indices pair_indptr 2 1 with
  | Some (Ok (l, _)) =>
      rtc (edge pair_indices pair_indptr) 0 (l !!! Z.to_nat 0) ∧
      rtc (edge pair_indices pair_indptr) 1 (l !!! Z.to_nat 1)
  | _ => False
  end.
Proof.
  pose proof (labels_stay_in_component iso_rand iso_rand_nonneg 2
                pair_indices pair_indptr pair_valid 2 1) as [_ Hret].
  revert Hret. vm_compute (fit_core _ _ _ _ _ _). intros Hret.
  split; [apply (Hret 0 0)|apply (Hret 1 1)]; lia.
Defined.

Lemma node_update_rule_witness :
  ∃ st', node_step pair_indices pair_indptr 0 pair_start = Ok st' ∧
         changed st' = true.
Proof.
  destruct (node_update_rule 2 pair_indices pair_indptr pair_valid pair_start
              0 pair_start_ready ltac:(lia))
    as (i & st1 & st' & Hord & Hcount & Hstep & _ & _ & _ & _ & Hchange & _).
  exists st'. split; [exact Hstep|].
  assert (i = 0) as -> by (vm_compute in Hord; congruence).
  assert (labels st' = [1; 1]) as Hl
    by (vm_compute in Hstep; by injection Hstep as <-).
  apply Hchange. rewrite Hl. vm_compute. discriminate.
Defined.

Lemma edgeless_graph_witness :
  fit_core iso_rand 3 [] (replicate (Z.to_nat (3 + 1)) 0) 1 1 =
    Some (Ok (arange 3, draws iso_rand (Z.to_nat (3 - 1)) 1)).
Proof.
  exact (proj2 (proj2 (edgeless_graph iso_rand iso_rand_nonneg 3 0 0 1
                         ltac:(lia)))).
Defined.

Lemma two_node_graph_witness :
  ∃ b, ∀ fuel,
    fit_core iso_rand 2 [1; 0] [0; 1; 2] (S (S fuel)) 1 =
      Some (Ok ([b; b], draws iso_rand 2 1)).
Proof.
  destruct (two_node_graph iso_rand iso_rand_nonneg 1)
    as (a & b & st0 & e1 & m1 & st1 & st2 & H).
  exists b. apply H.
Defined.

Lemma shuffle_fisher_yates_permutation_witness :
  shuffle iso_rand [10; 20; 30; 40] 4 1 =
    Ok (fisher_yates iso_rand (Z.to_nat (4 - 1)) [10; 20; 30; 40] 1).
Proof.
  exact (proj1 (shuffle_fisher_yates_permutation iso_rand iso_rand_nonneg
                  [10; 20; 30; 40] 4 1 ltac:(simpl; lia))).
Defined.

Lemma seeded_runs_agree_witness :
  fit_passes iso_rand iso_srand 2 0%nat pair_matrix seeded_heap 1 =
  fit_passes iso_rand iso_srand 2 1%nat pair_matrix seeded_heap' 99.
Proof.
  refine (proj1 (proj2 (seeded_runs_agree iso_rand iso_srand 2 2 0%nat 1%nat
            pair_matrix seeded_heap seeded_heap' 1 99
            (Object None (Some 42)) (Object None (Some 42)) 42 _ _ _ _)) _);
    reflexivity.
Defined.

Lemma unvalidated_input_witness :
  match fit iso_rand iso_srand 2 0%nat stray_matrix seeded_heap 1 with
  | Some (Raises e h') => e = IndexError ∧ h' = seeded_heap
  | _ => False
  end.
Proof.
  pose proof (unvalidated_input iso_rand iso_rand_nonneg iso_srand 2 0%nat
                stray_matrix seeded_heap 1) as (_ & _ & Hwhy & _).
  destruct (fit iso_rand iso_srand 2 0%nat stray_matrix seeded_heap 1)
    as [[r h' g'|e h']|] eqn:Hfit.
  - vm_compute in Hfit. discriminate.
  - destruct (Hwhy e h' eq_refl) as [-> _]. split; [|reflexivity].
    vm_compute in Hfit. congruence.
  - vm_compute in Hfit. discriminate.
Defined.

(** ** Inputs on which a sentence of the specification fails *)

(** C2 fails: invalid graphs that are not rejected.  An entry of [indices]
    outside [[0, n_nodes)], an [indptr] that is too long, one that
    decreases, and a last offset that is not the length of [indices]: each
    is run to the end and answered with labels.  On the last graph an entry
    of [indices] is out of range where it is read; the [IndexError] comes
    after node 0 was relabelled, not before the first write. *)
Lemma invalid_input_not_rejected :
  (¬ valid_csr 1 [-1] [0; 1] ∧
   fit_core iso_rand 1 [-1] [0; 1] 1 1 = Some (Ok ([0], 1))) ∧
  (¬ valid_csr 1 [] [0; 0; 0] ∧
   fit_core iso_rand 1 [] [0; 0; 0] 1 1 = Some (Ok ([0], 1))) ∧
  (¬ valid_csr 2 [] [1; 0; 0] ∧
   fit_core iso_rand 2 [] [1; 0; 0] 1 1 = Some (Ok ([0; 1], 1103527590))) ∧
  (¬ valid_csr 1 [0] [0; 0] ∧
   fit_core iso_rand 1 [0] [0; 0] 1 1 = Some (Ok ([0], 1))) ∧
  (¬ valid_csr 2 [1; 5] [0; 1; 2] ∧
   fit_core iso_rand 2 [1; 5] [0; 1; 2] 1 3 = Some (Err IndexError) ∧
   [1; 1] ∈ labels <$>
     run_trace iso_rand 2 [1; 5] [0; 1; 2] (node_trace [1; 5] [0; 1; 2]) 1 3).
Proof.
  split_and!; try compute_done; vm_compute; reflexivity.
Qed.

(** C5 fails: with outputs uniform on [[0, RAND_MAX]], for the two values
    of [RAND_MAX] in use (32767 and 2147483647), the six orderings of three
    elements are not equally likely. *)
Lemma shuffle_not_uniform :
  ¬ uniform_shuffle 32767 [0; 1; 2] ∧ ¬ uniform_shuffle 2147483647 [0; 1; 2].
Proof.
  split; apply shuffle_bias; (lia || compute_done).
Qed.

(** C10 fails: a call of [fit] by an object whose seed is [None] calls no
    [srand], and yet leaves the generator in another state. *)
Lemma unseeded_fit_draws :
  match fit iso_rand iso_srand 2 0%nat pair_matrix
          (__init__ 0%nat None (Heap ∅ ∅)) 1 with
  | Some (Returns _ h' g') =>
      (seed <$> objects h' !! 0%nat) = Some None ∧ g' ≠ 1
  | _ => False
  end.
Proof. vm_compute. split; [reflexivity|discriminate]. Qed.

(** * The further properties on concrete inputs *)

Lemma loops_valid : valid_csr 3 loops_indices loops_indptr.
Proof. compute_done. Qed.

Lemma pair_symmetric : symmetric 2 pair_indices pair_indptr.
Proof. compute_done. Qed.

Lemma returned_labels_fixed_point_witness :
  match fit_core iso_rand 2 pair_indices pair_indptr 2 1 with
  | Some (Ok (l, _)) => fixed_point 2 pair_indices pair_indptr l
  | _ => False
  end.
Proof.
  pose proof (returned_labels_fixed_point iso_rand iso_rand_nonneg 2
                pair_indices pair_indptr pair_valid 2 1) as Hret.
  revert Hret. vm_compute (fit_core _ _ _ _ _ _). exact (λ H, proj1 H).
Defined.

Lemma pass_quiet_iff_fixed_point_witness :
  ∃ st', pass iso_rand 2 pair_indices pair_indptr pair_start = Ok st' ∧
         changed st' = true.
Proof.
  destruct (pass_quiet_iff_fixed_point iso_rand iso_rand_nonneg 2 pair_indices
              pair_indptr pair_valid pair_start pair_start_ready
              (reflexivity _))
    as (st' & Hpass & Hiff & _).
  exists st'. split; [exact Hpass|].
  destruct (changed st'); [reflexivity|].
  assert (¬ fixed_point 2 pair_indices pair_indptr (labels pair_start))
    as Hno by compute_done.
  destruct (Hno (proj1 Hiff eq_refl)).
Defined.

Lemma one_pass_iff_identity_fixed_point_witness :
  fit_core iso_rand 3 loops_indices loops_indptr 1 1 = None ∧
  fit_core iso_rand 1 [0] [0; 1] 1 1 =
    Some (Ok (arange 1, draws iso_rand (Z.to_nat (1 - 1)) 1)).
Proof.
  split.
  - apply (one_pass_iff_identity_fixed_point iso_rand iso_rand_nonneg 3
             loops_indices loops_indptr loops_valid 1). compute_done.
  - apply (one_pass_iff_identity_fixed_point iso_rand iso_rand_nonneg 1
             [0] [0; 1] ltac:(compute_done) 1). compute_done.
Defined.

Lemma terminates_on_undirected_graph_witness :
  ∃ l g' p, (0 < p ≤ S (length pair_indices `div` 2))%nat ∧
    (∀ fuel, (p ≤ fuel)%nat →
       fit_core iso_rand 2 pair_indices pair_indptr fuel 1 =
         Some (Ok (l, g'))) ∧
    (∀ fuel, (fuel < p)%nat →
       fit_core iso_rand 2 pair_indices pair_indptr fuel 1 = None).
Proof.
  exact (terminates_on_undirected_graph iso_rand iso_rand_nonneg 2
           pair_indices pair_indptr pair_valid pair_symmetric 1).
Defined.

Lemma agreement_grows_witness :
  ∃ st', pass iso_rand 2 pair_indices pair_indptr pair_start = Ok st' ∧
    agreement 2 pair_indices pair_indptr (labels pair_start) + 2 ≤
    agreement 2 pair_indices pair_indptr (labels st').
Proof.
  destruct (agreement_grows iso_rand iso_rand_nonneg 2 pair_indices
              pair_indptr pair_valid pair_symmetric pair_start
              pair_start_ready) as (_ & st' & Hpass & _ & Hup).
  exists st'. split; [exact Hpass|]. apply Hup.
  vm_compute in Hpass. by injection Hpass as <-.
Defined.



Lemma every_pass_visits_each_node_once_witness :
  Forall (λ st : state Z, order st ≡ₚ arange 2)
    (run_trace iso_rand 2 pair_indices pair_indptr
       (node_trace pair_indices pair_indptr) 2 1).
Proof.
  exact (proj1 (every_pass_visits_each_node_once iso_rand iso_rand_nonneg 2
                  pair_indices pair_indptr 2 1)).
Defined.

Lemma draws_of_a_run_witness :
  ∃ l g' p, fit_core iso_rand 2 pair_indices pair_indptr 5 1 = Some (Ok (l, g')) ∧
    (0 < p ≤ 5)%nat ∧ g' = draws iso_rand (p * Z.to_nat (2 - 1)) 1.
Proof.
  destruct (fit_core iso_rand 2 pair_indices pair_indptr 5 1)
    as [[[l g']|e]|] eqn:Hrun.
  - destruct (draws_of_a_run iso_rand 2 pair_indices pair_indptr 5 1 l g' Hrun)
      as (p & Hp & _ & _ & Hg).
    exists l, g', p. split; [reflexivity|]. split; [exact Hp|exact Hg].
  - vm_compute in Hrun. discriminate.
  - vm_compute in Hrun. discriminate.
Defined.

Lemma lone_node_keeps_label_witness :
  match fit_core iso_rand 3 loops_indices loops_indptr 3 1 with
  | Some (Ok (l, _)) => l !!! Z.to_nat 2 = 2
  | _ => False
  end.
Proof.
  pose proof (lone_node_keeps_label iso_rand iso_rand_nonneg 3 loops_indices
                loops_indptr loops_valid 3 1 2 ltac:(lia)
                ltac:(compute_done)) as [_ Hret].
  revert Hret. vm_compute (fit_core _ _ _ _ _ _). exact (λ H, H).
Defined.

Lemma negative_neighbour_wraps_witness :
  fit_core iso_rand 2 [-1; 0] [0; 1; 2] 2 1 =
    fit_core iso_rand 2 [1; 0] [0; 1; 2] 2 1.
Proof.
  exact (negative_neighbour_wraps iso_rand 2 [-1; 0] [0; 1; 2]
           ltac:(compute_done) 2 1).
Defined.

Lemma shuffle_prefix_only_witness :
  ∃ out g', shuffle iso_rand [10; 20; 30; 40] 2 1 = Ok (out, g') ∧
    drop (Z.to_nat 2) out = [30; 40].
Proof.
  destruct (shuffle_prefix_only iso_rand iso_rand_nonneg [10; 20; 30; 40] 2 1
              ltac:(simpl; lia)) as (out & g' & Hrun & _ & Hdrop).
  by exists out, g'.
Defined.

Lemma shuffle_reaches_every_ordering_witness :
  ∃ t, shuffle tape_rand [0; 1; 2] (Z.of_nat (length [0; 1; 2])) t =
         Ok ([2; 0; 1], []).
Proof.
  destruct (shuffle_reaches_every_ordering [0; 1; 2] [2; 0; 1])
    as (t & _ & _ & Hrun & _); [|by exists t].
  symmetry. apply (proj1 (permutations_Permutation [0; 1; 2] [2; 0; 1])).
  compute_done.
Defined.

Lemma overflow_error_of_fit_witness :
  fit iso_rand iso_srand 0 0%nat pair_matrix misseeded_heap 1 =
    Some (Raises OverflowError misseeded_heap) ∧
  fit iso_rand iso_srand 0 0%nat
    (Csr (2 ^ 31) pair_indices pair_indptr int32_buffer int32_buffer)
    seeded_heap 1 = Some (Raises OverflowError seeded_heap).
Proof.
  split.
  - refine (proj1 (proj1 (overflow_error_of_fit iso_rand iso_rand_nonneg
              iso_srand 0 0%nat pair_matrix misseeded_heap 1
              (Object None (Some (-1))) _) (-1) _ _)); [reflexivity..|lia].
  - refine (proj1 (proj1 (proj2 (overflow_error_of_fit iso_rand
              iso_rand_nonneg iso_srand 0 0%nat
              (Csr (2 ^ 31) pair_indices pair_indptr int32_buffer
                 int32_buffer) seeded_heap 1 (Object None (Some 42)) _))
              _ _)); [reflexivity| |simpl; lia].
    intros k [= <-]. lia.
Defined.

Lemma fit_transform_on_undirected_graph_witness :
  ∃ a l h' g',
    fit_transform iso_rand iso_srand 2 0%nat pair_matrix
      seeded_heap 1 = Some (Returns (Some a) h' g') ∧
    fitted_labels h' 0%nat = Some l ∧
    fixed_point 2 pair_indices pair_indptr l.
Proof.
  destruct (fit_transform_on_undirected_graph iso_rand iso_rand_nonneg
              iso_srand 0%nat pair_matrix seeded_heap 1
              (Object None (Some 42)) pair_valid pair_symmetric
              ltac:(simpl; lia) ltac:(done) ltac:(done) eq_refl)
    as (a & l & h' & g' & Hrun & _ & _ & Hl & _ & Hfix).
  { intros k [= <-]. lia. }
  exists a, l, h', g'. split; [|done]. apply Hrun. simpl. lia.
Defined.

Lemma unanimous_neighbours_decide_witness :
  match fit_core iso_rand 2 pair_indices pair_indptr 2 1 with
  | Some (Ok (l, _)) => l !!! Z.to_nat 0 = l !!! Z.to_nat 1
  | _ => False
  end.
Proof.
  pose proof (unanimous_neighbours_decide iso_rand iso_rand_nonneg 2
                pair_indices pair_indptr pair_valid 2 1) as Hret.
  revert Hret. vm_compute (fit_core _ _ _ _ _ _). intros Hret.
  apply (Hret 0); [lia|compute_done|compute_done].
Defined.

Lemma triangle_valid : valid_csr 3 triangle_indices triangle_indptr.
Proof. compute_done. Qed.

Lemma triangle_complete : complete 3 triangle_indices triangle_indptr.
Proof. compute_done. Qed.

Lemma complete_graph_one_community_witness :
  ∃ l g',
    fit_core iso_rand 3 triangle_indices triangle_indptr 4 1 =
      Some (Ok (l, g')) ∧
    l !!! Z.to_nat 0 = l !!! Z.to_nat 2.
Proof.
  destruct (complete_graph_one_community iso_rand iso_rand_nonneg 3
              triangle_indices triangle_indptr triangle_valid
              triangle_complete 1) as (l & g' & Hrun & Hall).
  exists l, g'. split; [apply Hrun; simpl; lia|apply Hall; lia].
Defined.
